(** * Flowly collaborative editor: the replicated text core

    A shallow embedding of [src/types/CRDT.ts] (position algebra, id
    generators), [src/lib/crdt/CRDTEngine.ts] (one field's character map and
    operation log), [src/lib/crdt/UndoRedoManager.ts] (batching and inverse
    operations) and [src/lib/crdt/MultiFieldCRDTEngine.ts] (one engine per
    field), and of what feeds and reads them: the text difference of
    [src/utils/utils.ts], the reducer of [src/hooks/useMultiFieldCRDT.ts]
    and the grouping of [src/components/HistoryPopover.tsx].  The
    properties of the specification come first, further properties of the
    code after them. *)

From Stdlib Require Import ZArith NArith Bool List String Ascii Lia.
From Stdlib Require Import DecimalString DecimalN Permutation Sorted.
Import ListNotations.

Open Scope string_scope.
Open Scope Z_scope.

(* ------------------------------------------------------------------ *)
(** * The host: numbers, strings, arrays, clock and randomness *)

Module JS.

(** ** Numbers

    The only numbers the position algebra computes are the integer read at
    the front of a key, that integer plus or minus one, and the midpoint of
    two such integers.  A finite number is therefore kept as twice its
    value: [Fin h] stands for [h/2].  IEEE doubles hold these values exactly
    while their magnitude stays below 2^53; the properties below say so
    where they depend on it.  [NaN] is the result of a failed parse and
    propagates through arithmetic. *)
Inductive number : Type :=
| NaN
| Fin (twice : Z).

Definition of_Z (n : Z) : number := Fin (2 * n).

Definition add (a b : number) : number :=
  match a, b with
  | Fin x, Fin y => Fin (x + y)
  | _, _ => NaN
  end.

Definition sub (a b : number) : number :=
  match a, b with
  | Fin x, Fin y => Fin (x - y)
  | _, _ => NaN
  end.

(** [x / 2].  Exact when [x] is an integer, which is the only use. *)
Definition half (a : number) : number :=
  match a with
  | Fin x => Fin (x / 2)
  | NaN => NaN
  end.

(** [a !== b]: [NaN] differs from everything, itself included. *)
Definition strict_neq (a b : number) : bool :=
  match a, b with
  | Fin x, Fin y => negb (x =? y)
  | _, _ => true
  end.

Definition isNaN (a : number) : bool :=
  match a with NaN => true | Fin _ => false end.

(** Sign tests on a comparator's result; both are false on [NaN]. *)
Definition negative (a : number) : bool :=
  match a with Fin x => x <? 0 | NaN => false end.

Definition positive (a : number) : bool :=
  match a with Fin x => 0 <? x | NaN => false end.

(** ** Strings *)

(** A string is truthy when it is not empty. *)
Definition truthy (s : string) : bool :=
  match s with EmptyString => false | String _ _ => true end.

(** [prevPos || null] and [!prevPos] on a [string | null]. *)
Definition present (p : option string) : option string :=
  match p with
  | Some s => if truthy s then Some s else None
  | None => None
  end.

Definition dot : ascii := "."%char.

(** [s.split('.')]: never empty, the empty string splits into [[""]]. *)
Fixpoint split_dot (s : string) : list string :=
  match s with
  | EmptyString => [EmptyString]
  | String c rest =>
      if Ascii.eqb c dot then EmptyString :: split_dot rest
      else match split_dot rest with
           | part :: parts => String c part :: parts
           | [] => [String c EmptyString]
           end
  end.

(** [parts[0]] and [parts[1]]; an absent part is [undefined], which
    [parseFloat] reads as the text "undefined" and so as [NaN]. *)
Definition part (parts : list string) (i : nat) : string :=
  nth i parts "undefined".

Definition is_digit (c : ascii) : bool :=
  let n := nat_of_ascii c in (48 <=? n)%nat && (n <=? 57)%nat.

Definition is_space (c : ascii) : bool :=
  let n := nat_of_ascii c in
  ((9 <=? n)%nat && (n <=? 13)%nat) || (n =? 32)%nat.

Definition digit_cons (c : ascii) (d : Decimal.uint) : Decimal.uint :=
  match nat_of_ascii c with
  | 48%nat => Decimal.D0 d | 49%nat => Decimal.D1 d | 50%nat => Decimal.D2 d
  | 51%nat => Decimal.D3 d | 52%nat => Decimal.D4 d | 53%nat => Decimal.D5 d
  | 54%nat => Decimal.D6 d | 55%nat => Decimal.D7 d | 56%nat => Decimal.D8 d
  | _ => Decimal.D9 d
  end.

(** The longest run of decimal digits at the front of [s]. *)
Fixpoint scan_digits (s : string) : Decimal.uint :=
  match s with
  | String c rest =>
      if is_digit c then digit_cons c (scan_digits rest) else Decimal.Nil
  | EmptyString => Decimal.Nil
  end.

Fixpoint trimStart (s : string) : string :=
  match s with
  | String c rest => if is_space c then trimStart rest else s
  | EmptyString => EmptyString
  end.

Definition unsigned_prefix (s : string) : number :=
  match scan_digits s with
  | Decimal.Nil => NaN
  | d => of_Z (Z.of_N (N.of_uint d))
  end.

Definition negate (a : number) : number :=
  match a with Fin x => Fin (- x) | NaN => NaN end.

(** [parseFloat] on one component of a key.  Every call site passes a part
    of [split('.')], so no fraction can follow the digits: the value is the
    signed decimal integer at the front, after leading white space, and
    [NaN] when there is none.  Exponent notation and the word Infinity are
    not modelled; keys written by this program never contain them below
    1e21. *)
Definition parseFloat (s : string) : number :=
  match trimStart s with
  | String "-"%char rest => negate (unsigned_prefix rest)
  | String "+"%char rest => unsigned_prefix rest
  | body => unsigned_prefix body
  end.

Definition digits (n : N) : string := NilEmpty.string_of_uint (N.to_uint n).

(** Number to string inside a template literal, for the integers and
    half-integers above: "3", "-2", "1.5", "-0.5", "NaN". *)
Definition toString (a : number) : string :=
  match a with
  | NaN => "NaN"
  | Fin h =>
      (if h <? 0 then "-" else "")
        ++ digits (Z.to_N (Z.abs h / 2))
        ++ (if Z.odd h then ".5" else "")
  end.

(** [a === b] on values that may be [undefined]. *)
Definition same (a b : option string) : bool :=
  match a, b with
  | Some x, Some y => String.eqb x y
  | None, None => true
  | _, _ => false
  end.

(** ** Arrays *)

(** [arr[i]] for a numeric index: [undefined] outside the array. *)
Definition index {A : Type} (arr : list A) (i : Z) : option A :=
  if i <? 0 then None else nth_error arr (Z.to_nat i).

Section Sort.
Context {A : Type} (compareFn : A -> A -> number).

Fixpoint insert_sorted (x : A) (l : list A) : list A :=
  match l with
  | [] => [x]
  | y :: rest =>
      if positive (compareFn x y) then y :: insert_sorted x rest
      else x :: l
  end.

(** [Array.prototype.sort], which is stable: an element moves behind
    another only when the comparator returns a positive number (zero and
    [NaN] keep the order).  With an inconsistent comparator the host's
    order is implementation-defined; this is insertion sort. *)
Definition sort (l : list A) : list A := fold_right insert_sorted [] l.
End Sort.

(** [arr.join('')], where [undefined] elements contribute nothing. *)
Definition join (l : list (option string)) : string :=
  String.concat "" (map (fun o => match o with Some s => s | None => "" end) l).

(** [arr.slice(start, end)] with integer arguments: a negative index
    counts from the end, and both are clamped to the array. *)
Definition slice {A : Type} (arr : list A) (start finish : Z) : list A :=
  let len := Z.of_nat (List.length arr) in
  let clamp i := if i <? 0 then Z.max (len + i) 0 else Z.min i len in
  let k := clamp start in
  let final := clamp finish in
  firstn (Z.to_nat (Z.max (final - k) 0)) (skipn (Z.to_nat k) arr).

(** [s[i]]: the code unit at index [i] as a string, [undefined] outside. *)
Definition charAt (s : string) (i : nat) : option string :=
  match String.get i s with
  | Some c => Some (String c EmptyString)
  | None => None
  end.

(** [s.substring(start, end)] on indices that are natural numbers: the
    smaller one is the start, and both are clamped to the string. *)
Definition substring (s : string) (start finish : nat) : string :=
  let lo := Nat.min start finish in
  let hi := Nat.max start finish in
  String.substring lo (hi - lo) s.

(** ** Clock and randomness

    [Date.now()] and [Math.random().toString(36).substr(2, 9)] are read
    from the host.  A host is the sequence of values these calls will
    return together with how many have been consumed. *)
Record Host : Type := mkHost {
  clock : nat -> Z;
  dice : nat -> string;
  ticks : nat;
  rolls : nat
}.

Definition M (A : Type) : Type := Host -> A * Host.

Definition ret {A : Type} (a : A) : M A := fun h => (a, h).

Definition bind {A B : Type} (m : M A) (k : A -> M B) : M B :=
  fun h => let (a, h') := m h in k a h'.

Definition now : M Z :=
  fun h => (clock h (ticks h), mkHost (clock h) (dice h) (S (ticks h)) (rolls h)).

Definition random36 : M string :=
  fun h => (dice h (rolls h), mkHost (clock h) (dice h) (ticks h) (S (rolls h))).

(** The host's collation, [String.prototype.localeCompare], is a parameter
    of the development. *)
Class Collation : Type := { localeCompare : string -> string -> number }.

End JS.

Notation "x <- m ;; k" := (JS.bind m (fun x => k))
  (at level 61, m at next level, right associativity).
Notation "' pat <- m ;; k" := (JS.bind m (fun x => match x with pat => k end))
  (at level 61, pat pattern, m at next level, right associativity).

Import JS.

(* ------------------------------------------------------------------ *)
(** * types/CRDT.ts *)

Inductive OperationType : Type := insert | delete.

Module FieldType.
Inductive t : Type := content | title | description | tags.

Definition eqb (a b : t) : bool :=
  match a, b with
  | content, content | title, title
  | description, description | tags, tags => true
  | _, _ => false
  end.
End FieldType.

Definition OperationType_eqb (a b : OperationType) : bool :=
  match a, b with
  | insert, insert | delete, delete => true
  | _, _ => false
  end.

(** A character of a field.  [id] and [char] are copied from operations
    whose [charId] and [char] are optional, so they may be [undefined]
    ([None]) at run time. *)
Module CRDTChar.
Record t : Type := mk {
  id : option string;
  char : option string;
  position : string;
  clientId : string;
  deleted : bool
}.

(** [character.deleted = true]. *)
Definition tombstone (c : t) : t :=
  mk (id c) (char c) (position c) (clientId c) true.
End CRDTChar.

(** An operation, with the optional undo/redo metadata of
    [CRDTOperationWithMetadata]. *)
Module CRDTOperation.
Inductive t : Type := mk {
  id : string;
  type : OperationType;
  field : FieldType.t;
  position : string;
  char : option string;
  charId : option string;
  clientId : string;
  documentId : string;
  timestamp : Z;
  metadata : option UndoRedoMetadata
}
with UndoRedoMetadata : Type := mkMetadata {
  isLocalOperation : bool;
  originalOperation : option t;
  batchId : option string
}.
End CRDTOperation.

Section PositionAlgebra.
Context `{Collation}.

Definition generateBetween (prev next clientId : string) : string :=
  let prevNum := parseFloat (part (split_dot prev) 0) in
  let nextNum := parseFloat (part (split_dot next) 0) in
  let midNum := add prevNum (half (sub nextNum prevNum)) in
  toString midNum ++ "." ++ clientId.

Definition generateBefore (pos clientId : string) : string :=
  let parts := split_dot pos in
  let num := parseFloat (part parts 0) in
  toString (sub num (of_Z 1)) ++ ".0." ++ clientId.

Definition generateAfter (pos clientId : string) : string :=
  let parts := split_dot pos in
  let num := parseFloat (part parts 0) in
  toString (add num (of_Z 1)) ++ ".0." ++ clientId.

(** The tests [!prevPos] and [!nextPos] treat [null] and the empty string
    alike; [present] keeps exactly the truthy keys. *)
Definition generatePosition (prevPos nextPos : option string)
    (clientId : string) : string :=
  match present prevPos, present nextPos with
  | None, None => "1.0." ++ clientId
  | None, Some next => generateBefore next clientId
  | Some prev, None => generateAfter prev clientId
  | Some prev, Some next => generateBetween prev next clientId
  end.

Definition hasSubPosition (parts : list string) : bool :=
  (3 <=? List.length parts)%nat && negb (isNaN (parseFloat (part parts 1))).

Definition comparePositions (a b : string) : number :=
  let aParts := split_dot a in
  let bParts := split_dot b in
  if (List.length aParts =? 1)%nat && (List.length bParts =? 1)%nat then
    sub (parseFloat a) (parseFloat b)
  else
    let aNum := parseFloat (part aParts 0) in
    let bNum := parseFloat (part bParts 0) in
    if strict_neq aNum bNum then sub aNum bNum
    else
      let aHasSubPosition := hasSubPosition aParts in
      let bHasSubPosition := hasSubPosition bParts in
      if aHasSubPosition && negb bHasSubPosition then of_Z 1
      else if negb aHasSubPosition && bHasSubPosition then of_Z (-1)
      else localeCompare a b.
End PositionAlgebra.

Definition generateOperationId (clientId : string) : M string :=
  t <- now ;;
  r <- random36 ;;
  ret (clientId ++ "_" ++ toString (of_Z t) ++ "_" ++ r).

Definition generateCharId (clientId : string) : M string :=
  t <- now ;;
  r <- random36 ;;
  ret ("char_" ++ clientId ++ "_" ++ toString (of_Z t) ++ "_" ++ r).

(** Undo/redo types. *)
Record UndoStep : Type := mkUndoStep {
  step_id : string;
  step_operations : list CRDTOperation.t;
  step_timestamp : Z;
  step_userId : string;
  step_field : FieldType.t;
  step_description : option string
}.

(** [batchTimeout] holds the handle of the pending timer; handles are
    non-zero, so only its presence is kept. *)
Record UndoRedoState : Type := mkUndoRedoState {
  undoStack : list UndoStep;
  redoStack : list UndoStep;
  currentBatch : option (list CRDTOperation.t);
  batchStartTime : option Z;
  batchTimeout : bool
}.

Record UndoRedoConfig : Type := mkConfig {
  cfg_batchTimeout : Z;
  cfg_maxUndoSteps : Z;
  cfg_enableBatching : bool
}.

(** A JavaScript [Map] with string keys: entries in insertion order;
    [set] on a present key replaces the value where it stands. *)
Module JSMap.
Section WithValue.
Context {V : Type}.
Definition t : Type := list (option string * V).

Fixpoint get (k : option string) (m : t) : option V :=
  match m with
  | [] => None
  | (k', v) :: rest => if same k' k then Some v else get k rest
  end.

Definition has (k : option string) (m : t) : bool :=
  match get k m with Some _ => true | None => false end.

Fixpoint set (k : option string) (v : V) (m : t) : t :=
  match m with
  | [] => [(k, v)]
  | (k', v') :: rest =>
      if same k' k then (k', v) :: rest else (k', v') :: set k v rest
  end.

Definition values (m : t) : list V := map snd m.
Definition keys (m : t) : list (option string) := map fst m.
Definition size (m : t) : nat := List.length m.

(** Mutation of the object stored under key [k]. *)
Fixpoint mutate (k : option string) (f : V -> V) (m : t) : t :=
  match m with
  | [] => []
  | (k', v) :: rest =>
      if same k' k then (k', f v) :: rest else (k', v) :: mutate k f rest
  end.

(** Mutation of the first stored object that satisfies [p], the one
    [Array.from(m.values()).find(p)] returns. *)
Fixpoint mutate_found (p : V -> bool) (f : V -> V) (m : t) : t :=
  match m with
  | [] => []
  | (k', v) :: rest =>
      if p v then (k', f v) :: rest else (k', v) :: mutate_found p f rest
  end.
End WithValue.
Arguments t : clear implicits.
End JSMap.

(* ------------------------------------------------------------------ *)
(** * lib/crdt/CRDTEngine.ts *)

Module CRDTEngine.

Record t : Type := mk {
  content : string;
  operations : list CRDTOperation.t;
  characters : JSMap.t CRDTChar.t;
  documentId : string;
  clientId : string
}.

Definition new (documentId clientId : string) : t :=
  mk "" [] [] documentId clientId.

Record Stats : Type := mkStats {
  totalOperations : nat;
  insertOperations : nat;
  deleteOperations : nat;
  totalCharacters : nat;
  deletedCharacters : nat
}.

(** [this.operations.some(op => op.id === id)]. *)
Definition applied (id : string) (ops : list CRDTOperation.t) : bool :=
  existsb (fun op => String.eqb (CRDTOperation.id op) id) ops.

(** The test of the fallback lookup in [applyDelete]. *)
Definition matches (position : string) (char : option string)
    (c : CRDTChar.t) : bool :=
  String.eqb (CRDTChar.position c) position && same (CRDTChar.char c) char.

Definition applyInsert (operation : CRDTOperation.t)
    (crdtChar : option CRDTChar.t) (chars : JSMap.t CRDTChar.t)
    : M (JSMap.t CRDTChar.t) :=
  charToInsert <-
    match crdtChar with
    | Some c => ret c
    | None =>
        newId <- generateCharId (CRDTOperation.clientId operation) ;;
        ret (CRDTChar.mk (Some newId) (CRDTOperation.char operation)
               (CRDTOperation.position operation)
               (CRDTOperation.clientId operation) false)
    end ;;
  ret (JSMap.set (CRDTChar.id charToInsert) charToInsert chars).

(** The character is an object shared with the map: setting its flag
    changes the stored entry, and the final [set] stores it under its own
    id once more. *)
Definition applyDelete (operation : CRDTOperation.t)
    (chars : JSMap.t CRDTChar.t) : JSMap.t CRDTChar.t :=
  let charId := CRDTOperation.charId operation in
  let char := CRDTOperation.char operation in
  let position := CRDTOperation.position operation in
  match JSMap.get charId chars with
  | Some character =>
      JSMap.set (CRDTChar.id character) (CRDTChar.tombstone character)
        (JSMap.mutate charId CRDTChar.tombstone chars)
  | None =>
      match find (matches position char) (JSMap.values chars) with
      | Some foundChar =>
          JSMap.set (CRDTChar.id foundChar) (CRDTChar.tombstone foundChar)
            (JSMap.mutate_found (matches position char)
               CRDTChar.tombstone chars)
      | None =>
          let character :=
            CRDTChar.mk charId char position
              (CRDTOperation.clientId operation) false in
          JSMap.set (CRDTChar.id character) (CRDTChar.tombstone character)
            (JSMap.mutate charId CRDTChar.tombstone
               (JSMap.set charId character chars))
      end
  end.

Definition getStats (e : t) : Stats :=
  let isType ty op := OperationType_eqb (CRDTOperation.type op) ty in
  mkStats
    (List.length (operations e))
    (List.length (filter (isType insert) (operations e)))
    (List.length (filter (isType delete) (operations e)))
    (JSMap.size (characters e))
    (List.length (filter CRDTChar.deleted (JSMap.values (characters e)))).

Section Methods.
Context `{Collation}.

Definition getSortedVisibleChars (e : t) : list CRDTChar.t :=
  sort (fun a b =>
          comparePositions (CRDTChar.position a) (CRDTChar.position b))
    (filter (fun c => negb (CRDTChar.deleted c))
       (JSMap.values (characters e))).

Definition getContent (e : t) : string :=
  join (map CRDTChar.char (getSortedVisibleChars e)).

Definition getVisibleContent (e : t) : string :=
  let visibleChars := getSortedVisibleChars e in
  join (map CRDTChar.char visibleChars).

Definition applyOperation (e : t) (operation : CRDTOperation.t)
    (crdtChar : option CRDTChar.t) : M t :=
  if applied (CRDTOperation.id operation) (operations e) then ret e
  else
    chars <-
      match CRDTOperation.type operation with
      | insert => applyInsert operation crdtChar (characters e)
      | delete => ret (applyDelete operation (characters e))
      end ;;
    let e1 :=
      mk (content e) (operations e ++ [operation])%list chars
        (documentId e) (clientId e) in
    ret (mk (getContent e1) (operations e1) (characters e1)
           (documentId e1) (clientId e1)).

(** [sortedChars[i]?.position || null]. *)
Definition neighbour (sortedChars : list CRDTChar.t) (i : Z)
    : option string :=
  match index sortedChars i with
  | Some c => present (Some (CRDTChar.position c))
  | None => None
  end.

Definition insertChar (e : t) (char : string) (visiblePosition : Z)
    : M (CRDTOperation.t * t) :=
  let sortedChars := getSortedVisibleChars e in
  let position :=
    generatePosition (neighbour sortedChars (visiblePosition - 1))
      (neighbour sortedChars visiblePosition) (clientId e) in
  charId <- generateCharId (clientId e) ;;
  let crdtChar :=
    CRDTChar.mk (Some charId) (Some char) position (clientId e) false in
  opId <- generateOperationId (clientId e) ;;
  stamp <- now ;;
  let operation :=
    CRDTOperation.mk opId insert FieldType.content position (Some char)
      None (clientId e) (documentId e) stamp None in
  e' <- applyOperation e operation (Some crdtChar) ;;
  ret (operation, e').

Definition deleteChar (e : t) (visiblePosition : Z)
    : M (option CRDTOperation.t * t) :=
  let sortedChars := getSortedVisibleChars e in
  if (visiblePosition <? 0)
     || (Z.of_nat (List.length sortedChars) <=? visiblePosition)
  then ret (None, e)
  else
    match index sortedChars visiblePosition with
    | None => ret (None, e)
    | Some charToDelete =>
        opId <- generateOperationId (clientId e) ;;
        stamp <- now ;;
        let operation :=
          CRDTOperation.mk opId delete FieldType.content
            (CRDTChar.position charToDelete) (CRDTChar.char charToDelete)
            (CRDTChar.id charToDelete) (clientId e) (documentId e)
            stamp None in
        e' <- applyOperation e operation None ;;
        ret (Some operation, e')
    end.

(** [for (const operation of this.operations) this.applyOperation(operation)]:
    the iterator reads the live array, so an entry pushed by the body
    would be visited too.  [None] is an exhausted budget. *)
Fixpoint replay (budget : nat) (i : nat) (e : t) : M (option t) :=
  match budget with
  | O => ret None
  | S budget' =>
      match nth_error (operations e) i with
      | None => ret (Some e)
      | Some operation =>
          e' <- applyOperation e operation None ;;
          replay budget' (S i) e'
      end
  end.

Definition rebuildContent (e : t) : M (option t) :=
  let cleared :=
    mk (content e) (operations e) [] (documentId e) (clientId e) in
  replay (S (List.length (operations e))) 0 cleared.

Definition mergeOperations (e : t) (ops : list CRDTOperation.t) : M t :=
  fold_left (fun acc operation =>
               e' <- acc ;; applyOperation e' operation None)
    ops (ret e).

Definition getVisibleCharacters (e : t) : list CRDTChar.t :=
  getSortedVisibleChars e.

Definition getCharacterAtPosition (e : t) (position : Z)
    : option CRDTChar.t :=
  let sortedChars := getSortedVisibleChars e in
  if (position <? 0) || (Z.of_nat (List.length sortedChars) <=? position)
  then None
  else index sortedChars position.

Definition getCharIdsInRange (e : t) (startPosition endPosition : Z)
    : list (option string) :=
  let visibleChars := getVisibleCharacters e in
  let charsInRange := slice visibleChars startPosition endPosition in
  map CRDTChar.id charsInRange.
End Methods.
End CRDTEngine.

(** A [Map] whose keys are the four field names, all present from
    construction on and never removed. *)
Module PerField.
Record t (A : Type) : Type := mk {
  at_content : A;
  at_title : A;
  at_description : A;
  at_tags : A
}.
Arguments mk {A}.
Arguments at_content {A}.
Arguments at_title {A}.
Arguments at_description {A}.
Arguments at_tags {A}.

Definition init {A : Type} (a : A) : t A := mk a a a a.

Definition get {A : Type} (m : t A) (f : FieldType.t) : A :=
  match f with
  | FieldType.content => at_content m
  | FieldType.title => at_title m
  | FieldType.description => at_description m
  | FieldType.tags => at_tags m
  end.

Definition set {A : Type} (m : t A) (f : FieldType.t) (a : A) : t A :=
  match f with
  | FieldType.content => mk a (at_title m) (at_description m) (at_tags m)
  | FieldType.title => mk (at_content m) a (at_description m) (at_tags m)
  | FieldType.description => mk (at_content m) (at_title m) a (at_tags m)
  | FieldType.tags => mk (at_content m) (at_title m) (at_description m) a
  end.

Definition fields : list FieldType.t :=
  [FieldType.content; FieldType.title; FieldType.description;
   FieldType.tags].
End PerField.

(* ------------------------------------------------------------------ *)
(** * lib/crdt/UndoRedoManager.ts *)

Module UndoRedoManager.

Record t : Type := mk {
  undoRedoStates : PerField.t UndoRedoState;
  config : UndoRedoConfig;
  userId : string;
  documentId : string
}.

Definition new (userId documentId : string) (config : UndoRedoConfig) : t :=
  mk (PerField.init (mkUndoRedoState [] [] None None false))
    config userId documentId.

Definition state (m : t) (field : FieldType.t) : UndoRedoState :=
  PerField.get (undoRedoStates m) field.

Definition with_state (m : t) (field : FieldType.t) (s : UndoRedoState) : t :=
  mk (PerField.set (undoRedoStates m) field s)
    (config m) (userId m) (documentId m).

Definition with_metadata (op : CRDTOperation.t)
    (md : CRDTOperation.UndoRedoMetadata) : CRDTOperation.t :=
  CRDTOperation.mk (CRDTOperation.id op) (CRDTOperation.type op)
    (CRDTOperation.field op) (CRDTOperation.position op)
    (CRDTOperation.char op) (CRDTOperation.charId op)
    (CRDTOperation.clientId op) (CRDTOperation.documentId op)
    (CRDTOperation.timestamp op) (Some md).

Definition count (n : nat) : string := toString (of_Z (Z.of_nat n)).

Definition generateBatchDescription (ops : list CRDTOperation.t) : string :=
  match ops with
  | [] => "No operations"
  | [firstOp] =>
      match CRDTOperation.type firstOp with
      | insert => "Insert character"
      | delete => "Delete character"
      end
  | firstOp :: _ =>
      let allSameType :=
        forallb (fun op => OperationType_eqb (CRDTOperation.type op)
                             (CRDTOperation.type firstOp)) ops in
      if allSameType then
        match CRDTOperation.type firstOp with
        | insert => "Insert " ++ count (List.length ops) ++ " characters"
        | delete => "Delete " ++ count (List.length ops) ++ " characters"
        end
      else "Mixed operations (" ++ count (List.length ops) ++ ")"
  end.

Definition finalizeBatch (m : t) (field : FieldType.t) : M t :=
  let st := state m field in
  match currentBatch st with
  | None => ret m
  | Some [] => ret m
  | Some batch =>
      stepId <- generateOperationId (userId m) ;;
      stamp <- now ;;
      let undoStep :=
        mkUndoStep stepId batch stamp (userId m) field
          (Some (generateBatchDescription batch)) in
      let pushed := (undoStack st ++ [undoStep])%list in
      let bounded :=
        if cfg_maxUndoSteps (config m) <? Z.of_nat (List.length pushed)
        then tl pushed else pushed in
      ret (with_state m field
             (mkUndoRedoState bounded (redoStack st) None None false))
  end.

Definition createNewBatch (m : t) (field : FieldType.t)
    (ops : list CRDTOperation.t) : M t :=
  m1 <- match currentBatch (state m field) with
        | Some _ => finalizeBatch m field
        | None => ret m
        end ;;
  start <- now ;;
  let st := state m1 field in
  ret (with_state m1 field
         (mkUndoRedoState (undoStack st) (redoStack st) (Some ops)
            (Some start) true)).

Definition addToBatch (m : t) (field : FieldType.t)
    (op : CRDTOperation.t) : M t :=
  let st := state m field in
  match currentBatch st with
  | None => createNewBatch m field [op]
  | Some batch =>
      ret (with_state m field
             (mkUndoRedoState (undoStack st) (redoStack st)
                (Some (batch ++ [op])%list) (batchStartTime st) true))
  end.

(** [state.batchStartTime && Date.now() - state.batchStartTime > timeout]:
    the clock is read only when the start time is set and non-zero. *)
Definition shouldBatchOperation (m : t) (field : FieldType.t)
    (op : CRDTOperation.t) : M bool :=
  let st := state m field in
  match currentBatch st with
  | None => ret false
  | Some batch =>
      expired <-
        match batchStartTime st with
        | Some start =>
            if start =? 0 then ret false
            else
              current <- now ;;
              ret (cfg_batchTimeout (config m) <? current - start)
        | None => ret false
        end ;;
      if expired then ret false
      else
        match last (map Some batch) None with
        | None => ret true
        | Some lastOperation =>
            ret (OperationType_eqb (CRDTOperation.type op)
                   (CRDTOperation.type lastOperation))
        end
  end.

(** [state.currentBatch[0]?.id || generateOperationId(this.userId)]. *)
Definition getCurrentBatchId (m : t) (field : FieldType.t) : M string :=
  match currentBatch (state m field) with
  | Some (first :: _) =>
      if truthy (CRDTOperation.id first) then ret (CRDTOperation.id first)
      else generateOperationId (userId m)
  | _ => generateOperationId (userId m)
  end.

Definition clearRedoStack (m : t) (field : FieldType.t) : t :=
  let st := state m field in
  with_state m field
    (mkUndoRedoState (undoStack st) [] (currentBatch st)
       (batchStartTime st) (batchTimeout st)).

Definition trackOperation (m : t) (operation : CRDTOperation.t) : M t :=
  if negb (String.eqb (CRDTOperation.clientId operation) (userId m))
  then ret m
  else
    let field := CRDTOperation.field operation in
    batch <- getCurrentBatchId m field ;;
    let operationWithMetadata :=
      with_metadata operation
        (CRDTOperation.mkMetadata true None (Some batch)) in
    joins <- (if cfg_enableBatching (config m)
              then shouldBatchOperation m field operation
              else ret false) ;;
    m1 <- (if joins then addToBatch m field operationWithMetadata
           else createNewBatch m field [operationWithMetadata]) ;;
    ret (clearRedoStack m1 field).

Definition generateInverseOperation (m : t) (operation : CRDTOperation.t)
    : M CRDTOperation.t :=
  newId <- generateOperationId (userId m) ;;
  stamp <- now ;;
  let md := CRDTOperation.mkMetadata true (Some operation) None in
  match CRDTOperation.type operation with
  | insert =>
      ret (CRDTOperation.mk newId delete (CRDTOperation.field operation)
             (CRDTOperation.position operation)
             (CRDTOperation.char operation)
             (Some ("undo_" ++ CRDTOperation.id operation))
             (userId m) (documentId m) stamp (Some md))
  | delete =>
      ret (CRDTOperation.mk newId insert (CRDTOperation.field operation)
             (CRDTOperation.position operation)
             (CRDTOperation.char operation)
             None
             (userId m) (documentId m) stamp (Some md))
  end.

(** A loop in the monad over a list, first element first. *)
Fixpoint each {A B : Type} (f : A -> M B) (l : list A) : M (list B) :=
  match l with
  | [] => ret []
  | a :: rest => b <- f a ;; bs <- each f rest ;; ret (b :: bs)
  end.

(** The loop runs from the last index down to 0, pushing every inverse. *)
Definition generateInverseOperations (m : t)
    (ops : list CRDTOperation.t) : M (list CRDTOperation.t) :=
  each (generateInverseOperation m) (rev ops).

Definition createRedoOperations (m : t) (ops : list CRDTOperation.t)
    : M (list CRDTOperation.t) :=
  each (fun operation =>
          newId <- generateOperationId (userId m) ;;
          stamp <- now ;;
          ret (CRDTOperation.mk newId (CRDTOperation.type operation)
                 (CRDTOperation.field operation)
                 (CRDTOperation.position operation)
                 (CRDTOperation.char operation)
                 (CRDTOperation.charId operation)
                 (CRDTOperation.clientId operation)
                 (CRDTOperation.documentId operation)
                 stamp
                 (Some (CRDTOperation.mkMetadata true (Some operation) None))))
    ops.

(** [stack.pop()] on a non-empty stack: the last element and the rest. *)
Definition pop {A : Type} (stack : list A) : option (A * list A) :=
  match rev stack with
  | [] => None
  | top :: below => Some (top, rev below)
  end.

Definition undo (m : t) (field : FieldType.t)
    : M (option (list CRDTOperation.t) * t) :=
  match undoStack (state m field) with
  | [] => ret (None, m)
  | _ :: _ =>
      m1 <- match currentBatch (state m field) with
            | Some _ => finalizeBatch m field
            | None => ret m
            end ;;
      let st := state m1 field in
      match pop (undoStack st) with
      | None => ret (None, m1)
      | Some (undoStep, remaining) =>
          inverseOperations <-
            generateInverseOperations m1 (step_operations undoStep) ;;
          ret (Some inverseOperations,
               with_state m1 field
                 (mkUndoRedoState remaining (redoStack st ++ [undoStep])%list
                    (currentBatch st) (batchStartTime st)
                    (batchTimeout st)))
      end
  end.

Definition redo (m : t) (field : FieldType.t)
    : M (option (list CRDTOperation.t) * t) :=
  let st := state m field in
  match pop (redoStack st) with
  | None => ret (None, m)
  | Some (redoStep, remaining) =>
      redoOperations <- createRedoOperations m (step_operations redoStep) ;;
      ret (Some redoOperations,
           with_state m field
             (mkUndoRedoState (undoStack st ++ [redoStep])%list remaining
                (currentBatch st) (batchStartTime st) (batchTimeout st)))
  end.

Definition canUndo (m : t) (field : FieldType.t) : bool :=
  negb (Nat.eqb (List.length (undoStack (state m field))) 0).

Definition canRedo (m : t) (field : FieldType.t) : bool :=
  negb (Nat.eqb (List.length (redoStack (state m field))) 0).

Definition finalizeAllBatches (m : t) : M t :=
  fold_left (fun acc field => m' <- acc ;; finalizeBatch m' field)
    PerField.fields (ret m).
End UndoRedoManager.

(* ------------------------------------------------------------------ *)
(** * lib/crdt/MultiFieldCRDTEngine.ts *)

Module MultiFieldCRDTEngine.

Record FieldState : Type := mkFieldState {
  fs_content : string;
  fs_characters : JSMap.t CRDTChar.t;
  fs_operations : list CRDTOperation.t
}.

Record t : Type := mk {
  engines : PerField.t CRDTEngine.t;
  fieldStates : PerField.t FieldState;
  undoRedoManager : UndoRedoManager.t;
  documentId : string;
  clientId : string
}.

Definition new (documentId clientId : string) : t :=
  mk (PerField.init (CRDTEngine.new documentId clientId))
    (PerField.init (mkFieldState "" [] []))
    (UndoRedoManager.new clientId documentId (mkConfig 1000 50 true))
    documentId clientId.

(** [{...operation, field, timestamp: Date.now()}]. *)
Definition stamped (operation : CRDTOperation.t) (field : FieldType.t)
    (stamp : Z) : CRDTOperation.t :=
  CRDTOperation.mk (CRDTOperation.id operation)
    (CRDTOperation.type operation) field
    (CRDTOperation.position operation) (CRDTOperation.char operation)
    (CRDTOperation.charId operation) (CRDTOperation.clientId operation)
    (CRDTOperation.documentId operation) stamp
    (CRDTOperation.metadata operation).

Definition trackOperation (mf : t) (field : FieldType.t)
    (operation : CRDTOperation.t) : M t :=
  if String.eqb (CRDTOperation.clientId operation) (clientId mf) then
    let fs := PerField.get (fieldStates mf) field in
    let fs' :=
      mkFieldState (fs_content fs) (fs_characters fs)
        (fs_operations fs ++ [operation])%list in
    manager <- UndoRedoManager.trackOperation (undoRedoManager mf) operation ;;
    ret (mk (engines mf) (PerField.set (fieldStates mf) field fs')
           manager (documentId mf) (clientId mf))
  else ret mf.

Section Methods.
Context `{Collation}.

Definition insertChar (mf : t) (field : FieldType.t) (char : string)
    (position : Z) : M (option CRDTOperation.t * t) :=
  '(operation, engine) <-
    CRDTEngine.insertChar (PerField.get (engines mf) field) char position ;;
  stamp <- now ;;
  let fieldOperation := stamped operation field stamp in
  let mf1 :=
    mk (PerField.set (engines mf) field engine) (fieldStates mf)
      (undoRedoManager mf) (documentId mf) (clientId mf) in
  mf2 <- trackOperation mf1 field fieldOperation ;;
  ret (Some fieldOperation, mf2).

Definition deleteChar (mf : t) (field : FieldType.t) (position : Z)
    : M (option CRDTOperation.t * t) :=
  '(result, engine) <-
    CRDTEngine.deleteChar (PerField.get (engines mf) field) position ;;
  let mf1 :=
    mk (PerField.set (engines mf) field engine) (fieldStates mf)
      (undoRedoManager mf) (documentId mf) (clientId mf) in
  match result with
  | Some operation =>
      stamp <- now ;;
      let fieldOperation := stamped operation field stamp in
      mf2 <- trackOperation mf1 field fieldOperation ;;
      ret (Some fieldOperation, mf2)
  | None => ret (None, mf1)
  end.

Definition updateFieldState (mf : t) (field : FieldType.t) : t :=
  let engine := PerField.get (engines mf) field in
  let fs := PerField.get (fieldStates mf) field in
  let fs' :=
    mkFieldState (CRDTEngine.getVisibleContent engine)
      (CRDTEngine.characters engine) (fs_operations fs) in
  mk (engines mf) (PerField.set (fieldStates mf) field fs')
    (undoRedoManager mf) (documentId mf) (clientId mf).

Definition applyOperation (mf : t) (operation : CRDTOperation.t) : M t :=
  let field := CRDTOperation.field operation in
  engine <-
    CRDTEngine.applyOperation (PerField.get (engines mf) field)
      operation None ;;
  ret (updateFieldState
         (mk (PerField.set (engines mf) field engine) (fieldStates mf)
            (undoRedoManager mf) (documentId mf) (clientId mf))
         field).

Definition applyAll (mf : t) (ops : list CRDTOperation.t) : M t :=
  fold_left (fun acc operation =>
               mf' <- acc ;; applyOperation mf' operation)
    ops (ret mf).

Definition getFieldContent (mf : t) (field : FieldType.t) : string :=
  CRDTEngine.getVisibleContent (PerField.get (engines mf) field).

Definition with_manager (mf : t) (manager : UndoRedoManager.t) : t :=
  mk (engines mf) (fieldStates mf) manager (documentId mf) (clientId mf).

Definition undo (mf : t) (field : FieldType.t)
    : M (option (list CRDTOperation.t) * t) :=
  '(inverseOperations, manager) <-
    UndoRedoManager.undo (undoRedoManager mf) field ;;
  let mf1 := with_manager mf manager in
  match inverseOperations with
  | Some ops => mf2 <- applyAll mf1 ops ;; ret (inverseOperations, mf2)
  | None => ret (None, mf1)
  end.

Definition redo (mf : t) (field : FieldType.t)
    : M (option (list CRDTOperation.t) * t) :=
  '(redoOperations, manager) <-
    UndoRedoManager.redo (undoRedoManager mf) field ;;
  let mf1 := with_manager mf manager in
  match redoOperations with
  | Some ops => mf2 <- applyAll mf1 ops ;; ret (redoOperations, mf2)
  | None => ret (None, mf1)
  end.

Definition canUndo (mf : t) (field : FieldType.t) : bool :=
  UndoRedoManager.canUndo (undoRedoManager mf) field.

Definition canRedo (mf : t) (field : FieldType.t) : bool :=
  UndoRedoManager.canRedo (undoRedoManager mf) field.

Definition finalizeAllBatches (mf : t) : M t :=
  manager <- UndoRedoManager.finalizeAllBatches (undoRedoManager mf) ;;
  ret (with_manager mf manager).
End Methods.
End MultiFieldCRDTEngine.

(* ------------------------------------------------------------------ *)
(** * utils/utils.ts *)

Inductive DifferenceType : Type := insertText | deleteText | replaceText.

(** The optional members of the interface are [undefined] where the code
    leaves them out. *)
Module TextDifference.
Record t : Type := mk {
  type : DifferenceType;
  char : option string;
  position : nat;
  length : option nat;
  oldChar : option string;
  newChar : option string
}.
End TextDifference.

(** [while (pos < bound && oldText[pos] === newText[pos]) pos++], started
    at [pos].  The loop leaves as soon as [pos] reaches [bound], so a
    budget of [bound] rounds is never the reason it stops. *)
Fixpoint scanEqual (budget bound : nat) (oldText newText : string)
    (pos : nat) : nat :=
  match budget with
  | O => pos
  | S budget' =>
      if (pos <? bound)%nat && same (charAt oldText pos) (charAt newText pos)
      then scanEqual budget' bound oldText newText (S pos)
      else pos
  end.

Definition findTextDifference (oldText newText : string)
    : option TextDifference.t :=
  let oldLength := String.length oldText in
  let newLength := String.length newText in
  if (oldLength <? newLength)%nat then
    let insertedLength := (newLength - oldLength)%nat in
    let bound := Nat.min oldLength newLength in
    let insertPos := scanEqual bound bound oldText newText 0 in
    let insertedText :=
      substring newText insertPos (insertPos + insertedLength) in
    Some (TextDifference.mk insertText (Some insertedText) insertPos
            None None None)
  else if (newLength <? oldLength)%nat then
    let deletedLength := (oldLength - newLength)%nat in
    let bound := Nat.min oldLength newLength in
    let deletePos := scanEqual bound bound oldText newText 0 in
    Some (TextDifference.mk deleteText None deletePos (Some deletedLength)
            None None)
  else if negb (String.eqb oldText newText) then
    let replacePos := scanEqual oldLength oldLength oldText newText 0 in
    Some (TextDifference.mk replaceText None replacePos None
            (charAt oldText replacePos) (charAt newText replacePos))
  else None.

(* ------------------------------------------------------------------ *)
(** * hooks/useMultiFieldCRDT.ts: the reducer

    The user and presence records and the bulk operations are carried, not
    inspected; their types are parameters. *)

(** A [Map] keyed by field name, filled one field at a time. *)
Module FieldMap.
Section WithValue.
Context {V : Type}.
Definition t : Type := list (FieldType.t * V).

Fixpoint set (k : FieldType.t) (v : V) (m : t) : t :=
  match m with
  | [] => [(k, v)]
  | (k', v') :: rest =>
      if FieldType.eqb k' k then (k', v) :: rest else (k', v') :: set k v rest
  end.
End WithValue.
Arguments t : clear implicits.
End FieldMap.

Module Reducer.
Section WithCarried.
Context {User UserPresence Bulk : Type}.

Record BulkState : Type := mkBulkState {
  isProcessing : bool;
  currentBulkOp : option Bulk;
  bulkPendingOperations : list Bulk
}.

Record CRDTState : Type := mkState {
  documentId : string;
  fields : PerField.t string;
  operations : list CRDTOperation.t;
  pendingOperations : list CRDTOperation.t;
  isConnected : bool;
  participants : list UserPresence;
  currentUser : option User;
  characters : FieldMap.t (JSMap.t CRDTChar.t);
  bulkState : BulkState
}.

Inductive CRDTAction : Type :=
| APPLY_OPERATION (operation : CRDTOperation.t)
| ADD_PENDING_OPERATION (operation : CRDTOperation.t)
| SYNC_PENDING_OPERATIONS
| SET_CONNECTION_STATUS (connected : bool)
| UPDATE_PARTICIPANTS (present : list UserPresence)
| SET_CURRENT_USER (user : User)
| UPDATE_FIELD (field : FieldType.t) (content : string)
| UPDATE_CHARACTERS (field : FieldType.t) (chars : JSMap.t CRDTChar.t)
| RESET_STATE.

Definition initialState : CRDTState :=
  mkState "" (PerField.init "") [] [] false [] None []
    (mkBulkState false None []).

Definition crdtReducer (state : CRDTState) (action : CRDTAction)
    : CRDTState :=
  match action with
  | APPLY_OPERATION operation =>
      let operationExists :=
        existsb (fun op => String.eqb (CRDTOperation.id op)
                             (CRDTOperation.id operation))
          (operations state) in
      if operationExists then state
      else
        mkState (documentId state) (fields state)
          (operations state ++ [operation])%list (pendingOperations state)
          (isConnected state) (participants state) (currentUser state)
          (characters state) (bulkState state)
  | ADD_PENDING_OPERATION operation =>
      mkState (documentId state) (fields state) (operations state)
        (pendingOperations state ++ [operation])%list
        (isConnected state) (participants state) (currentUser state)
        (characters state) (bulkState state)
  | SYNC_PENDING_OPERATIONS =>
      mkState (documentId state) (fields state) (operations state) []
        (isConnected state) (participants state) (currentUser state)
        (characters state) (bulkState state)
  | SET_CONNECTION_STATUS connected =>
      mkState (documentId state) (fields state) (operations state)
        (pendingOperations state) connected (participants state)
        (currentUser state) (characters state) (bulkState state)
  | UPDATE_PARTICIPANTS present =>
      mkState (documentId state) (fields state) (operations state)
        (pendingOperations state) (isConnected state) present
        (currentUser state) (characters state) (bulkState state)
  | SET_CURRENT_USER user =>
      mkState (documentId state) (fields state) (operations state)
        (pendingOperations state) (isConnected state) (participants state)
        (Some user) (characters state) (bulkState state)
  | UPDATE_FIELD field content =>
      mkState (documentId state) (PerField.set (fields state) field content)
        (operations state) (pendingOperations state) (isConnected state)
        (participants state) (currentUser state) (characters state)
        (bulkState state)
  | UPDATE_CHARACTERS field chars =>
      mkState (documentId state) (fields state) (operations state)
        (pendingOperations state) (isConnected state) (participants state)
        (currentUser state) (FieldMap.set field chars (characters state))
        (bulkState state)
  | RESET_STATE => initialState
  end.
End WithCarried.
Arguments BulkState : clear implicits.
Arguments CRDTState : clear implicits.
Arguments CRDTAction : clear implicits.
End Reducer.

(* ------------------------------------------------------------------ *)
(** * components/HistoryPopover.tsx: grouping the operation log *)

Module HistoryPopover.

Record OperationGroup : Type := mkGroup {
  userId : string;
  operations : list CRDTOperation.t;
  startTime : Z;
  endTime : Z;
  field : FieldType.t
}.

Definition TIME_WINDOW : Z := 3000.

(** [op.timestamp || 0]. *)
Definition stampOf (op : CRDTOperation.t) : Z :=
  if CRDTOperation.timestamp op =? 0 then 0 else CRDTOperation.timestamp op.

Definition startGroup (op : CRDTOperation.t) : OperationGroup :=
  mkGroup (CRDTOperation.clientId op) [op] (stampOf op) (stampOf op)
    (CRDTOperation.field op).

(** The body of [for (const op of sortedOps)], with [currentGroup] and
    [groups] as the loop's state. *)
Fixpoint collect (sortedOps : list CRDTOperation.t)
    (currentGroup : option OperationGroup) (groups : list OperationGroup)
    : list OperationGroup :=
  match sortedOps with
  | [] =>
      match currentGroup with
      | Some g => (groups ++ [g])%list
      | None => groups
      end
  | op :: rest =>
      match currentGroup with
      | None => collect rest (Some (startGroup op)) groups
      | Some g =>
          if String.eqb (CRDTOperation.clientId op) (userId g)
             && FieldType.eqb (CRDTOperation.field op) (field g)
             && (stampOf op - endTime g <=? TIME_WINDOW)
          then
            collect rest
              (Some (mkGroup (userId g) (operations g ++ [op])%list
                       (startTime g) (stampOf op) (field g)))
              groups
          else collect rest (Some (startGroup op)) (groups ++ [g])%list
      end
  end.

Definition groupOperations (ops : list CRDTOperation.t)
    : list OperationGroup :=
  match ops with
  | [] => []
  | _ :: _ =>
      let sortedOps :=
        sort (fun a b => of_Z (stampOf a - stampOf b)) ops in
      collect sortedOps None []
  end.
End HistoryPopover.

(** Code-unit order, used where a concrete collation is needed to run the
    model. *)
Fixpoint codeUnitCompare (a b : string) : number :=
  match a, b with
  | EmptyString, EmptyString => of_Z 0
  | EmptyString, String _ _ => of_Z (-1)
  | String _ _, EmptyString => of_Z 1
  | String x a', String y b' =>
      match Nat.compare (nat_of_ascii x) (nat_of_ascii y) with
      | Lt => of_Z (-1)
      | Gt => of_Z 1
      | Eq => codeUnitCompare a' b'
      end
  end.

Definition codeUnitCollation : Collation :=
  {| localeCompare := codeUnitCompare |}.

(** A host whose clock advances by one millisecond per reading and whose
    random source yields "r0", "r1", ... *)
Definition sampleHost : Host :=
  mkHost (fun k => 1700000000000 + Z.of_nat k)
    (fun k => "r" ++ digits (N.of_nat k)) 0 0.

(* ------------------------------------------------------------------ *)
(** * Vocabulary of the properties *)

(** The id a fresh character receives when the host is in state [h]. *)
Definition drawnCharId (clientId : string) (h : Host) : string :=
  fst (generateCharId clientId h).
Arguments drawnCharId : simpl never.

Definition afterDraw (h : Host) : Host :=
  mkHost (clock h) (dice h) (S (ticks h)) (S (rolls h)).

(** The character the remote path of [applyInsert] creates. *)
Definition remoteChar (op : CRDTOperation.t) (h : Host) : CRDTChar.t :=
  CRDTChar.mk (Some (drawnCharId (CRDTOperation.clientId op) h))
    (CRDTOperation.char op) (CRDTOperation.position op)
    (CRDTOperation.clientId op) false.

(** The engine once [operation] is logged and [chars] is the new map. *)
Definition stepped `{Collation} (e : CRDTEngine.t)
    (operation : CRDTOperation.t) (chars : JSMap.t CRDTChar.t)
    : CRDTEngine.t :=
  let e1 :=
    CRDTEngine.mk (CRDTEngine.content e)
      (CRDTEngine.operations e ++ [operation])%list chars
      (CRDTEngine.documentId e) (CRDTEngine.clientId e) in
  CRDTEngine.mk (CRDTEngine.getContent e1) (CRDTEngine.operations e1)
    chars (CRDTEngine.documentId e) (CRDTEngine.clientId e).

(** The visible content is a function of the character map alone. *)
Definition contentOf `{Collation} (chars : JSMap.t CRDTChar.t) : string :=
  CRDTEngine.getVisibleContent (CRDTEngine.mk "" [] chars "" "").

(** The key, the character and the operation [insertChar] builds before
    it applies them. *)
Definition insertPosition `{Collation} (e : CRDTEngine.t) (i : Z) : string :=
  let sortedChars := CRDTEngine.getSortedVisibleChars e in
  generatePosition (CRDTEngine.neighbour sortedChars (i - 1))
    (CRDTEngine.neighbour sortedChars i) (CRDTEngine.clientId e).

Definition insertedChar `{Collation} (e : CRDTEngine.t) (char : string)
    (i : Z) (h : Host) : CRDTChar.t :=
  CRDTChar.mk (Some (drawnCharId (CRDTEngine.clientId e) h)) (Some char)
    (insertPosition e i) (CRDTEngine.clientId e) false.

Definition insertOperation `{Collation} (e : CRDTEngine.t) (char : string)
    (i : Z) (h : Host) : CRDTOperation.t :=
  CRDTOperation.mk
    (fst (generateOperationId (CRDTEngine.clientId e) (afterDraw h)))
    insert FieldType.content (insertPosition e i) (Some char) None
    (CRDTEngine.clientId e) (CRDTEngine.documentId e)
    (clock h (S (S (ticks h)))) None.

Definition spend (t r : nat) (h : Host) : Host :=
  mkHost (clock h) (dice h) (t + ticks h) (r + rolls h).

(** The operation [deleteChar] builds for the character [c]. *)
Definition deleteOperation (e : CRDTEngine.t) (c : CRDTChar.t) (h : Host)
    : CRDTOperation.t :=
  CRDTOperation.mk (fst (generateOperationId (CRDTEngine.clientId e) h))
    delete FieldType.content (CRDTChar.position c) (CRDTChar.char c)
    (CRDTChar.id c) (CRDTEngine.clientId e) (CRDTEngine.documentId e)
    (clock h (S (ticks h))) None.

Module Delivery.
(** An insert made by client "alice" and the delete of the character it
    created, as "alice" broadcasts them. *)
Definition ins : CRDTOperation.t :=
  CRDTOperation.mk "alice_1700000000000_k3x9q2m1z" insert FieldType.content
    "1.0.alice" (Some "a") None "alice" "doc" 1700000000001 None.

Definition del : CRDTOperation.t :=
  CRDTOperation.mk "alice_1700000000500_p0o9i8u7y" delete FieldType.content
    "1.0.alice" (Some "a") (Some "char_alice_1700000000000_b2n4m6v8c")
    "alice" "doc" 1700000000501 None.

Definition replica `{Collation} (ops : list CRDTOperation.t) (h : Host)
    : CRDTEngine.t :=
  fst (CRDTEngine.mergeOperations (CRDTEngine.new "doc" "bob") ops h).
End Delivery.

(** Every entry is stored under the id of its character, and no key occurs
    twice: what a [Map] filled only by [applyInsert] and [applyDelete]
    looks like. *)
Definition keyed (m : JSMap.t CRDTChar.t) : Prop :=
  Forall (fun entry => CRDTChar.id (snd entry) = fst entry) m
  /\ NoDup (JSMap.keys m).

Inductive EngineCall : Type :=
| CallInsertChar (char : string) (visiblePosition : Z)
| CallDeleteChar (visiblePosition : Z)
| CallApplyOperation (operation : CRDTOperation.t)
    (crdtChar : option CRDTChar.t).

Definition perform `{Collation} (call : EngineCall) (e : CRDTEngine.t)
    : M CRDTEngine.t :=
  match call with
  | CallInsertChar char i =>
      '(_, e') <- CRDTEngine.insertChar e char i ;; ret e'
  | CallDeleteChar i =>
      '(_, e') <- CRDTEngine.deleteChar e i ;; ret e'
  | CallApplyOperation operation crdtChar =>
      CRDTEngine.applyOperation e operation crdtChar
  end.

(** The key under which the call stores a new character, if it inserts. *)
Definition storedId (call : EngineCall) (e : CRDTEngine.t) (h : Host)
    : option (option string) :=
  match call with
  | CallInsertChar _ _ => Some (Some (drawnCharId (CRDTEngine.clientId e) h))
  | CallDeleteChar _ => None
  | CallApplyOperation operation crdtChar =>
      match CRDTOperation.type operation, crdtChar with
      | insert, Some c => Some (CRDTChar.id c)
      | insert, None =>
          Some (Some (drawnCharId (CRDTOperation.clientId operation) h))
      | delete, _ => None
      end
  end.

(** The id of a new character is not in use: what the clock and the random
    source are relied on to provide. *)
Definition freshChar (call : EngineCall) (e : CRDTEngine.t) (h : Host) : Prop :=
  match storedId call e h with
  | Some k => JSMap.get k (CRDTEngine.characters e) = None
  | None => True
  end.

Definition deletedCount (m : JSMap.t CRDTChar.t) : nat :=
  List.length (filter CRDTChar.deleted (JSMap.values m)).

(** One call leaves the map as it was, appends one entry under an unused
    key, or tombstones the entry of one key. *)
Inductive grows (m : JSMap.t CRDTChar.t) : JSMap.t CRDTChar.t -> Prop :=
| grows_same : grows m m
| grows_append (c : CRDTChar.t) :
    JSMap.get (CRDTChar.id c) m = None ->
    grows m (m ++ [(CRDTChar.id c, c)])%list
| grows_tombstone (k : option string) :
    grows m (JSMap.mutate k CRDTChar.tombstone m).

(** What the host contributes to the next generated id. *)
Definition draw (h : Host) : string :=
  toString (of_Z (clock h (ticks h))) ++ "_" ++ dice h (rolls h).



(** An open batch is closed before the undo stack is popped. *)
Definition closeOpenBatch (m : UndoRedoManager.t) (field : FieldType.t)
    : M UndoRedoManager.t :=
  match currentBatch (UndoRedoManager.state m field) with
  | Some _ => UndoRedoManager.finalizeBatch m field
  | None => ret m
  end.

(** The number read at the front of a key, as every function of the
    position algebra reads it. *)
Definition numericPart (p : string) : number :=
  parseFloat (part (split_dot p) 0).

(** [p] starts with the decimal integer [n] followed by a dot: the shape of
    the keys [generatePosition] returns. *)
Definition numericKey (n : Z) (p : string) : Prop :=
  exists rest : string, p = toString (of_Z n) ++ "." ++ rest.

Definition strictly_less (a b : number) : Prop :=
  match a, b with
  | Fin x, Fin y => x < y
  | _, _ => False
  end.

(** [a] sorts before [b]: the comparator returns a negative number. *)
Definition orders_before `{Collation} (a b : string) : Prop :=
  negative (comparePositions a b) = true.

Fixpoint dotless (s : string) : bool :=
  match s with
  | EmptyString => true
  | String c rest => negb (Ascii.eqb c dot) && dotless rest
  end.

(** The text [toString] puts in front of the first dot. *)
Definition frontText (h : Z) : string :=
  (if h <? 0 then "-" else "") ++ digits (Z.to_N (Z.abs h / 2)).

(** The integer [parseFloat] reads back from it: [h/2] truncated towards
    zero. *)
Definition frontValue (h : Z) : Z :=
  if h <? 0 then - (Z.abs h / 2) else Z.abs h / 2.

(** The sessions of the round trip.  [helloSession] types five characters
    at the end of field [f] of the engine [mf], closes the batch, undoes
    and redoes; its three results are the content after typing, after the
    undo, and after the redo.  [emptied] is an engine in which field [f]
    is empty again after one character was typed and deleted.
    [undoRedoUndo] types one character into a new engine, closes the
    batch, and calls undo, redo and undo; its results are the four
    contents and what the second undo returned. *)
Definition typeChar `{Collation} (f : FieldType.t) (c : string) (i : Z)
    (mf : MultiFieldCRDTEngine.t) : M MultiFieldCRDTEngine.t :=
  '(_, mf') <- MultiFieldCRDTEngine.insertChar mf f c i ;;
  ret mf'.

Definition helloSession `{Collation} (f : FieldType.t)
    (mf : MultiFieldCRDTEngine.t) : M (string * string * string) :=
  mf1 <- typeChar f "h" 0 mf ;;
  mf2 <- typeChar f "e" 1 mf1 ;;
  mf3 <- typeChar f "l" 2 mf2 ;;
  mf4 <- typeChar f "l" 3 mf3 ;;
  mf5 <- typeChar f "o" 4 mf4 ;;
  mf6 <- MultiFieldCRDTEngine.finalizeAllBatches mf5 ;;
  '(_, mf7) <- MultiFieldCRDTEngine.undo mf6 f ;;
  '(_, mf8) <- MultiFieldCRDTEngine.redo mf7 f ;;
  ret (MultiFieldCRDTEngine.getFieldContent mf6 f,
       MultiFieldCRDTEngine.getFieldContent mf7 f,
       MultiFieldCRDTEngine.getFieldContent mf8 f).

Definition emptied `{Collation} (f : FieldType.t) (doc user : string)
    : M MultiFieldCRDTEngine.t :=
  mf1 <- typeChar f "h" 0 (MultiFieldCRDTEngine.new doc user) ;;
  '(_, mf2) <- MultiFieldCRDTEngine.deleteChar mf1 f 0 ;;
  ret mf2.

Definition undoRedoUndo `{Collation} (f : FieldType.t) (doc user : string)
    : M (string * string * string * string
         * option (list CRDTOperation.t)) :=
  mf1 <- typeChar f "a" 0 (MultiFieldCRDTEngine.new doc user) ;;
  mf2 <- MultiFieldCRDTEngine.finalizeAllBatches mf1 ;;
  '(_, mf3) <- MultiFieldCRDTEngine.undo mf2 f ;;
  '(_, mf4) <- MultiFieldCRDTEngine.redo mf3 f ;;
  '(inverses, mf5) <- MultiFieldCRDTEngine.undo mf4 f ;;
  ret (MultiFieldCRDTEngine.getFieldContent mf2 f,
       MultiFieldCRDTEngine.getFieldContent mf3 f,
       MultiFieldCRDTEngine.getFieldContent mf4 f,
       MultiFieldCRDTEngine.getFieldContent mf5 f,
       inverses).

(** The key "<i>.0.<user>". *)
Definition key (i : Z) (user : string) : string :=
  toString (of_Z i) ++ ".0." ++ user.

Fixpoint lacks (x : ascii) (s : string) : bool :=
  match s with
  | EmptyString => true
  | String c rest => negb (Ascii.eqb c x) && lacks x rest
  end.

Module Sample.
(** An engine of user "u" whose log holds the insert of [Delivery.ins]. *)
Definition logged : CRDTEngine.t :=
  CRDTEngine.mk "" [Delivery.ins] [] "doc" "u".

Definition step : UndoStep :=
  mkUndoStep "u_1_s" [Delivery.ins] 1700000000900 "u" FieldType.content
    (Some "Insert character").

(** A manager with one closed step for the content field. *)
Definition manager : UndoRedoManager.t :=
  UndoRedoManager.with_state
    (UndoRedoManager.new "u" "doc" (mkConfig 1000 50 true))
    FieldType.content (mkUndoRedoState [step] [] None None false).
End Sample.

(** ** Vocabulary of the further properties *)

(** The characters of a map that are not tombstones, in storage order. *)
Definition visible (m : JSMap.t CRDTChar.t) : list CRDTChar.t :=
  filter (fun c => negb (CRDTChar.deleted c)) (JSMap.values m).

(** No id occurs twice in a list of operations. *)
Definition distinctIds (ops : list CRDTOperation.t) : Prop :=
  NoDup (map CRDTOperation.id ops).

(** [a] has to stand behind [b]: the comparator is positive on them. *)
Definition behind `{Collation} (a b : CRDTChar.t) : bool :=
  positive (comparePositions (CRDTChar.position a) (CRDTChar.position b)).

(** The comparator ranks the characters of [l] without contradiction: of
    two characters at most one stands behind the other, and standing not
    behind is transitive. *)
Definition consistent `{Collation} (l : list CRDTChar.t) : Prop :=
  (forall a b, In a l -> In b l -> behind a b = true -> behind b a = false)
  /\ (forall a b c, In a l -> In b l -> In c l ->
        behind a b = false -> behind b c = false -> behind a c = false).

(** [l] without its element at index [i]. *)
Definition without {A : Type} (i : nat) (l : list A) : list A :=
  (firstn i l ++ skipn (S i) l)%list.

(** The calls that reach an [UndoRedoManager]: the public methods, and
    [finalizeBatch] as the batch timer runs it. *)
Inductive ManagerCall : Type :=
| CallTrack (operation : CRDTOperation.t)
| CallUndo (field : FieldType.t)
| CallRedo (field : FieldType.t)
| CallTimer (field : FieldType.t)
| CallFinalizeAll.

Definition act (call : ManagerCall) (m : UndoRedoManager.t)
    : M UndoRedoManager.t :=
  match call with
  | CallTrack operation => UndoRedoManager.trackOperation m operation
  | CallUndo field => '(_, m') <- UndoRedoManager.undo m field ;; ret m'
  | CallRedo field => '(_, m') <- UndoRedoManager.redo m field ;; ret m'
  | CallTimer field => UndoRedoManager.finalizeBatch m field
  | CallFinalizeAll => UndoRedoManager.finalizeAllBatches m
  end.

(** A sequence of calls, each on the manager the one before left. *)
Fixpoint session (calls : list ManagerCall) (m : UndoRedoManager.t)
    : M UndoRedoManager.t :=
  match calls with
  | [] => ret m
  | call :: rest => m' <- act call m ;; session rest m'
  end.

(** The field a call works on; [finalizeAllBatches] works on all. *)
Definition target (call : ManagerCall) : option FieldType.t :=
  match call with
  | CallTrack operation => Some (CRDTOperation.field operation)
  | CallUndo field | CallRedo field | CallTimer field => Some field
  | CallFinalizeAll => None
  end.

(** Operations of user [user] on field [field]. *)
Definition own (user : string) (field : FieldType.t)
    (ops : list CRDTOperation.t) : Prop :=
  Forall (fun op => CRDTOperation.clientId op = user
                    /\ CRDTOperation.field op = field) ops.

(** All inserts, or all deletes. *)
Definition uniform (ops : list CRDTOperation.t) : Prop :=
  forall a b, In a ops -> In b ops ->
              CRDTOperation.type a = CRDTOperation.type b.

(** A step as [finalizeBatch] builds it from a batch of the user. *)
Definition wellStep (user : string) (field : FieldType.t) (s : UndoStep)
    : Prop :=
  step_operations s <> []
  /\ own user field (step_operations s)
  /\ uniform (step_operations s)
  /\ step_field s = field
  /\ step_userId s = user
  /\ step_description s =
     Some (UndoRedoManager.generateBatchDescription (step_operations s)).

(** What holds of the undo/redo state of one field at every moment: the
    steps are well formed, the undo stack is within the limit, and while a
    batch is open it is a non-empty batch of the user and nothing can be
    redone. *)
Definition tidy (user : string) (max : Z) (field : FieldType.t)
    (st : UndoRedoState) : Prop :=
  Forall (wellStep user field) (undoStack st)
  /\ Forall (wellStep user field) (redoStack st)
  /\ (0 <= max -> Z.of_nat (List.length (undoStack st)) <= max)
  /\ match currentBatch st with
     | None =>
         0 <= max ->
         Z.of_nat (List.length (undoStack st) + List.length (redoStack st))
         <= max
     | Some batch =>
         batch <> [] /\ redoStack st = [] /\ own user field batch
         /\ uniform batch
     end.

Definition allTidy (m : UndoRedoManager.t) : Prop :=
  forall field,
    tidy (UndoRedoManager.userId m) (cfg_maxUndoSteps (UndoRedoManager.config m))
      field (UndoRedoManager.state m field).

(** [m'] is [m] with the state of field [f] replaced. *)
Definition rewrites (m m' : UndoRedoManager.t) (f : FieldType.t) : Prop :=
  m' = UndoRedoManager.with_state m f (UndoRedoManager.state m' f).

(** No operation waits in a batch of [st]. *)
Definition idle (st : UndoRedoState) : Prop :=
  currentBatch st = None \/ currentBatch st = Some [].

(** [again] is [op] as [redo] issues it anew when the host is in state
    [h]: the same operation with [op] as its original, its id made of the
    user, the clock's reading and the random string of [h], its timestamp
    the clock's next reading. *)
Definition replays (user : string) (h : Host) (op again : CRDTOperation.t)
    : Prop :=
  CRDTOperation.type again = CRDTOperation.type op
  /\ CRDTOperation.field again = CRDTOperation.field op
  /\ CRDTOperation.position again = CRDTOperation.position op
  /\ CRDTOperation.char again = CRDTOperation.char op
  /\ CRDTOperation.charId again = CRDTOperation.charId op
  /\ CRDTOperation.clientId again = CRDTOperation.clientId op
  /\ CRDTOperation.documentId again = CRDTOperation.documentId op
  /\ CRDTOperation.metadata again =
     Some (CRDTOperation.mkMetadata true (Some op) None)
  /\ CRDTOperation.id again = user ++ "_" ++ draw h
  /\ CRDTOperation.timestamp again = clock h (S (ticks h)).

(** The operations of a step issued anew one after the other: each reads
    the host where the one before left it, two clock readings and one
    random draw further on. *)
Inductive replayed (user : string)
    : Host -> list CRDTOperation.t -> list CRDTOperation.t -> Host -> Prop :=
| replayed_nil (h : Host) : replayed user h [] [] h
| replayed_cons (h h' : Host) (op again : CRDTOperation.t)
    (ops agains : list CRDTOperation.t) :
    replays user h op again ->
    replayed user (spend 2 1 h) ops agains h' ->
    replayed user h (op :: ops) (again :: agains) h'.

(** A code unit with which no number starts: an ASCII character that is
    no white space, no sign, no digit, no dot and not the "I" of
    "Infinity". *)
Definition startsNoNumber (c : ascii) : bool :=
  let n := nat_of_ascii c in
  (n <? 128)%nat && negb (is_space c) && negb (is_digit c)
  && negb (Ascii.eqb c "+") && negb (Ascii.eqb c "-")
  && negb (Ascii.eqb c dot) && negb (Ascii.eqb c "I").

(** [p] has no number in front of its first dot: it is empty, or starts
    with a dot, or starts with a code unit with which no number starts. *)
Definition headless (p : string) : Prop :=
  match p with
  | EmptyString => True
  | String c _ => c = dot \/ startsNoNumber c = true
  end.

(** The first [n] code units of [s], and what follows them. *)
Fixpoint take (n : nat) (s : string) : string :=
  match n, s with
  | S n', String c rest => String c (take n' rest)
  | _, _ => EmptyString
  end.

Fixpoint drop (n : nat) (s : string) : string :=
  match n, s with
  | S n', String _ rest => drop n' rest
  | _, _ => s
  end.

(** The number of leading code units two strings share. *)
Fixpoint commonPrefix (a b : string) : nat :=
  match a, b with
  | String x a', String y b' =>
      if Ascii.eqb x y then S (commonPrefix a' b') else O
  | _, _ => O
  end.

(** The state after a sequence of dispatched actions. *)
Definition dispatched {User UserPresence Bulk : Type}
    (actions : list (Reducer.CRDTAction User UserPresence))
    (state : Reducer.CRDTState User UserPresence Bulk)
    : Reducer.CRDTState User UserPresence Bulk :=
  fold_left Reducer.crdtReducer actions state.

(** A well-formed group of the history: it starts with its first
    operation and ends with its last, all are of one user and one field,
    and each lies within the time window of the one before it. *)
Definition wellGroup (g : HistoryPopover.OperationGroup) : Prop :=
  (exists first rest,
      HistoryPopover.operations g = first :: rest
      /\ HistoryPopover.startTime g = HistoryPopover.stampOf first
      /\ HistoryPopover.endTime g =
         HistoryPopover.stampOf (last rest first))
  /\ Forall (fun op =>
               CRDTOperation.clientId op = HistoryPopover.userId g
               /\ CRDTOperation.field op = HistoryPopover.field g)
       (HistoryPopover.operations g)
  /\ forall before a b others,
       HistoryPopover.operations g = (before ++ a :: b :: others)%list ->
       HistoryPopover.stampOf b - HistoryPopover.stampOf a
       <= HistoryPopover.TIME_WINDOW.

Module Scene.
(** A content field of user "u" that shows "ab": both characters typed at
    the end, as [insertChar] stores and logs them. *)
Definition first : CRDTChar.t :=
  CRDTChar.mk (Some "char_u_1700000000000_a1") (Some "a") "1.0.u" "u" false.

Definition second : CRDTChar.t :=
  CRDTChar.mk (Some "char_u_1700000000100_b2") (Some "b") "2.0.u" "u" false.

Definition typedFirst : CRDTOperation.t :=
  CRDTOperation.mk "u_1700000000001_c3" insert FieldType.content "1.0.u"
    (Some "a") None "u" "doc" 1700000000002 None.

Definition typedSecond : CRDTOperation.t :=
  CRDTOperation.mk "u_1700000000101_d4" insert FieldType.content "2.0.u"
    (Some "b") None "u" "doc" 1700000000102 None.

Definition engine : CRDTEngine.t :=
  CRDTEngine.mk "ab" [typedFirst; typedSecond]
    [(CRDTChar.id first, first); (CRDTChar.id second, second)] "doc" "u".

(** The same two operations as the title field's manager of "u" tracks
    them, closed into one step by the timer. *)
Definition tracked : list ManagerCall :=
  [CallTrack (MultiFieldCRDTEngine.stamped typedFirst FieldType.title
                1700000000003);
   CallTrack (MultiFieldCRDTEngine.stamped typedSecond FieldType.title
                1700000000103);
   CallTimer FieldType.title].

Definition manager : UndoRedoManager.t :=
  fst (session tracked
         (UndoRedoManager.new "u" "doc" (mkConfig 1000 50 true)) sampleHost).
End Scene.

(* ------------------------------------------------------------------ *)
(** * Properties *)

(** ** Evaluating string comparisons

    Ids drawn from the host stay symbolic in the proofs; comparisons
    between them and literals are decided from their first characters or
    from a hypothesis. *)

Ltac decide_eqb :=
  match goal with
  | |- context [String.eqb ?a ?a] => rewrite (String.eqb_refl a)
  | E : String.eqb ?a ?b = _ |- context [String.eqb ?a ?b] => rewrite E
  | |- context [String.eqb ?a ?b] =>
      let r := eval vm_compute in (String.eqb a b) in
      lazymatch r with
      | true => change (String.eqb a b) with true
      | false => change (String.eqb a b) with false
      end
  end.

Ltac run :=
  repeat (progress (cbn -[String.eqb];
                    unfold CRDTEngine.matches, JS.same;
                    repeat decide_eqb)).

(** ** The monad *)

Lemma generateCharId_run (clientId : string) (h : Host) :
  generateCharId clientId h =
  ("char_" ++ clientId ++ "_" ++ toString (of_Z (clock h (ticks h)))
     ++ "_" ++ dice h (rolls h),
   mkHost (clock h) (dice h) (S (ticks h)) (S (rolls h))).
Proof. reflexivity. Qed.

Lemma generateOperationId_run (clientId : string) (h : Host) :
  generateOperationId clientId h =
  (clientId ++ "_" ++ toString (of_Z (clock h (ticks h)))
     ++ "_" ++ dice h (rolls h),
   mkHost (clock h) (dice h) (S (ticks h)) (S (rolls h))).
Proof. reflexivity. Qed.

(** ** The operation log *)

Lemma applied_app (id : string) (l1 l2 : list CRDTOperation.t) :
  CRDTEngine.applied id (l1 ++ l2)%list =
  CRDTEngine.applied id l1 || CRDTEngine.applied id l2.
Proof. unfold CRDTEngine.applied. apply existsb_app. Qed.

Lemma applied_self (op : CRDTOperation.t) :
  CRDTEngine.applied (CRDTOperation.id op) [op] = true.
Proof.
  unfold CRDTEngine.applied. simpl. now rewrite String.eqb_refl.
Qed.

Lemma applied_nth (ops : list CRDTOperation.t) (i : nat)
    (op : CRDTOperation.t) :
  nth_error ops i = Some op ->
  CRDTEngine.applied (CRDTOperation.id op) ops = true.
Proof.
  intros Hnth. unfold CRDTEngine.applied. apply existsb_exists.
  exists op. split.
  - eapply nth_error_In; eassumption.
  - apply String.eqb_refl.
Qed.

Section EngineFacts.
Context `{Collation}.

(** An operation whose id is in the log changes nothing and reads
    neither the clock nor the random source. *)
Lemma applyOperation_seen (e : CRDTEngine.t) (op : CRDTOperation.t)
    (crdtChar : option CRDTChar.t) (h : Host) :
  CRDTEngine.applied (CRDTOperation.id op) (CRDTEngine.operations e) = true ->
  CRDTEngine.applyOperation e op crdtChar h = (e, h).
Proof.
  intros Hseen. unfold CRDTEngine.applyOperation. now rewrite Hseen.
Qed.

(** A new operation ends up last in the log. *)
Lemma applyOperation_logs (e : CRDTEngine.t) (op : CRDTOperation.t)
    (crdtChar : option CRDTChar.t) (h : Host) :
  CRDTEngine.applied (CRDTOperation.id op) (CRDTEngine.operations e) = false ->
  CRDTEngine.operations (fst (CRDTEngine.applyOperation e op crdtChar h)) =
  (CRDTEngine.operations e ++ [op])%list.
Proof.
  intros Hnew. unfold CRDTEngine.applyOperation. rewrite Hnew.
  unfold bind.
  destruct (CRDTOperation.type op).
  - destruct (CRDTEngine.applyInsert op crdtChar (CRDTEngine.characters e) h).
    reflexivity.
  - reflexivity.
Qed.

Lemma replay_skips (budget i : nat) (e : CRDTEngine.t) (h : Host) :
  (List.length (CRDTEngine.operations e) - i < budget)%nat ->
  CRDTEngine.replay budget i e h = (Some e, h).
Proof.
  revert i. induction budget as [|budget IH]; intros i Hlt; [lia|].
  simpl. destruct (nth_error (CRDTEngine.operations e) i) as [op|] eqn:Hnth.
  - unfold bind. rewrite applyOperation_seen by (eapply applied_nth; eauto).
    apply IH.
    assert (i < List.length (CRDTEngine.operations e))%nat
      by (apply nth_error_Some; congruence).
    lia.
  - reflexivity.
Qed.

(** C2. Applying an operation a second time leaves the engine (character
    map, operation log, content) and the host exactly as the first
    application left them, whatever character object accompanies either
    call; and an operation whose id is already in the log is a no-op. *)
Theorem C2_applyOperation_idempotent (e : CRDTEngine.t)
    (op : CRDTOperation.t) (c1 c2 : option CRDTChar.t) (h : Host) :
  (let (e1, h1) := CRDTEngine.applyOperation e op c1 h in
   CRDTEngine.applyOperation e1 op c2 h1 = (e1, h1)
   /\ CRDTEngine.getVisibleContent
        (fst (CRDTEngine.applyOperation e1 op c2 h1)) =
      CRDTEngine.getVisibleContent e1)
  /\ (CRDTEngine.applied (CRDTOperation.id op) (CRDTEngine.operations e) = true ->
      CRDTEngine.applyOperation e op c1 h = (e, h)).
Proof.
  split; [|apply applyOperation_seen].
  destruct (CRDTEngine.applyOperation e op c1 h) as [e1 h1] eqn:Hrun.
  assert (Hseen : CRDTEngine.applied (CRDTOperation.id op)
                    (CRDTEngine.operations e1) = true).
  { destruct (CRDTEngine.applied (CRDTOperation.id op)
                (CRDTEngine.operations e)) eqn:Hwas.
    - rewrite applyOperation_seen in Hrun by assumption.
      now inversion Hrun; subst.
    - pose proof (applyOperation_logs e op c1 h Hwas) as Hlog.
      rewrite Hrun in Hlog. simpl in Hlog. rewrite Hlog.
      rewrite applied_app, applied_self. apply orb_true_r. }
  rewrite (applyOperation_seen e1 op c2 h1 Hseen). now split.
Qed.

(** C4. [rebuildContent] terminates, but every operation it replays is
    found in the log and skipped: the character map it leaves is empty and
    the visible content is the empty string, whatever they were. *)
Theorem C4_rebuildContent_erases (e : CRDTEngine.t) (h : Host) :
  let cleared :=
    CRDTEngine.mk (CRDTEngine.content e) (CRDTEngine.operations e) []
      (CRDTEngine.documentId e) (CRDTEngine.clientId e) in
  CRDTEngine.rebuildContent e h = (Some cleared, h)
  /\ CRDTEngine.characters cleared = []
  /\ CRDTEngine.getVisibleContent cleared = "".
Proof.
  cbv zeta. split; [|split; reflexivity].
  unfold CRDTEngine.rebuildContent. apply replay_skips. simpl. lia.
Qed.
(** The first character typed into a fresh engine is shown, and is gone
    after [rebuildContent]. *)
Example rebuildContent_after_insert (h h' : Host) :
  let e1 := snd (fst (CRDTEngine.insertChar (CRDTEngine.new "doc" "u")
                        "a" 0 h)) in
  CRDTEngine.getVisibleContent e1 = "a"
  /\ exists e2, fst (CRDTEngine.rebuildContent e1 h') = Some e2
                /\ CRDTEngine.getVisibleContent e2 = "".
Proof.
  cbv zeta. split; [reflexivity|].
  eexists. split.
  - unfold CRDTEngine.rebuildContent. rewrite replay_skips by (simpl; lia).
    reflexivity.
  - reflexivity.
Qed.
End EngineFacts.

(** ** One step of the engine, written out *)

Section Steps.
Context `{Collation}.

Lemma applyOperation_remote_insert (e : CRDTEngine.t)
    (op : CRDTOperation.t) (h : Host) :
  CRDTEngine.applied (CRDTOperation.id op) (CRDTEngine.operations e) = false ->
  CRDTOperation.type op = insert ->
  CRDTEngine.applyOperation e op None h =
  (stepped e op
     (JSMap.set (CRDTChar.id (remoteChar op h)) (remoteChar op h)
        (CRDTEngine.characters e)),
   afterDraw h).
Proof.
  intros Hnew Hty. unfold CRDTEngine.applyOperation.
  rewrite Hnew, Hty. reflexivity.
Qed.

Lemma applyOperation_local_insert (e : CRDTEngine.t)
    (op : CRDTOperation.t) (c : CRDTChar.t) (h : Host) :
  CRDTEngine.applied (CRDTOperation.id op) (CRDTEngine.operations e) = false ->
  CRDTOperation.type op = insert ->
  CRDTEngine.applyOperation e op (Some c) h =
  (stepped e op (JSMap.set (CRDTChar.id c) c (CRDTEngine.characters e)), h).
Proof.
  intros Hnew Hty. unfold CRDTEngine.applyOperation.
  rewrite Hnew, Hty. reflexivity.
Qed.

Lemma applyOperation_delete (e : CRDTEngine.t) (op : CRDTOperation.t)
    (c : option CRDTChar.t) (h : Host) :
  CRDTEngine.applied (CRDTOperation.id op) (CRDTEngine.operations e) = false ->
  CRDTOperation.type op = delete ->
  CRDTEngine.applyOperation e op c h =
  (stepped e op (CRDTEngine.applyDelete op (CRDTEngine.characters e)), h).
Proof.
  intros Hnew Hty. unfold CRDTEngine.applyOperation.
  rewrite Hnew, Hty. reflexivity.
Qed.

Lemma getVisibleContent_chars (e : CRDTEngine.t) :
  CRDTEngine.getVisibleContent e = contentOf (CRDTEngine.characters e).
Proof. reflexivity. Qed.

Lemma insertChar_run (e : CRDTEngine.t) (char : string) (i : Z) (h : Host) :
  CRDTEngine.insertChar e char i h =
  let r := CRDTEngine.applyOperation e (insertOperation e char i h)
             (Some (insertedChar e char i h)) (spend 3 2 h) in
  ((insertOperation e char i h, fst r), snd r).
Proof.
  cbv zeta. unfold CRDTEngine.insertChar, insertOperation, insertedChar.
  cbv beta iota zeta delta
    [bind ret generateCharId generateOperationId now random36 drawnCharId
     afterDraw spend clock dice ticks rolls fst snd Nat.add].
  fold (insertPosition e i).
  match goal with
  | |- context [CRDTEngine.applyOperation ?a ?b ?c ?d] =>
      destruct (CRDTEngine.applyOperation a b c d)
  end.
  reflexivity.
Qed.

Lemma deleteChar_run (e : CRDTEngine.t) (i : Z) (h : Host)
    (c : CRDTChar.t) :
  0 <= i ->
  nth_error (CRDTEngine.getSortedVisibleChars e) (Z.to_nat i) = Some c ->
  CRDTEngine.deleteChar e i h =
  let r := CRDTEngine.applyOperation e (deleteOperation e c h) None
             (spend 2 1 h) in
  ((Some (deleteOperation e c h), fst r), snd r).
Proof.
  intros Hi Hnth. cbv zeta. unfold CRDTEngine.deleteChar, deleteOperation.
  assert (Hlen : (Z.to_nat i
                  < List.length (CRDTEngine.getSortedVisibleChars e))%nat)
    by (apply nth_error_Some; congruence).
  replace (i <? 0) with false by (symmetry; apply Z.ltb_ge; lia).
  replace (Z.of_nat _ <=? i) with false by (symmetry; apply Z.leb_gt; lia).
  unfold index.
  replace (i <? 0) with false by (symmetry; apply Z.ltb_ge; lia).
  rewrite Hnth.
  cbv beta iota zeta delta
    [orb bind ret generateOperationId now random36
     spend clock dice ticks rolls fst snd Nat.add].
  match goal with
  | |- context [CRDTEngine.applyOperation ?a ?b ?c ?d] =>
      destruct (CRDTEngine.applyOperation a b c d)
  end.
  reflexivity.
Qed.

Lemma deleteChar_out_of_range (e : CRDTEngine.t) (i : Z) (h : Host) :
  i < 0 \/ Z.of_nat (List.length (CRDTEngine.getSortedVisibleChars e)) <= i ->
  CRDTEngine.deleteChar e i h = (None, e, h).
Proof.
  intros Hout. unfold CRDTEngine.deleteChar.
  replace ((i <? 0) || (Z.of_nat _ <=? i)) with true; [reflexivity|].
  symmetry. apply orb_true_iff.
  destruct Hout; [left; now apply Z.ltb_lt|right; now apply Z.leb_le].
Qed.
End Steps.

(** ** Delivery order *)

Section Convergence.
Context `{Collation}.

Lemma delete_after_insert (g : string) :
  let c := CRDTChar.mk (Some g) (Some "a") "1.0.alice" "alice" false in
  contentOf (CRDTEngine.applyDelete Delivery.del [(Some g, c)]) = "".
Proof.
  cbv zeta. unfold CRDTEngine.applyDelete, contentOf.
  destruct (g =? "char_alice_1700000000000_b2n4m6v8c")%string eqn:E;
    run; reflexivity.
Qed.

Lemma insert_after_delete (g : string) :
  let c := CRDTChar.mk (Some g) (Some "a") "1.0.alice" "alice" false in
  contentOf (JSMap.set (Some g) c (CRDTEngine.applyDelete Delivery.del []))
  = "a".
Proof.
  cbv zeta. unfold CRDTEngine.applyDelete, contentOf.
  destruct ("char_alice_1700000000000_b2n4m6v8c" =? g)%string eqn:E;
    run; reflexivity.
Qed.

(** C1. Two fresh engines that receive the same two operations, an insert
    and the delete of the inserted character, in the two possible orders
    show different content: insert first gives the empty string, delete
    first gives "a", whatever the hosts' clocks and random sources. *)
Theorem C1_order_changes_content (hA hB : Host) :
  Permutation [Delivery.ins; Delivery.del] [Delivery.del; Delivery.ins]
  /\ CRDTEngine.getVisibleContent
       (Delivery.replica [Delivery.ins; Delivery.del] hA) = ""
  /\ CRDTEngine.getVisibleContent
       (Delivery.replica [Delivery.del; Delivery.ins] hB) = "a".
Proof.
  split; [apply perm_swap|].
  unfold Delivery.replica, CRDTEngine.mergeOperations. simpl fold_left.
  unfold bind, ret. split.
  - rewrite applyOperation_remote_insert by reflexivity.
    rewrite applyOperation_delete by reflexivity.
    rewrite getVisibleContent_chars. apply delete_after_insert.
  - rewrite applyOperation_delete by reflexivity.
    rewrite applyOperation_remote_insert by reflexivity.
    rewrite getVisibleContent_chars. apply insert_after_delete.
Qed.
End Convergence.

(** ** Character maps *)

Lemma same_spec (a b : option string) : same a b = true <-> a = b.
Proof.
  destruct a as [x|], b as [y|]; simpl; split; intros E;
    try discriminate; try reflexivity.
  - apply String.eqb_eq in E. now subst.
  - inversion E. apply String.eqb_refl.
Qed.

Lemma same_refl (a : option string) : same a a = true.
Proof. now apply same_spec. Qed.

Lemma same_false (a b : option string) : same a b = false <-> a <> b.
Proof.
  split.
  - intros E Heq. apply same_spec in Heq. congruence.
  - intros Hne. destruct (same a b) eqn:E; [|reflexivity].
    apply same_spec in E. contradiction.
Qed.

Section MapFacts.
Context {V : Type}.
Implicit Types (m : JSMap.t V) (k : option string) (v : V).

Lemma get_None_not_key k m : JSMap.get k m = None <-> ~ In k (JSMap.keys m).
Proof.
  induction m as [|[k' v'] m IH]; simpl.
  - tauto.
  - destruct (same k' k) eqn:E.
    + apply same_spec in E. split; [discriminate|]. intros Hn. tauto.
    + apply same_false in E. rewrite IH. tauto.
Qed.

Lemma get_Some_In k v m : JSMap.get k m = Some v -> In (k, v) m.
Proof.
  induction m as [|[k' v'] m IH]; simpl; [discriminate|].
  destruct (same k' k) eqn:E.
  - apply same_spec in E. intros [= ->]. subst. now left.
  - intros Hg. right. now apply IH.
Qed.

Lemma set_absent k v m :
  JSMap.get k m = None -> JSMap.set k v m = (m ++ [(k, v)])%list.
Proof.
  induction m as [|[k' v'] m IH]; simpl; [reflexivity|].
  destruct (same k' k); [discriminate|].
  intros Hg. now rewrite IH.
Qed.

Lemma mutate_absent k (f : V -> V) m :
  JSMap.get k m = None -> JSMap.mutate k f m = m.
Proof.
  induction m as [|[k' v'] m IH]; simpl; [reflexivity|].
  destruct (same k' k); [discriminate|].
  intros Hg. now rewrite IH.
Qed.

Lemma mutate_app_last k k' (f : V -> V) v m :
  JSMap.get k m = None ->
  JSMap.mutate k f (m ++ [(k', v)])%list =
  (m ++ JSMap.mutate k f [(k', v)])%list.
Proof.
  induction m as [|[k0 v0] m IH]; simpl; [reflexivity|].
  destruct (same k0 k); [discriminate|].
  intros Hg. now rewrite IH.
Qed.

Lemma set_app_last k v v' m :
  JSMap.get k m = None ->
  JSMap.set k v (m ++ [(k, v')])%list = (m ++ [(k, v)])%list.
Proof.
  induction m as [|[k0 v0] m IH]; simpl.
  - now rewrite same_refl.
  - destruct (same k0 k); [discriminate|].
    intros Hg. now rewrite IH.
Qed.

(** Storing again, under its key, the value a mutation just produced
    changes nothing. *)
Lemma set_mutate_same k v (f : V -> V) m :
  JSMap.get k m = Some v ->
  JSMap.set k (f v) (JSMap.mutate k f m) = JSMap.mutate k f m.
Proof.
  induction m as [|[k' v'] m IH]; simpl; [discriminate|].
  destruct (same k' k) eqn:E; simpl; rewrite E.
  - now intros [= ->].
  - intros Hg. now rewrite IH.
Qed.

Lemma size_set k v m : (JSMap.size m <= JSMap.size (JSMap.set k v m))%nat.
Proof.
  unfold JSMap.size.
  induction m as [|[k' v'] m IH]; simpl; [lia|].
  destruct (same k' k); simpl; lia.
Qed.

Lemma size_mutate k (f : V -> V) m :
  JSMap.size (JSMap.mutate k f m) = JSMap.size m.
Proof.
  unfold JSMap.size.
  induction m as [|[k' v'] m IH]; simpl; [reflexivity|].
  destruct (same k' k); simpl; congruence.
Qed.

Lemma keys_mutate k (f : V -> V) m :
  JSMap.keys (JSMap.mutate k f m) = JSMap.keys m.
Proof.
  induction m as [|[k' v'] m IH]; simpl; [reflexivity|].
  destruct (same k' k); simpl; congruence.
Qed.

Lemma get_mutate k k' (f : V -> V) m :
  JSMap.get k' (JSMap.mutate k f m) =
  if same k k' then option_map f (JSMap.get k' m) else JSMap.get k' m.
Proof.
  induction m as [|[k0 v0] m IH]; simpl.
  - now destruct (same k k').
  - destruct (same k0 k) eqn:E0; simpl.
    + apply same_spec in E0. subst k0.
      destruct (same k k'); reflexivity.
    + destruct (same k0 k') eqn:E1.
      * apply same_spec in E1. subst k0.
        apply same_false in E0.
        assert (E : same k k' = false) by (apply same_false; congruence).
        now rewrite E.
      * exact IH.
Qed.

Lemma get_app_last k k' v m :
  JSMap.get k' (m ++ [(k, v)])%list =
  match JSMap.get k' m with
  | Some x => Some x
  | None => if same k k' then Some v else None
  end.
Proof.
  induction m as [|[k0 v0] m IH]; simpl; [reflexivity|].
  destruct (same k0 k'); [reflexivity|exact IH].
Qed.
End MapFacts.

Lemma keyed_nil : keyed [].
Proof. split; constructor. Qed.

Lemma keyed_get (m : JSMap.t CRDTChar.t) (k : option string) (c : CRDTChar.t) :
  keyed m -> JSMap.get k m = Some c -> CRDTChar.id c = k.
Proof.
  intros [Hid _] Hg. apply get_Some_In in Hg.
  rewrite Forall_forall in Hid. exact (Hid _ Hg).
Qed.

Lemma keyed_app_last (m : JSMap.t CRDTChar.t) (c : CRDTChar.t) :
  keyed m -> JSMap.get (CRDTChar.id c) m = None ->
  keyed (m ++ [(CRDTChar.id c, c)])%list.
Proof.
  intros [Hid Hnd] Hg. split.
  - apply Forall_app. split; [assumption|]. now constructor.
  - unfold JSMap.keys. rewrite map_app. simpl.
    apply NoDup_Add with (a := CRDTChar.id c) (l := map fst m).
    + rewrite <- (app_nil_r (map fst m)) at 1. apply Add_app.
    + split; [assumption|]. now apply get_None_not_key.
Qed.

Lemma keyed_mutate (m : JSMap.t CRDTChar.t) (k : option string) :
  keyed m -> keyed (JSMap.mutate k CRDTChar.tombstone m).
Proof.
  intros [Hid Hnd]. split; [|now rewrite keys_mutate].
  clear Hnd. induction m as [|[k' c] m IH]; simpl; [constructor|].
  inversion Hid; subst.
  destruct (same k' k); constructor; auto.
Qed.

(** The fallback lookup mutates the entry stored under the found
    character's id. *)
Lemma mutate_found_keyed (p : CRDTChar.t -> bool) (m : JSMap.t CRDTChar.t)
    (found : CRDTChar.t) :
  keyed m -> find p (JSMap.values m) = Some found ->
  JSMap.get (CRDTChar.id found) m = Some found
  /\ JSMap.mutate_found p CRDTChar.tombstone m =
     JSMap.mutate (CRDTChar.id found) CRDTChar.tombstone m.
Proof.
  intros [Hid Hnd]. induction m as [|[k c] m IH]; simpl; [discriminate|].
  apply Forall_cons_iff in Hid. destruct Hid as [Hk Hid']. simpl in Hk.
  apply NoDup_cons_iff in Hnd. destruct Hnd as [Hnot Hnd'].
  destruct (p c) eqn:Hp.
  - intros [= <-]. rewrite Hk, same_refl. now split.
  - intros Hf. destruct (IH Hid' Hnd' Hf) as [Hget Hmut].
    assert (E : same k (CRDTChar.id found) = false).
    { apply same_false. intros ->. apply Hnot.
      apply get_Some_In in Hget. apply (in_map fst) in Hget. exact Hget. }
    rewrite E. split; [assumption|]. now rewrite Hmut.
Qed.

(** What [applyDelete] does to a well-formed map: it tombstones the entry
    of one key, or it appends a tombstone under the operation's [charId]. *)
Lemma applyDelete_shape (op : CRDTOperation.t) (m : JSMap.t CRDTChar.t) :
  keyed m ->
  (exists k c, JSMap.get k m = Some c
               /\ CRDTEngine.applyDelete op m =
                  JSMap.mutate k CRDTChar.tombstone m)
  \/ (JSMap.get (CRDTOperation.charId op) m = None
      /\ find (CRDTEngine.matches (CRDTOperation.position op)
                 (CRDTOperation.char op)) (JSMap.values m) = None
      /\ CRDTEngine.applyDelete op m =
         (m ++ [(CRDTOperation.charId op,
                 CRDTChar.mk (CRDTOperation.charId op) (CRDTOperation.char op)
                   (CRDTOperation.position op) (CRDTOperation.clientId op)
                   true)])%list).
Proof.
  intros Hk. unfold CRDTEngine.applyDelete.
  destruct (JSMap.get (CRDTOperation.charId op) m) as [ch|] eqn:Hget.
  - left. exists (CRDTOperation.charId op), ch. split; [assumption|].
    rewrite (keyed_get _ _ _ Hk Hget).
    now apply set_mutate_same.
  - destruct (find _ (JSMap.values m)) as [found|] eqn:Hfind.
    + left. destruct (mutate_found_keyed _ _ _ Hk Hfind) as [Hg Hm].
      exists (CRDTChar.id found), found. split; [assumption|].
      rewrite Hm. now apply set_mutate_same.
    + right. split; [reflexivity|]. split; [reflexivity|]. simpl.
      rewrite (set_absent _ _ _ Hget).
      rewrite (mutate_app_last _ _ _ _ _ Hget). simpl. rewrite same_refl.
      unfold CRDTChar.tombstone at 1. simpl.
      now rewrite (set_app_last _ _ _ _ Hget).
Qed.

(** ** Tombstones *)

Lemma deletedCount_mutate (k : option string) (m : JSMap.t CRDTChar.t) :
  (deletedCount m <= deletedCount (JSMap.mutate k CRDTChar.tombstone m))%nat.
Proof.
  unfold deletedCount.
  induction m as [|[k' c] m IH]; simpl; [lia|].
  destruct (same k' k); simpl.
  - destruct (CRDTChar.deleted c); simpl; lia.
  - destruct (CRDTChar.deleted c); simpl; lia.
Qed.

Lemma deletedCount_app (m1 m2 : JSMap.t CRDTChar.t) :
  deletedCount (m1 ++ m2)%list = (deletedCount m1 + deletedCount m2)%nat.
Proof.
  unfold deletedCount, JSMap.values.
  now rewrite map_app, filter_app, length_app.
Qed.

Lemma grows_monotone (m m' : JSMap.t CRDTChar.t) :
  keyed m -> grows m m' ->
  (JSMap.size m <= JSMap.size m')%nat
  /\ (forall k c, JSMap.get k m = Some c ->
        JSMap.get k m' = Some c
        \/ JSMap.get k m' = Some (CRDTChar.tombstone c))
  /\ (deletedCount m <= deletedCount m')%nat
  /\ keyed m'.
Proof.
  intros Hk Hg. destruct Hg as [|c Hfree|k0].
  - repeat split; auto; try lia. apply Hk. apply Hk.
  - split; [|split; [|split]].
    + unfold JSMap.size. rewrite length_app. simpl. lia.
    + intros k c0 Hget. left. rewrite get_app_last. now rewrite Hget.
    + rewrite deletedCount_app. lia.
    + now apply keyed_app_last.
  - split; [|split; [|split]].
    + rewrite size_mutate. lia.
    + intros k c Hget. rewrite get_mutate, Hget.
      destruct (same k0 k); simpl; auto.
    + apply deletedCount_mutate.
    + now apply keyed_mutate.
Qed.

Section Tombstones.
Context `{Collation}.

Lemma applyOperation_grows (e : CRDTEngine.t) (op : CRDTOperation.t)
    (crdtChar : option CRDTChar.t) (h : Host) :
  keyed (CRDTEngine.characters e) ->
  freshChar (CallApplyOperation op crdtChar) e h ->
  grows (CRDTEngine.characters e)
    (CRDTEngine.characters (fst (CRDTEngine.applyOperation e op crdtChar h))).
Proof.
  intros Hk Hfresh. unfold freshChar, storedId in Hfresh.
  destruct (CRDTEngine.applied (CRDTOperation.id op)
              (CRDTEngine.operations e)) eqn:Hseen.
  - rewrite applyOperation_seen by assumption. constructor.
  - destruct (CRDTOperation.type op) eqn:Hty.
    + destruct crdtChar as [c|].
      * rewrite applyOperation_local_insert by assumption. simpl.
        rewrite set_absent by assumption. now constructor.
      * rewrite applyOperation_remote_insert by assumption. simpl.
        rewrite set_absent by assumption.
        apply (grows_append _ (remoteChar op h)). exact Hfresh.
    + rewrite applyOperation_delete by assumption. simpl.
      destruct (applyDelete_shape op _ Hk)
        as [(k & c & _ & ->) | (Hfree & _ & ->)].
      * constructor.
      * apply (grows_append _
                 (CRDTChar.mk (CRDTOperation.charId op)
                    (CRDTOperation.char op) (CRDTOperation.position op)
                    (CRDTOperation.clientId op) true)).
        exact Hfree.
Qed.

Lemma perform_grows (call : EngineCall) (e : CRDTEngine.t) (h : Host) :
  keyed (CRDTEngine.characters e) ->
  freshChar call e h ->
  grows (CRDTEngine.characters e)
    (CRDTEngine.characters (fst (perform call e h))).
Proof.
  intros Hk Hfresh. destruct call as [char i|i|op crdtChar].
  - unfold perform, bind. rewrite insertChar_run. cbv zeta.
    apply applyOperation_grows; assumption.
  - unfold perform, bind.
    destruct (Z.ltb_spec i 0) as [Hneg|Hpos].
    { rewrite deleteChar_out_of_range by (now left). constructor. }
    destruct (nth_error (CRDTEngine.getSortedVisibleChars e) (Z.to_nat i))
      as [c|] eqn:Hnth.
    + rewrite (deleteChar_run e i h c Hpos Hnth). cbv zeta.
      apply applyOperation_grows; [assumption|exact I].
    + rewrite deleteChar_out_of_range; [constructor|].
      right. apply nth_error_None in Hnth. lia.
  - now apply applyOperation_grows.
Qed.

Lemma size_mutate_found (p : CRDTChar.t -> bool) (m : JSMap.t CRDTChar.t) :
  JSMap.size (JSMap.mutate_found p CRDTChar.tombstone m) = JSMap.size m.
Proof.
  unfold JSMap.size.
  induction m as [|[k c] m IH]; simpl; [reflexivity|].
  destruct (p c); simpl; congruence.
Qed.

(** Whatever the map and the ids, no call makes the map smaller. *)
Lemma applyOperation_size (e : CRDTEngine.t) (op : CRDTOperation.t)
    (crdtChar : option CRDTChar.t) (h : Host) :
  (JSMap.size (CRDTEngine.characters e)
   <= JSMap.size (CRDTEngine.characters
                    (fst (CRDTEngine.applyOperation e op crdtChar h))))%nat.
Proof.
  destruct (CRDTEngine.applied (CRDTOperation.id op)
              (CRDTEngine.operations e)) eqn:Hseen.
  - rewrite applyOperation_seen by assumption. simpl. lia.
  - destruct (CRDTOperation.type op) eqn:Hty.
    + destruct crdtChar as [c|].
      * rewrite applyOperation_local_insert by assumption. apply size_set.
      * rewrite applyOperation_remote_insert by assumption. apply size_set.
    + rewrite applyOperation_delete by assumption. simpl.
      unfold CRDTEngine.applyDelete.
      destruct (JSMap.get _ _).
      * etransitivity; [|apply size_set]. rewrite size_mutate. lia.
      * destruct (find _ _).
        -- etransitivity; [|apply size_set]. rewrite size_mutate_found. lia.
        -- etransitivity; [|apply size_set]. rewrite size_mutate.
           apply size_set.
Qed.

(** C9. Whatever the engine is asked to do ([insertChar], [deleteChar],
    [applyOperation]), on a character map filled by the engine itself
    and with the id of a new character not yet in use: the map does not
    shrink, every character it held is still stored under its id, either
    unchanged or with only [deleted] set to true, and the
    [deletedCharacters] count of [getStats] does not decrease.  The map
    stays well-formed, so this holds along any sequence of calls. *)
Theorem C9_characters_only_grow (call : EngineCall) (e : CRDTEngine.t)
    (h : Host) :
  keyed (CRDTEngine.characters e) ->
  freshChar call e h ->
  let e' := fst (perform call e h) in
  (CRDTEngine.totalCharacters (CRDTEngine.getStats e)
     <= CRDTEngine.totalCharacters (CRDTEngine.getStats e'))%nat
  /\ (forall k c, JSMap.get k (CRDTEngine.characters e) = Some c ->
        JSMap.get k (CRDTEngine.characters e') = Some c
        \/ JSMap.get k (CRDTEngine.characters e') =
           Some (CRDTChar.tombstone c))
  /\ (CRDTEngine.deletedCharacters (CRDTEngine.getStats e)
        <= CRDTEngine.deletedCharacters (CRDTEngine.getStats e'))%nat
  /\ keyed (CRDTEngine.characters e').
Proof.
  intros Hk Hfresh e'.
  exact (grows_monotone _ _ Hk (perform_grows call e h Hk Hfresh)).
Qed.
End Tombstones.

(** ** Index checks *)

Lemma index_outside {A : Type} (l : list A) (i : Z) :
  i < 0 \/ Z.of_nat (List.length l) <= i -> index l i = None.
Proof.
  intros Hout. unfold index. destruct (Z.ltb_spec i 0); [reflexivity|].
  apply nth_error_None. lia.
Qed.

Lemma get_set_same {V : Type} (k : option string) (v : V) (m : JSMap.t V) :
  JSMap.get k (JSMap.set k v m) = Some v.
Proof.
  induction m as [|[k' v'] m IH]; simpl.
  - now rewrite same_refl.
  - destruct (same k' k) eqn:E; simpl; rewrite E; [reflexivity|exact IH].
Qed.

Section IndexChecks.
Context `{Collation}.

(** C7. [insertChar] has no range check.  For an index below zero or
    beyond the end of the visible text it still builds an insert
    operation, places it at the root key "1.0.<clientId>", returns it,
    and (its id being new) appends it to the log and stores the new
    character. *)
Theorem C7_insertChar_out_of_range (e : CRDTEngine.t) (char : string)
    (i : Z) (h : Host) :
  i < 0
  \/ Z.of_nat (List.length (CRDTEngine.getSortedVisibleChars e)) < i ->
  let r := CRDTEngine.insertChar e char i h in
  let op := fst (fst r) in
  let e' := snd (fst r) in
  CRDTOperation.type op = insert
  /\ CRDTOperation.char op = Some char
  /\ CRDTOperation.position op = "1.0." ++ CRDTEngine.clientId e
  /\ (CRDTEngine.applied (CRDTOperation.id op) (CRDTEngine.operations e)
        = false ->
      CRDTEngine.operations e' = (CRDTEngine.operations e ++ [op])%list
      /\ JSMap.get (Some (drawnCharId (CRDTEngine.clientId e) h))
           (CRDTEngine.characters e') =
         Some (CRDTChar.mk (Some (drawnCharId (CRDTEngine.clientId e) h))
                 (Some char) ("1.0." ++ CRDTEngine.clientId e)
                 (CRDTEngine.clientId e) false)).
Proof.
  intros Hout. rewrite insertChar_run. cbv zeta. simpl fst. simpl snd.
  assert (Hpos : insertPosition e i = "1.0." ++ CRDTEngine.clientId e).
  { unfold insertPosition, CRDTEngine.neighbour.
    rewrite !index_outside by lia. reflexivity. }
  split; [reflexivity|]. split; [reflexivity|]. split; [exact Hpos|].
  intros Hnew.
  rewrite applyOperation_local_insert by (assumption || reflexivity).
  simpl. split; [reflexivity|].
  unfold insertedChar. rewrite Hpos. apply get_set_same.
Qed.
End IndexChecks.

(** ** Character ids on the remote path *)

Lemma append_cancel_l (a s1 s2 : string) : a ++ s1 = a ++ s2 -> s1 = s2.
Proof.
  induction a as [|c a IH]; simpl; [auto|].
  intros [= E]. auto.
Qed.

Lemma drawnCharId_draw (clientId : string) (h : Host) :
  drawnCharId clientId h = "char_" ++ clientId ++ "_" ++ draw h.
Proof. reflexivity. Qed.

Lemma values_app {V : Type} (m1 m2 : JSMap.t V) :
  JSMap.values (m1 ++ m2)%list = (JSMap.values m1 ++ JSMap.values m2)%list.
Proof. apply map_app. Qed.

Lemma matches_spec (position : string) (char : option string) (c : CRDTChar.t) :
  CRDTEngine.matches position char c = true
  <-> CRDTChar.position c = position /\ CRDTChar.char c = char.
Proof.
  unfold CRDTEngine.matches. rewrite andb_true_iff, String.eqb_eq, same_spec.
  reflexivity.
Qed.

Lemma find_nowhere {A : Type} (p : A -> bool) (l : list A) :
  (forall a, In a l -> p a = false) -> find p l = None.
Proof.
  induction l as [|a l IH]; simpl; [reflexivity|]. intros Hp.
  rewrite (Hp a) by now left. apply IH. intros b Hb. apply Hp. now right.
Qed.

Lemma find_none_app {A : Type} (p : A -> bool) (l1 l2 : list A) :
  find p l1 = None -> find p (l1 ++ l2) = find p l2.
Proof.
  induction l1 as [|a l1 IH]; simpl; [reflexivity|].
  destruct (p a); [discriminate | exact IH].
Qed.

Section RemoteIds.
Context `{Collation}.

(** C10. An insert applied without a character object stores its
    character under "char_<operation.clientId>_<clock>_<random>", the
    last two read from the applying host: two engines that apply the same
    insert store the same id exactly when their clock and random draws
    coincide, and different ids otherwise.  A later delete finds the
    character by id only if it carries that very id.  If the id it
    carries is no key of the map, the character is found through position
    and value alone: it becomes a tombstone when both equal the insert's
    and no earlier entry has them, and it stays live when either
    differs. *)
Theorem C10_remote_char_id (e1 e2 : CRDTEngine.t) (op del : CRDTOperation.t)
    (x : string) (h1 h2 h' : Host) :
  CRDTOperation.type op = insert ->
  CRDTEngine.applied (CRDTOperation.id op) (CRDTEngine.operations e1) = false ->
  CRDTEngine.applied (CRDTOperation.id op) (CRDTEngine.operations e2) = false ->
  keyed (CRDTEngine.characters e1) ->
  JSMap.get (Some (drawnCharId (CRDTOperation.clientId op) h1))
    (CRDTEngine.characters e1) = None ->
  CRDTOperation.type del = delete ->
  CRDTOperation.id del <> CRDTOperation.id op ->
  CRDTEngine.applied (CRDTOperation.id del) (CRDTEngine.operations e1) = false ->
  CRDTOperation.charId del = Some x ->
  let a1 := fst (CRDTEngine.applyOperation e1 op None h1) in
  let a2 := fst (CRDTEngine.applyOperation e2 op None h2) in
  let stored := remoteChar op h1 in
  let a3 := fst (CRDTEngine.applyOperation a1 del None h') in
  JSMap.get (CRDTChar.id stored) (CRDTEngine.characters a1) = Some stored
  /\ JSMap.get (CRDTChar.id (remoteChar op h2)) (CRDTEngine.characters a2)
     = Some (remoteChar op h2)
  /\ CRDTChar.id stored =
     Some ("char_" ++ CRDTOperation.clientId op ++ "_" ++ draw h1)
  /\ (CRDTChar.id stored = CRDTChar.id (remoteChar op h2)
      <-> draw h1 = draw h2)
  /\ (Some x = CRDTChar.id stored ->
      JSMap.get (CRDTChar.id stored) (CRDTEngine.characters a3)
      = Some (CRDTChar.tombstone stored))
  /\ (JSMap.get (Some x) (CRDTEngine.characters a1) = None ->
      (CRDTOperation.position del = CRDTOperation.position op ->
       CRDTOperation.char del = CRDTOperation.char op ->
       (forall c, In c (JSMap.values (CRDTEngine.characters e1)) ->
          CRDTChar.position c <> CRDTOperation.position del
          \/ CRDTChar.char c <> CRDTOperation.char del) ->
       JSMap.get (CRDTChar.id stored) (CRDTEngine.characters a3)
       = Some (CRDTChar.tombstone stored))
      /\ (CRDTOperation.position del <> CRDTOperation.position op
          \/ CRDTOperation.char del <> CRDTOperation.char op ->
          JSMap.get (CRDTChar.id stored) (CRDTEngine.characters a3)
          = Some stored)).
Proof.
  intros Hins Hnew1 Hnew2 Hkeyed Hfresh Hdel Hid Hnewd Hx. cbv zeta.
  rewrite !applyOperation_remote_insert by assumption.
  cbn [fst]. unfold stepped at 1 2 3. cbn [CRDTEngine.characters].
  set (stored := remoteChar op h1).
  change (CRDTChar.id stored)
    with (Some (drawnCharId (CRDTOperation.clientId op) h1)) in *.
  set (k := Some (drawnCharId (CRDTOperation.clientId op) h1)) in *.
  rewrite (set_absent k stored _ Hfresh).
  set (chars := (CRDTEngine.characters e1 ++ [(k, stored)])%list).
  assert (Hstored : JSMap.get k chars = Some stored).
  { unfold chars. now rewrite get_app_last, Hfresh, same_refl. }
  assert (Hk1 : keyed chars).
  { unfold chars. now apply (keyed_app_last _ stored). }
  assert (Hnewd1 : CRDTEngine.applied (CRDTOperation.id del)
                     (CRDTEngine.operations
                        (stepped e1 op chars)) = false).
  { cbn [stepped CRDTEngine.operations]. rewrite applied_app, Hnewd.
    simpl. rewrite orb_false_r. apply String.eqb_neq. congruence. }
  rewrite (applyOperation_delete _ del None h' Hnewd1 Hdel).
  cbn [fst stepped CRDTEngine.characters].
  split; [exact Hstored|]. split; [apply get_set_same|].
  split; [reflexivity|]. split; [|split].
  - unfold k. cbn [remoteChar CRDTChar.id]. rewrite !drawnCharId_draw. split.
    + intros E.
      assert (E' : "char_" ++ CRDTOperation.clientId op ++ "_" ++ draw h1
                   = "char_" ++ CRDTOperation.clientId op ++ "_" ++ draw h2)
        by exact (f_equal (fun o => match o with Some s => s | None => "" end) E).
      apply append_cancel_l in E'. apply append_cancel_l in E'.
      now apply append_cancel_l in E'.
    + now intros ->.
  - intros Ex. unfold CRDTEngine.applyDelete. rewrite Hx, Ex, Hstored.
    apply get_set_same.
  - intros Hmiss.
    split; [intros Hpos Hchar Hnone | intros Hdiff];
      rewrite (applyOperation_delete _ del None h' Hnewd1 Hdel);
      cbn [fst stepped CRDTEngine.characters];
      unfold CRDTEngine.applyDelete; rewrite Hx, Hmiss;
      set (p := CRDTEngine.matches (CRDTOperation.position del)
                  (CRDTOperation.char del)).
    +
      assert (Hfind : find p (JSMap.values (CRDTEngine.characters e1)) = None).
      { apply find_nowhere. intros c Hc. apply not_true_is_false. intros Hm.
        apply matches_spec in Hm. destruct (Hnone c Hc); tauto. }
      assert (Hp : p stored = true).
      { apply matches_spec. cbn. now split. }
      unfold chars. rewrite values_app, (find_none_app _ _ _ Hfind).
      cbn [JSMap.values map find snd]. rewrite Hp.
      apply get_set_same.
    + destruct (find p (JSMap.values chars)) as [found|] eqn:Hfind.
      * destruct (mutate_found_keyed p chars found Hk1 Hfind) as [Hg Hm].
        rewrite Hm, (set_mutate_same _ _ _ _ Hg), get_mutate, Hstored.
        destruct (same (CRDTChar.id found) k) eqn:Esame; [|reflexivity].
        apply same_spec in Esame. rewrite Esame, Hstored in Hg.
        injection Hg as <-.
        apply find_some in Hfind. destruct Hfind as [_ Hm'].
        apply matches_spec in Hm'. cbn in Hm'. destruct Hm' as [E1 E2].
        destruct Hdiff as [Hd | Hd]; exfalso; apply Hd; congruence.
      * cbn [CRDTChar.id].
        assert (Hne : same (Some x) k = false).
        { apply same_false. intros E. rewrite E, Hstored in Hmiss.
          discriminate. }
        set (synth := CRDTChar.mk (Some x) (CRDTOperation.char del)
                        (CRDTOperation.position del)
                        (CRDTOperation.clientId del) false).
        rewrite (set_absent (Some x) synth chars Hmiss).
        rewrite (mutate_app_last _ _ _ _ _ Hmiss).
        cbn [JSMap.mutate]. rewrite same_refl.
        rewrite (set_app_last _ _ _ _ Hmiss).
        rewrite get_app_last, Hstored. reflexivity.
Qed.
End RemoteIds.

(** ** Undo *)






Lemma pop_last {A : Type} (rest : list A) (x : A) :
  UndoRedoManager.pop (rest ++ [x])%list = Some (x, rest).
Proof.
  unfold UndoRedoManager.pop. rewrite rev_app_distr. simpl.
  now rewrite rev_involutive.
Qed.


Lemma state_with_state (m : UndoRedoManager.t) (field : FieldType.t)
    (s : UndoRedoState) :
  UndoRedoManager.state (UndoRedoManager.with_state m field s) field = s.
Proof. destruct field; reflexivity. Qed.



(** ** Position keys *)

Lemma append_assoc (a b c : string) : (a ++ b) ++ c = a ++ (b ++ c).
Proof. induction a as [|x a IH]; simpl; [reflexivity|now rewrite IH]. Qed.

Lemma split_dot_head (a r : string) :
  dotless a = true ->
  split_dot (a ++ String dot r) = a :: split_dot r.
Proof.
  induction a as [|c a IH]; simpl; intros Hd.
  - reflexivity.
  - apply andb_true_iff in Hd. destruct Hd as [Hc Ha].
    apply negb_true_iff in Hc. rewrite Hc, (IH Ha). reflexivity.
Qed.

Lemma split_dot_nonempty (s : string) : split_dot s <> [].
Proof.
  destruct s as [|c s]; simpl; [discriminate|].
  destruct (Ascii.eqb c dot); [discriminate|].
  destruct (split_dot s); discriminate.
Qed.

Lemma dotless_uint (d : Decimal.uint) :
  dotless (NilEmpty.string_of_uint d) = true.
Proof. induction d; simpl; auto. Qed.

Lemma dotless_frontText (h : Z) : dotless (frontText h) = true.
Proof.
  unfold frontText, digits. destruct (h <? 0); simpl; apply dotless_uint.
Qed.

Lemma scan_string_of_uint (d : Decimal.uint) :
  scan_digits (NilEmpty.string_of_uint d) = d.
Proof. induction d; simpl; try rewrite IHd; reflexivity. Qed.

Lemma to_uint_not_Nil (n : N) : N.to_uint n <> Decimal.Nil.
Proof.
  intros E. pose proof (DecimalN.Unsigned.of_to n) as Hrt.
  rewrite E in Hrt. simpl in Hrt. subst n. discriminate.
Qed.

Lemma unsigned_prefix_digits (n : N) :
  unsigned_prefix (digits n) = of_Z (Z.of_N n).
Proof.
  unfold unsigned_prefix, digits. rewrite scan_string_of_uint.
  pose proof (to_uint_not_Nil n) as Hne.
  pose proof (DecimalN.Unsigned.of_to n) as Hrt.
  destruct (N.to_uint n); try contradiction; now rewrite Hrt.
Qed.

Lemma trimStart_digits (n : N) : trimStart (digits n) = digits n.
Proof.
  unfold digits. pose proof (to_uint_not_Nil n) as Hne.
  destruct (N.to_uint n); try contradiction; reflexivity.
Qed.

Lemma parseFloat_digits (n : N) : parseFloat (digits n) = of_Z (Z.of_N n).
Proof.
  unfold parseFloat. rewrite trimStart_digits.
  rewrite <- unsigned_prefix_digits.
  unfold digits. pose proof (to_uint_not_Nil n) as Hne.
  destruct (N.to_uint n); try contradiction; reflexivity.
Qed.

Lemma parseFloat_frontText (h : Z) :
  parseFloat (frontText h) = of_Z (frontValue h).
Proof.
  unfold frontText, frontValue.
  assert (Hn : Z.of_N (Z.to_N (Z.abs h / 2)) = Z.abs h / 2).
  { apply Z2N.id. apply Z.div_pos; lia. }
  destruct (h <? 0).
  - change ("-" ++ digits (Z.to_N (Z.abs h / 2)))
      with (String "-" (digits (Z.to_N (Z.abs h / 2)))).
    unfold parseFloat. simpl trimStart. cbv iota.
    rewrite unsigned_prefix_digits, Hn. unfold of_Z, negate.
    f_equal. lia.
  - change ("" ++ digits (Z.to_N (Z.abs h / 2)))
      with (digits (Z.to_N (Z.abs h / 2))).
    now rewrite parseFloat_digits, Hn.
Qed.

Lemma toString_front (h : Z) :
  toString (Fin h) = frontText h ++ (if Z.odd h then ".5" else "").
Proof.
  unfold toString, frontText. now rewrite append_assoc.
Qed.

(** A key that starts with the text of a number and a dot, seen through
    [split('.')]. *)
Lemma split_dot_key (h : Z) (rest : string) :
  exists parts : list string,
    split_dot (toString (Fin h) ++ "." ++ rest) = frontText h :: parts
    /\ parts <> [].
Proof.
  rewrite toString_front. destruct (Z.odd h).
  - exists (split_dot ("5." ++ rest)).
    rewrite append_assoc.
    change (".5" ++ "." ++ rest) with (String dot ("5." ++ rest)).
    rewrite split_dot_head by apply dotless_frontText.
    split; [reflexivity|apply split_dot_nonempty].
  - exists (split_dot rest).
    rewrite append_assoc.
    change ("" ++ "." ++ rest) with (String dot rest).
    rewrite split_dot_head by apply dotless_frontText.
    split; [reflexivity|apply split_dot_nonempty].
Qed.

Lemma numericPart_key (h : Z) (rest : string) :
  numericPart (toString (Fin h) ++ "." ++ rest) = of_Z (frontValue h).
Proof.
  unfold numericPart.
  destruct (split_dot_key h rest) as (parts & -> & _).
  simpl. apply parseFloat_frontText.
Qed.

Lemma frontValue_even (n : Z) : frontValue (2 * n) = n.
Proof.
  unfold frontValue.
  assert (E : Z.abs (2 * n) / 2 = Z.abs n).
  { rewrite Z.abs_mul. change (Z.abs 2) with 2.
    rewrite Z.mul_comm. apply Z.div_mul. lia. }
  rewrite E. destruct (Z.ltb_spec (2 * n) 0); lia.
Qed.

Lemma numericPart_numericKey (n : Z) (p : string) :
  numericKey n p -> numericPart p = of_Z n.
Proof.
  intros [rest ->]. unfold of_Z at 1.
  now rewrite numericPart_key, frontValue_even.
Qed.

Lemma truthy_key (a rest : string) : truthy (a ++ "." ++ rest) = true.
Proof. destruct a; reflexivity. Qed.

Lemma numericKey_parts (n : Z) (p : string) :
  numericKey n p -> (List.length (split_dot p) =? 1)%nat = false.
Proof.
  intros [rest ->]. destruct (split_dot_key (2 * n) rest) as (parts & E & Hne).
  unfold of_Z. rewrite E. destruct parts; [contradiction|reflexivity].
Qed.

Section PositionFacts.
Context `{Collation}.

(** Keys whose numeric parts differ compare as those numbers do. *)
Lemma comparePositions_heads (a b : string) (x y : Z) :
  (List.length (split_dot a) =? 1)%nat = false
  \/ (List.length (split_dot b) =? 1)%nat = false ->
  numericPart a = Fin x -> numericPart b = Fin y -> x <> y ->
  comparePositions a b = Fin (x - y).
Proof.
  intros Hlen Ha Hb Hne. unfold comparePositions.
  replace ((List.length (split_dot a) =? 1)%nat
           && (List.length (split_dot b) =? 1)%nat) with false
    by (destruct Hlen as [-> | ->]; [reflexivity|now rewrite andb_false_r]).
  fold (numericPart a). fold (numericPart b). rewrite Ha, Hb. simpl.
  replace (x =? y) with false by (symmetry; apply Z.eqb_neq; exact Hne).
  reflexivity.
Qed.

Lemma generateAfter_key (n : Z) (p c : string) :
  numericKey n p ->
  generateAfter p c = toString (of_Z (n + 1)) ++ ".0." ++ c.
Proof.
  intros Hp. unfold generateAfter. fold (numericPart p).
  rewrite (numericPart_numericKey n p Hp). unfold of_Z, add.
  now replace (2 * n + 2 * 1) with (2 * (n + 1)) by lia.
Qed.

Lemma generateBefore_key (n : Z) (p c : string) :
  numericKey n p ->
  generateBefore p c = toString (of_Z (n - 1)) ++ ".0." ++ c.
Proof.
  intros Hp. unfold generateBefore. fold (numericPart p).
  rewrite (numericPart_numericKey n p Hp). unfold of_Z, sub.
  now replace (2 * n - 2 * 1) with (2 * (n - 1)) by lia.
Qed.

(** C5, as the code has it.  For a key that starts with an integer [n]
    of magnitude below 2^53: with only [next] absent the result is
    "<n+1>.0.<clientId>" and sorts strictly after [prev]; with only
    [prev] absent the result is "<n-1>.0.<clientId>" and sorts strictly
    before [next]. *)
Theorem C5_generate_at_the_ends (n : Z) (p clientId : string) :
  numericKey n p ->
  Z.abs n < 2 ^ 53 ->
  let atEnd := generatePosition (Some p) None clientId in
  let atStart := generatePosition None (Some p) clientId in
  atEnd = toString (of_Z (n + 1)) ++ ".0." ++ clientId
  /\ orders_before p atEnd
  /\ positive (comparePositions atEnd p) = true
  /\ atStart = toString (of_Z (n - 1)) ++ ".0." ++ clientId
  /\ orders_before atStart p
  /\ positive (comparePositions p atStart) = true.
Proof.
  intros Hp _. cbv zeta.
  assert (Htruthy : present (Some p) = Some p).
  { destruct Hp as [rest ->]. unfold present. now rewrite truthy_key. }
  unfold generatePosition. rewrite Htruthy. simpl present.
  rewrite (generateAfter_key n p clientId Hp).
  rewrite (generateBefore_key n p clientId Hp).
  assert (Hup : numericKey (n + 1)
                  (toString (of_Z (n + 1)) ++ ".0." ++ clientId))
    by (exists ("0." ++ clientId); reflexivity).
  assert (Hdown : numericKey (n - 1)
                    (toString (of_Z (n - 1)) ++ ".0." ++ clientId))
    by (exists ("0." ++ clientId); reflexivity).
  pose proof (numericPart_numericKey _ _ Hp) as Ep.
  pose proof (numericPart_numericKey _ _ Hup) as Eup.
  pose proof (numericPart_numericKey _ _ Hdown) as Edown.
  pose proof (numericKey_parts _ _ Hp) as Lp.
  unfold of_Z in *. unfold orders_before.
  rewrite (comparePositions_heads _ _ _ _ (or_introl Lp) Ep Eup) by lia.
  rewrite (comparePositions_heads _ _ _ _ (or_intror Lp) Eup Ep) by lia.
  rewrite (comparePositions_heads _ _ _ _ (or_intror Lp) Edown Ep) by lia.
  rewrite (comparePositions_heads _ _ _ _ (or_introl Lp) Ep Edown) by lia.
  unfold negative, positive.
  repeat split; try reflexivity; apply Z.ltb_lt; lia.
Qed.
End PositionFacts.

Lemma half_bounds (a : Z) : 0 <= a -> 2 * (a / 2) <= a < 2 * (a / 2) + 2.
Proof.
  intros Ha. pose proof (Z.div_mod a 2) as Hdm.
  pose proof (Z.mod_pos_bound a 2). lia.
Qed.

(** The integer read back from a midpoint lies strictly between two
    integers that are at least two apart. *)
Lemma frontValue_between (p n : Z) :
  p + 2 <= n -> p < frontValue (p + n) < n.
Proof.
  intros Hgap. unfold frontValue.
  pose proof (half_bounds (Z.abs (p + n)) (Z.abs_nonneg _)) as Hb.
  destruct (Z.ltb_spec (p + n) 0); lia.
Qed.

Lemma append_nil_r (s : string) : s ++ "" = s.
Proof. induction s as [|c s IH]; simpl; [reflexivity | now rewrite IH]. Qed.

Lemma key_numeric (i : Z) (user : string) : numericKey i (key i user).
Proof. exists ("0." ++ user). reflexivity. Qed.

Lemma split_dot_dotless (d : string) : dotless d = true -> split_dot d = [d].
Proof.
  induction d as [|c d IH]; simpl; [reflexivity|].
  intros Hd. apply andb_true_iff in Hd. destruct Hd as [Hc Hd].
  apply negb_true_iff in Hc. now rewrite Hc, (IH Hd).
Qed.

(** The text of [n + 1/2] is the text of [n] followed by ".5". *)
Lemma toString_half (n : Z) :
  0 <= n -> toString (Fin (2 * n + 1)) = toString (of_Z n) ++ ".5".
Proof.
  intros Hn. unfold of_Z. rewrite !toString_front.
  replace (Z.odd (2 * n + 1)) with true
    by (symmetry; rewrite Z.add_comm, Z.odd_add_mul_2; reflexivity).
  replace (Z.odd (2 * n)) with false
    by (symmetry; rewrite <- (Z.add_0_l (2 * n)), Z.odd_add_mul_2; reflexivity).
  rewrite append_nil_r. f_equal. unfold frontText.
  replace (2 * n + 1 <? 0) with false by (symmetry; apply Z.ltb_ge; lia).
  replace (2 * n <? 0) with false by (symmetry; apply Z.ltb_ge; lia).
  do 3 f_equal. rewrite !Z.abs_eq by lia.
  rewrite (Z.mul_comm 2 n), Z.div_add_l, Z.div_mul by lia.
  change (1 / 2) with 0. lia.
Qed.

Lemma split_dot_front (n : Z) (rest : string) :
  split_dot (toString (of_Z n) ++ "." ++ rest) =
  toString (of_Z n) :: split_dot rest.
Proof.
  unfold of_Z. rewrite toString_front.
  replace (Z.odd (2 * n)) with false
    by (symmetry; rewrite <- (Z.add_0_l (2 * n)), Z.odd_add_mul_2; reflexivity).
  rewrite append_nil_r.
  change ("." ++ rest) with (String dot rest).
  apply split_dot_head, dotless_frontText.
Qed.

Section Between.
Context `{Collation}.

Lemma generateBetween_key (p n : Z) (prev next clientId : string) :
  numericKey p prev -> numericKey n next ->
  generateBetween prev next clientId =
  toString (Fin (p + n)) ++ "." ++ clientId.
Proof.
  intros Hp Hn. unfold generateBetween.
  fold (numericPart prev). fold (numericPart next).
  rewrite (numericPart_numericKey p prev Hp).
  rewrite (numericPart_numericKey n next Hn).
  unfold of_Z, sub, half, add.
  replace (2 * n - 2 * p) with ((n - p) * 2) by lia.
  rewrite Z.div_mul by lia.
  now replace (2 * p + (n - p)) with (p + n) by lia.
Qed.

(** Where the midpoint works.  For two keys that start with integers
    [p < n] of magnitude below 2^52, the result is "<m>.<clientId>" where
    the number [m = p + (n - p) / 2] lies strictly between [p] and [n];
    when [n - p] is at least 2 the new key sorts strictly between the two
    keys. *)
Lemma generateBetween_apart (p n : Z) (prev next clientId : string) :
  numericKey p prev -> numericKey n next ->
  p < n -> Z.abs p < 2 ^ 52 -> Z.abs n < 2 ^ 52 ->
  let key := generatePosition (Some prev) (Some next) clientId in
  let midNum := Fin (p + n) in
  key = toString midNum ++ "." ++ clientId
  /\ strictly_less (of_Z p) midNum
  /\ strictly_less midNum (of_Z n)
  /\ (p + 2 <= n -> orders_before prev key /\ orders_before key next).
Proof.
  intros Hp Hn Hlt _ _. cbv zeta.
  assert (Hprev : present (Some prev) = Some prev).
  { destruct Hp as [rest ->]. unfold present. now rewrite truthy_key. }
  assert (Hnext : present (Some next) = Some next).
  { destruct Hn as [rest ->]. unfold present. now rewrite truthy_key. }
  unfold generatePosition. rewrite Hprev, Hnext.
  rewrite (generateBetween_key p n prev next clientId Hp Hn).
  split; [reflexivity|].
  split; [unfold strictly_less, of_Z; lia|].
  split; [unfold strictly_less, of_Z; lia|].
  intros Hgap.
  pose proof (frontValue_between p n Hgap) as Hq.
  pose proof (numericPart_numericKey _ _ Hp) as Ep.
  pose proof (numericPart_numericKey _ _ Hn) as En.
  pose proof (numericPart_key (p + n) clientId) as Ek.
  pose proof (numericKey_parts _ _ Hp) as Lp.
  pose proof (numericKey_parts _ _ Hn) as Ln.
  unfold of_Z in Ep, En, Ek. unfold orders_before.
  rewrite (comparePositions_heads _ _ _ _ (or_introl Lp) Ep Ek) by lia.
  rewrite (comparePositions_heads _ _ _ _ (or_intror Ln) Ek En) by lia.
  unfold negative. split; apply Z.ltb_lt; lia.
Qed.

(** C6. Between a key "<n>.0.<a>" and the key the code itself makes
    between it and its successor, "<n>.5.<c>", [generatePosition] returns
    "<n>.<d>": it reads only the integer in front of the first dot of
    either key, so the midpoint is [n] itself.  The numeric part of the
    new key is not strictly between those of its neighbours, all three
    are [n]; and the new key sorts before the first of them, whatever the
    collation, because it has no sub-position. *)
Theorem C6_midpoint_drops_fraction (n : Z) (a b c d : string) :
  0 <= n < 2 ^ 52 ->
  dotless d = true ->
  let prev := key n a in
  let next := generatePosition (Some prev) (Some (key (n + 1) b)) c in
  let made := generatePosition (Some prev) (Some next) d in
  next = toString (of_Z n) ++ ".5." ++ c
  /\ comparePositions prev next = localeCompare prev next
  /\ made = toString (of_Z n) ++ "." ++ d
  /\ numericPart prev = of_Z n
  /\ numericPart next = of_Z n
  /\ numericPart made = of_Z n
  /\ comparePositions made prev = of_Z (-1)
  /\ comparePositions prev made = of_Z 1.
Proof.
  intros Hn Hd. cbv zeta.
  assert (Kprev : numericKey n (key n a)) by apply key_numeric.
  assert (Ksucc : numericKey (n + 1) (key (n + 1) b)) by apply key_numeric.
  assert (Pprev : present (Some (key n a)) = Some (key n a)).
  { unfold present, key. now rewrite (truthy_key _ ("0." ++ a)). }
  assert (Psucc : present (Some (key (n + 1) b)) = Some (key (n + 1) b)).
  { unfold present, key. now rewrite (truthy_key _ ("0." ++ b)). }
  assert (Enext : generatePosition (Some (key n a)) (Some (key (n + 1) b)) c
                  = toString (of_Z n) ++ ".5." ++ c).
  { unfold generatePosition. rewrite Pprev, Psucc.
    rewrite (generateBetween_key n (n + 1) _ _ c Kprev Ksucc).
    replace (n + (n + 1)) with (2 * n + 1) by lia.
    rewrite toString_half by lia. now rewrite append_assoc. }
  rewrite Enext.
  assert (Knext : numericKey n (toString (of_Z n) ++ ".5." ++ c))
    by (exists ("5." ++ c); reflexivity).
  assert (Pnext : present (Some (toString (of_Z n) ++ ".5." ++ c))
                  = Some (toString (of_Z n) ++ ".5." ++ c)).
  { unfold present. now rewrite (truthy_key _ ("5." ++ c)). }
  assert (Emade : generatePosition (Some (key n a))
                    (Some (toString (of_Z n) ++ ".5." ++ c)) d
                  = toString (of_Z n) ++ "." ++ d).
  { unfold generatePosition. rewrite Pprev, Pnext.
    rewrite (generateBetween_key n n _ _ d Kprev Knext).
    now replace (n + n) with (2 * n) by lia. }
  rewrite Emade.
  assert (Kmade : numericKey n (toString (of_Z n) ++ "." ++ d))
    by (exists d; reflexivity).
  pose proof (numericPart_numericKey _ _ Kprev) as Nprev.
  pose proof (numericPart_numericKey _ _ Knext) as Nnext.
  pose proof (numericPart_numericKey _ _ Kmade) as Nmade.
  assert (Sprev : split_dot (key n a)
                  = toString (of_Z n) :: "0" :: split_dot a).
  { unfold key. change (".0." ++ a) with ("." ++ "0." ++ a).
    rewrite split_dot_front. reflexivity. }
  assert (Snext : split_dot (toString (of_Z n) ++ ".5." ++ c)
                  = toString (of_Z n) :: "5" :: split_dot c).
  { change (".5." ++ c) with ("." ++ "5." ++ c).
    rewrite split_dot_front. reflexivity. }
  assert (Smade : split_dot (toString (of_Z n) ++ "." ++ d)
                  = [toString (of_Z n); d]).
  { rewrite split_dot_front. now rewrite (split_dot_dotless d Hd). }
  assert (Lc : forall s, (3 <=? S (S (List.length (split_dot s))))%nat = true).
  { intros s. pose proof (split_dot_nonempty s).
    destruct (split_dot s); [contradiction|reflexivity]. }
  assert (Ll : forall s, (S (S (List.length (split_dot s))) =? 1)%nat = false)
    by (intros s; reflexivity).
  split; [reflexivity|]. split; [|split; [reflexivity|]].
  - unfold comparePositions.
    fold (numericPart (key n a)).
    fold (numericPart (toString (of_Z n) ++ ".5." ++ c)).
    rewrite Nprev, Nnext, Sprev, Snext. cbn [List.length].
    rewrite !Ll. cbn [andb].
    unfold strict_neq, of_Z. rewrite Z.eqb_refl. cbn [negb].
    unfold hasSubPosition. cbn [List.length part nth]. rewrite !Lc.
    reflexivity.
  - split; [exact Nprev|]. split; [exact Nnext|]. split; [exact Nmade|].
    split.
    + unfold comparePositions.
      fold (numericPart (key n a)).
      fold (numericPart (toString (of_Z n) ++ "." ++ d)).
      rewrite Nprev, Nmade, Sprev, Smade. cbn [List.length].
      rewrite !Ll. cbn [andb Nat.eqb].
      unfold strict_neq, of_Z. rewrite Z.eqb_refl. cbn [negb].
      unfold hasSubPosition. cbn [List.length part nth]. rewrite !Lc.
      reflexivity.
    + unfold comparePositions.
      fold (numericPart (key n a)).
      fold (numericPart (toString (of_Z n) ++ "." ++ d)).
      rewrite Nprev, Nmade, Sprev, Smade. cbn [List.length].
      rewrite !Ll. cbn [andb Nat.eqb].
      unfold strict_neq, of_Z. rewrite Z.eqb_refl. cbn [negb].
      unfold hasSubPosition. cbn [List.length part nth]. rewrite !Lc.
      reflexivity.
Qed.
End Between.

(** ** Typing "hello", undo, redo *)

Lemma lacks_app (x : ascii) (a b : string) :
  lacks x (a ++ b) = lacks x a && lacks x b.
Proof.
  induction a as [|c a IH]; simpl; [reflexivity|].
  now rewrite IH, andb_assoc.
Qed.

Lemma lacks_underscore_uint (d : Decimal.uint) :
  lacks "_" (NilEmpty.string_of_uint d) = true.
Proof. induction d; simpl; auto. Qed.

Lemma lacks_underscore_toString (a : number) : lacks "_" (toString a) = true.
Proof.
  destruct a as [|h]; [reflexivity|]. unfold toString, digits.
  rewrite !lacks_app, lacks_underscore_uint.
  destruct (h <? 0), (Z.odd h); reflexivity.
Qed.

(** Two texts without [x], each followed by [x], are equal only when both
    the texts and what follows agree. *)
Lemma split_at (x : ascii) (a b r1 r2 : string) :
  lacks x a = true -> lacks x b = true ->
  a ++ String x r1 = b ++ String x r2 -> a = b /\ r1 = r2.
Proof.
  revert b. induction a as [|c a IH]; intros [|d b]; simpl; intros Ha Hb E.
  - inversion E. auto.
  - inversion E; subst. now rewrite Ascii.eqb_refl in Hb.
  - inversion E; subst. now rewrite Ascii.eqb_refl in Ha.
  - apply andb_true_iff in Ha, Hb. inversion E; subst.
    destruct (IH b (proj2 Ha) (proj2 Hb) H1) as [-> ->]. auto.
Qed.

Lemma draw_inj (a b : Z) (r1 r2 : string) :
  toString (of_Z a) ++ "_" ++ r1 = toString (of_Z b) ++ "_" ++ r2 -> r1 = r2.
Proof.
  intros E.
  apply (split_at "_"%char) in E; [tauto| |]; apply lacks_underscore_toString.
Qed.

Lemma key_inj (i j : Z) (user : string) : key i user = key j user -> i = j.
Proof.
  intros E.
  pose proof (numericPart_numericKey _ _ (key_numeric i user)) as Hi.
  pose proof (numericPart_numericKey _ _ (key_numeric j user)) as Hj.
  rewrite E, Hj in Hi. unfold of_Z in Hi.
  assert (E2 : 2 * j = 2 * i) by congruence. lia.
Qed.

Lemma run_bind {A B : Type} (m : M A) (k : A -> M B) (h : Host) :
  bind m k h = let (a, h') := m h in k a h'.
Proof. reflexivity. Qed.

Lemma digits_inj (a b : N) : digits a = digits b -> a = b.
Proof.
  intros E. pose proof (unsigned_prefix_digits a) as Ha.
  rewrite E, unsigned_prefix_digits in Ha. unfold of_Z in Ha.
  assert (E2 : 2 * Z.of_N b = 2 * Z.of_N a) by congruence. lia.
Qed.

Section ApplyAll.
Context `{Collation}.

Lemma fold_apply_run (ops : list CRDTOperation.t)
    (acc : M MultiFieldCRDTEngine.t) (h : Host) :
  fold_left (fun acc operation =>
               mf' <- acc ;; MultiFieldCRDTEngine.applyOperation mf' operation)
    ops acc h =
  let (mf, h') := acc h in
  fold_left (fun acc operation =>
               mf' <- acc ;; MultiFieldCRDTEngine.applyOperation mf' operation)
    ops (ret mf) h'.
Proof.
  revert acc h. induction ops as [|op ops IH]; intros acc h; simpl.
  - unfold ret. now destruct (acc h).
  - rewrite IH. unfold bind at 1. destruct (acc h) as [mf h1].
    rewrite (IH (bind (ret mf) _)). unfold bind, ret. reflexivity.
Qed.

(** The [forEach] of [undo] and [redo], one operation at a time. *)
Lemma applyAll_cons (mf : MultiFieldCRDTEngine.t) (op : CRDTOperation.t)
    (ops : list CRDTOperation.t) (h : Host) :
  MultiFieldCRDTEngine.applyAll mf (op :: ops) h =
  let (mf', h') := MultiFieldCRDTEngine.applyOperation mf op h in
  MultiFieldCRDTEngine.applyAll mf' ops h'.
Proof.
  unfold MultiFieldCRDTEngine.applyAll. simpl. rewrite fold_apply_run.
  unfold bind, ret. reflexivity.
Qed.
End ApplyAll.

Section Sessions.
Context `{Collation}.
Variables (doc user : string) (clock : nat -> Z) (dice : nat -> string).

(** The collation finds a string equal to itself, the random source
    never repeats a value, the clock shows a time after the epoch, and
    the clock readings of the session (41 at most) lie within the batch
    window of 1000 ms, so that characters typed one after the other form
    one batch. *)
Hypothesis collation_reflexive : forall p, localeCompare p p = of_Z 0.
Hypothesis dice_fresh : forall i j, dice i = dice j -> i = j.
Hypothesis clock_positive : forall i, 0 < clock i.
Hypothesis typing_window :
  forall i j, (i < 41)%nat -> (j < 41)%nat -> clock j - clock i <= 1000.

Lemma present_key (i : Z) : present (Some (key i user)) = Some (key i user).
Proof.
  unfold present.
  change (key i user) with (toString (of_Z i) ++ "." ++ "0." ++ user).
  now rewrite truthy_key.
Qed.

Lemma generatePosition_root : generatePosition None None user = key 1 user.
Proof. reflexivity. Qed.

Lemma generatePosition_after (i : Z) :
  generatePosition (Some (key i user)) None user = key (i + 1) user.
Proof.
  unfold generatePosition. rewrite present_key. simpl present.
  apply generateAfter_key. apply key_numeric.
Qed.

Lemma comparePositions_key (i j : Z) :
  i <> j -> comparePositions (key i user) (key j user) = Fin (2 * i - 2 * j).
Proof.
  intros Hne. apply comparePositions_heads.
  - left. apply (numericKey_parts i). apply key_numeric.
  - apply (numericPart_numericKey i). apply key_numeric.
  - apply (numericPart_numericKey j). apply key_numeric.
  - lia.
Qed.

Lemma comparePositions_key_same (i : Z) :
  comparePositions (key i user) (key i user) = of_Z 0.
Proof.
  unfold comparePositions.
  pose proof (numericKey_parts i _ (key_numeric i user)) as L. rewrite L.
  cbn [andb]. fold (numericPart (key i user)).
  rewrite (numericPart_numericKey i _ (key_numeric i user)).
  unfold strict_neq, of_Z. rewrite Z.eqb_refl. cbn [negb].
  destruct (hasSubPosition (split_dot (key i user))); cbn [andb negb];
    apply collation_reflexive.
Qed.

Lemma key_eqb (i j : Z) :
  i <> j -> (key i user =? key j user)%string = false.
Proof.
  intros Hne. apply String.eqb_neq. intros E. apply key_inj in E.
  contradiction.
Qed.

Lemma truthy_id (a : string) : truthy (user ++ "_" ++ a) = true.
Proof. destruct user; reflexivity. Qed.

Lemma operationId_eqb (a b : Z) (c d : nat) :
  c <> d ->
  (user ++ "_" ++ toString (of_Z a) ++ "_" ++ dice c
     =? user ++ "_" ++ toString (of_Z b) ++ "_" ++ dice d)%string = false.
Proof.
  intros Hne. apply String.eqb_neq. intros E.
  apply append_cancel_l in E. apply (append_cancel_l "_") in E.
  apply (draw_inj a b) in E. apply dice_fresh in E. contradiction.
Qed.

Lemma charId_eqb (a b : Z) (c d : nat) :
  c <> d ->
  ("char_" ++ user ++ "_" ++ toString (of_Z a) ++ "_" ++ dice c
     =? "char_" ++ user ++ "_" ++ toString (of_Z b) ++ "_" ++ dice d)%string
  = false.
Proof.
  intros Hne. apply String.eqb_neq. intros E.
  apply (append_cancel_l "char_") in E.
  apply append_cancel_l in E. apply (append_cancel_l "_") in E.
  apply (draw_inj a b) in E. apply dice_fresh in E. contradiction.
Qed.

Lemma charId_not_undo (a b : string) :
  ("char_" ++ a =? "undo_" ++ b)%string = false.
Proof. reflexivity. Qed.

Lemma clock_eqb (i : nat) : (clock i =? 0) = false.
Proof. apply Z.eqb_neq. specialize (clock_positive i). lia. Qed.

Lemma within_window (i j : nat) :
  (i <? 41)%nat = true -> (j <? 41)%nat = true ->
  (1000 <? clock j - clock i) = false.
Proof.
  intros Hi Hj. apply Nat.ltb_lt in Hi, Hj. apply Z.ltb_ge.
  now apply typing_window.
Qed.

(** Symbolic execution.  [reduce] computes everything except what
    depends on the host's draws or on [user]; [atom] settles one such
    test with a lemma above or, when it is closed, by computation;
    [stage] runs the next call of the session on a state in normal
    form. *)
Ltac closed_bool t :=
  let r := eval vm_compute in t in
  lazymatch r with
  | true => change t with true
  | false => change t with false
  end.

Ltac closed_Z t :=
  let r := eval vm_compute in t in
  lazymatch r with
  | Z0 => change t with r
  | Zpos _ => change t with r
  | Zneg _ => change t with r
  end.

Ltac atom :=
  match goal with
  | |- context [generatePosition None None user] =>
      rewrite generatePosition_root
  | |- context [generatePosition (Some (key ?i user)) None user] =>
      rewrite (generatePosition_after i)
  | |- context [present (Some (key ?i user))] => rewrite (present_key i)
  | |- context [comparePositions (key ?i user) (key ?j user)] =>
      first [ rewrite (comparePositions_key_same i)
            | rewrite (comparePositions_key i j) by discriminate ]
  | |- context [truthy (user ++ "_" ++ ?a)] => rewrite (truthy_id a)
  | |- context [clock ?i =? 0] => rewrite (clock_eqb i)
  | |- context [1000 <? clock ?j - clock ?i] =>
      rewrite (within_window i j) by reflexivity
  | |- context [String.eqb ?a ?a] => rewrite (String.eqb_refl a)
  | |- context [(key ?i user =? key ?j user)%string] =>
      rewrite (key_eqb i j) by discriminate
  | |- context [("char_" ++ ?a =? "undo_" ++ ?b)%string] =>
      rewrite (charId_not_undo a b)
  | |- context [(user ++ "_" ++ toString (of_Z ?a) ++ "_" ++ dice ?c
                 =? user ++ "_" ++ toString (of_Z ?b) ++ "_" ++ dice ?d)%string] =>
      rewrite (operationId_eqb a b c d) by discriminate
  | |- context [("char_" ++ user ++ "_" ++ toString (of_Z ?a) ++ "_" ++ dice ?c
                 =? "char_" ++ user ++ "_" ++ toString (of_Z ?b) ++ "_"
                    ++ dice ?d)%string] =>
      rewrite (charId_eqb a b c d) by discriminate
  | |- context [String.eqb ?a ?b] => closed_bool (String.eqb a b)
  | |- context [Z.ltb ?a ?b] => closed_bool (Z.ltb a b)
  | |- context [Z.leb ?a ?b] => closed_bool (Z.leb a b)
  | |- context [Z.eqb ?a ?b] => closed_bool (Z.eqb a b)
  | |- context [Z.add ?a ?b] => closed_Z (Z.add a b)
  | |- context [Z.sub ?a ?b] => closed_Z (Z.sub a b)
  | |- context [Z.mul ?a ?b] => closed_Z (Z.mul a b)
  end.

Ltac reduce :=
  cbv -[String.eqb append toString of_Z comparePositions generatePosition
        present truthy key Z.ltb Z.leb Z.eqb Z.sub Z.add Z.mul].

Ltac settle :=
  repeat (progress (reduce; repeat atom));
  lazymatch goal with
  | |- context [sort _ _] => fail "sort is left"
  | |- context [generatePosition _ _ _] => fail "generatePosition is left"
  | |- context [String.eqb _ _] => fail "a comparison is left"
  | |- _ => reflexivity
  end.

Ltac stage :=
  repeat rewrite run_bind;
  repeat rewrite applyAll_cons;
  match goal with
  | |- context [?m (mkHost clock dice ?t ?r)] =>
      lazymatch m with
      | mkHost => fail
      | _ =>
          let E := fresh "E" in
          eassert (E : m (mkHost clock dice t r) = _)
            by (unfold typeChar; settle);
          rewrite E; clear E; lazy beta iota
      end
  end.

(** On the content field of a new engine the round trip holds: typing
    "h", "e", "l", "l", "o" at the visible indices 0 to 4 shows "hello";
    once the batch is closed, [undo] empties the field and [redo] brings
    back exactly "hello". *)
Lemma hello_on_new_field :
  fst (helloSession FieldType.content (MultiFieldCRDTEngine.new doc user)
         (mkHost clock dice 0 0))
  = ("hello", "", "hello").
Proof.
  unfold helloSession, MultiFieldCRDTEngine.undo, MultiFieldCRDTEngine.redo.
  repeat stage. settle.
Qed.

(** C3. On a content field that is empty again after "h" was typed and
    deleted, typing "h", "e", "l", "l", "o" at the visible indices 0 to 4
    shows "hello"; once the batch is closed, [undo] leaves "h" and [redo]
    gives "hhello", not "hello".  The new "h" receives the key of the
    deleted one, and the delete that undoes it is resolved by position
    and value to the old tombstone. *)
Theorem C3_hello_after_an_earlier_edit :
  let h0 := mkHost clock dice 0 0 in
  let f := FieldType.content in
  MultiFieldCRDTEngine.getFieldContent (fst (emptied f doc user h0)) f = ""
  /\ fst ((mf <- emptied f doc user ;; helloSession f mf) h0)
     = ("hello", "h", "hhello").
Proof.
  cbv zeta. split.
  - unfold emptied. repeat stage. settle.
  - unfold emptied, helloSession, MultiFieldCRDTEngine.undo,
      MultiFieldCRDTEngine.redo.
    repeat stage. settle.
Qed.
End Sessions.

(** ** Position keys: what the comparator and the generators do at the edges *)

Lemma split_dot_single (s p : string) : split_dot s = [p] -> p = s.
Proof.
  revert p. induction s as [|c s IH]; simpl; intros p Hp.
  - congruence.
  - destruct (Ascii.eqb c dot).
    + pose proof (split_dot_nonempty s) as Hn.
      injection Hp as _ Hp. contradiction.
    + destruct (split_dot s) as [|q [|q' qs]] eqn:E.
      * now pose proof (split_dot_nonempty s).
      * injection Hp as <-. now rewrite (IH q eq_refl).
      * discriminate.
Qed.

Lemma parseFloat_single (s : string) :
  (List.length (split_dot s) =? 1)%nat = true -> parseFloat s = numericPart s.
Proof.
  intros Hl. apply Nat.eqb_eq in Hl. unfold numericPart.
  destruct (split_dot s) as [|p [|q qs]] eqn:E; try discriminate.
  simpl. now rewrite (split_dot_single s p E).
Qed.

Lemma headless_numericPart (p : string) : headless p -> numericPart p = NaN.
Proof.
  destruct p as [|c rest]; [reflexivity|].
  intros [-> | Hc]; [reflexivity|].
  unfold numericPart. cbn [split_dot].
  unfold startsNoNumber in Hc.
  repeat (apply andb_true_iff in Hc; destruct Hc as [Hc ?]).
  repeat match goal with
         | E : negb _ = true |- _ => apply negb_true_iff in E
         end.
  match goal with E : Ascii.eqb c dot = false |- _ => rewrite E end.
  assert (Hparse : forall body, parseFloat (String c body) = NaN).
  { intros body. unfold parseFloat. cbn [trimStart].
    match goal with E : is_space c = false |- _ => rewrite E end.
    assert (Hu : unsigned_prefix (String c body) = NaN).
    { unfold unsigned_prefix. cbn [scan_digits].
      match goal with E : is_digit c = false |- _ => now rewrite E end. }
    destruct c as [[] [] [] [] [] [] [] []]; try exact Hu; discriminate. }
  destruct (split_dot rest) as [|q qs]; apply Hparse.
Qed.

Section PositionEdge.
Context `{Collation}.

Lemma comparePositions_differ (a b : string) (x y : Z) :
  numericPart a = Fin x -> numericPart b = Fin y -> x <> y ->
  comparePositions a b = Fin (x - y).
Proof.
  intros Ha Hb Hne.
  destruct ((List.length (split_dot a) =? 1)%nat
            && (List.length (split_dot b) =? 1)%nat) eqn:L.
  - apply andb_true_iff in L. destruct L as [La Lb].
    unfold comparePositions. rewrite La, Lb. cbn [andb].
    rewrite (parseFloat_single a La), (parseFloat_single b Lb), Ha, Hb.
    reflexivity.
  - apply comparePositions_heads; try assumption.
    apply andb_false_iff in L. exact L.
Qed.

(** X1. Two keys that start with different integers (magnitude below
    2^52) followed by a dot are ordered by those integers alone, whatever
    follows the first dot and whatever the collation: the comparator
    returns their difference, and exchanging the keys changes its sign. *)
Theorem X1_comparePositions_by_heads (a b : string) (m n : Z) :
  numericKey m a -> numericKey n b -> m <> n ->
  Z.abs m < 2 ^ 52 -> Z.abs n < 2 ^ 52 ->
  comparePositions a b = of_Z (m - n)
  /\ comparePositions b a = of_Z (n - m)
  /\ negative (comparePositions a b) = (m <? n)
  /\ positive (comparePositions a b) = (n <? m).
Proof.
  intros Ka Kb Hne _ _.
  pose proof (numericPart_numericKey m a Ka) as Ha.
  pose proof (numericPart_numericKey n b Kb) as Hb.
  rewrite (comparePositions_differ a b (2 * m) (2 * n) Ha Hb) by lia.
  rewrite (comparePositions_differ b a (2 * n) (2 * m) Hb Ha) by lia.
  unfold of_Z, negative, positive.
  split; [f_equal; lia|]. split; [f_equal; lia|]. split.
  - destruct (Z.ltb_spec (2 * m - 2 * n) 0), (Z.ltb_spec m n);
      try reflexivity; lia.
  - destruct (Z.ltb_spec 0 (2 * m - 2 * n)), (Z.ltb_spec n m);
      try reflexivity; lia.
Qed.

(** X2. A key with no number in front of its first dot compares as
    [NaN] with every key, whichever of the two comes first. *)
Theorem X2_comparePositions_NaN (a b : string) :
  headless a ->
  comparePositions a b = NaN /\ comparePositions b a = NaN.
Proof.
  intros Ha. apply headless_numericPart in Ha. unfold comparePositions.
  destruct ((List.length (split_dot a) =? 1)%nat) eqn:La;
    destruct ((List.length (split_dot b) =? 1)%nat) eqn:Lb; cbn [andb];
    fold (numericPart a); fold (numericPart b);
    try rewrite (parseFloat_single a La);
    try rewrite (parseFloat_single b Lb);
    rewrite Ha; simpl; destruct (numericPart b); auto.
Qed.

(** X3. A key generated next to a non-empty key with no number in front
    of its first dot is "NaN.0.<clientId>" or "NaN.<clientId>", be it
    generated after that key or before it, and whatever the other
    neighbour is: it has no number in front either. *)
Theorem X3_generatePosition_NaN (p clientId : string) (other : option string) :
  p <> "" -> headless p ->
  let after := generatePosition (Some p) other clientId in
  let before := generatePosition other (Some p) clientId in
  (after = "NaN.0." ++ clientId \/ after = "NaN." ++ clientId)
  /\ (before = "NaN.0." ++ clientId \/ before = "NaN." ++ clientId)
  /\ headless after /\ headless before.
Proof.
  intros Hne Hp. cbv zeta.
  assert (Ht : truthy p = true) by (destruct p; [contradiction|reflexivity]).
  apply headless_numericPart in Hp.
  assert (Ea : generatePosition (Some p) other clientId = "NaN.0." ++ clientId
               \/ generatePosition (Some p) other clientId = "NaN." ++ clientId).
  { unfold generatePosition, present. rewrite Ht.
    destruct other as [q|]; [destruct (truthy q)|];
      unfold generateAfter, generateBetween; cbv zeta;
      fold (numericPart p); rewrite Hp; simpl add; cbn [toString]; auto. }
  assert (Eb : generatePosition other (Some p) clientId = "NaN.0." ++ clientId
               \/ generatePosition other (Some p) clientId = "NaN." ++ clientId).
  { unfold generatePosition, present. rewrite Ht.
    destruct other as [q|]; [destruct (truthy q)|];
      unfold generateBefore, generateBetween; cbv zeta;
      fold (numericPart p); rewrite Hp;
      try (destruct (parseFloat (part (split_dot q) 0)));
      cbn [add sub half toString]; auto. }
  split; [exact Ea|]. split; [exact Eb|].
  split; [destruct Ea as [-> | ->] | destruct Eb as [-> | ->]];
    right; reflexivity.
Qed.

(** X4. For the same neighbours, different client ids give different
    keys: two clients inserting at the same place never draw the same
    key. *)
Theorem X4_generatePosition_client (prev next : option string)
    (c1 c2 : string) :
  generatePosition prev next c1 = generatePosition prev next c2 -> c1 = c2.
Proof.
  unfold generatePosition, generateBefore, generateAfter, generateBetween.
  destruct (present prev), (present next); cbv zeta; intros Heq;
    repeat (apply append_cancel_l in Heq); exact Heq.
Qed.

(** X5. One step after a key and one step back, or the reverse, gives
    the key "<n>.0.<clientId>" with the leading number [n] of the key one
    started from (magnitude below 2^53). *)
Theorem X5_generate_there_and_back (n : Z) (p c c' : string) :
  numericKey n p ->
  Z.abs n < 2 ^ 53 ->
  generateBefore (generateAfter p c) c' = key n c'
  /\ generateAfter (generateBefore p c) c' = key n c'.
Proof.
  intros Hp _. rewrite (generateAfter_key n p c Hp).
  rewrite (generateBefore_key n p c Hp). split.
  - rewrite (generateBefore_key (n + 1)); [|eexists; reflexivity].
    unfold key. do 3 f_equal. lia.
  - rewrite (generateAfter_key (n - 1)); [|eexists; reflexivity].
    unfold key. do 3 f_equal. lia.
Qed.
End PositionEdge.


(** ** The engine: counters, the log, merging *)

Section SortFacts.
Context {A : Type} (f : A -> A -> number).

Lemma insert_sorted_perm (x : A) (l : list A) :
  Permutation (insert_sorted f x l) (x :: l).
Proof.
  induction l as [|y l IH]; simpl; [reflexivity|].
  destruct (positive (f x y)); [|reflexivity].
  rewrite IH. apply perm_swap.
Qed.

Lemma sort_perm (l : list A) : Permutation (sort f l) l.
Proof.
  induction l as [|x l IH]; simpl; [reflexivity|].
  unfold sort in *. simpl. rewrite insert_sorted_perm. now constructor.
Qed.

Lemma sort_length (l : list A) : List.length (sort f l) = List.length l.
Proof. apply Permutation_length, sort_perm. Qed.

Lemma sort_In (x : A) (l : list A) : In x (sort f l) <-> In x l.
Proof.
  split; apply Permutation_in; [|symmetry]; apply sort_perm.
Qed.

Lemma insert_sorted_last (x z : A) (l : list A) :
  positive (f x z) = false ->
  insert_sorted f x (l ++ [z]) = (insert_sorted f x l ++ [z])%list.
Proof.
  intros Hxz. induction l as [|y l IH]; simpl.
  - now rewrite Hxz.
  - destruct (positive (f x y)); [now rewrite IH | reflexivity].
Qed.

(** An element that no other one has to follow stays last. *)
Lemma sort_last (z : A) (l : list A) :
  (forall x, In x l -> positive (f x z) = false) ->
  sort f (l ++ [z]) = (sort f l ++ [z])%list.
Proof.
  induction l as [|x l IH]; intros Hall; [reflexivity|].
  unfold sort in *. simpl. rewrite IH by (intros y Hy; apply Hall; now right).
  apply insert_sorted_last. apply Hall. now left.
Qed.
End SortFacts.

Section EngineMore.
Context `{Collation}.

Lemma sorted_visible (e : CRDTEngine.t) :
  Permutation (CRDTEngine.getSortedVisibleChars e)
    (visible (CRDTEngine.characters e)).
Proof. apply sort_perm. Qed.

Lemma length_filter_split {A : Type} (p : A -> bool) (l : list A) :
  (List.length (filter p l) + List.length (filter (fun x => negb (p x)) l)
   = List.length l)%nat.
Proof.
  induction l as [|x l IH]; simpl; [reflexivity|].
  destruct (p x); simpl; lia.
Qed.

(** X6. The counters of [getStats] add up: inserts and deletes make the
    total of operations, and the visible characters and the tombstones
    make the total of characters. *)
Theorem X6_getStats_adds_up (e : CRDTEngine.t) :
  let s := CRDTEngine.getStats e in
  (CRDTEngine.insertOperations s + CRDTEngine.deleteOperations s
   = CRDTEngine.totalOperations s)%nat
  /\ (List.length (CRDTEngine.getSortedVisibleChars e)
      + CRDTEngine.deletedCharacters s
      = CRDTEngine.totalCharacters s)%nat.
Proof.
  cbv zeta. unfold CRDTEngine.getStats. simpl. split.
  - induction (CRDTEngine.operations e) as [|op ops IH]; simpl;
      [reflexivity|].
    destruct (CRDTOperation.type op); simpl; lia.
  - rewrite (Permutation_length (sorted_visible e)). unfold visible.
    unfold JSMap.size, JSMap.values. 
    rewrite <- (length_map snd (CRDTEngine.characters e)).
    rewrite Nat.add_comm. apply length_filter_split.
Qed.

Lemma applied_In (id : string) (ops : list CRDTOperation.t) :
  CRDTEngine.applied id ops = true <-> In id (map CRDTOperation.id ops).
Proof.
  unfold CRDTEngine.applied. rewrite existsb_exists, in_map_iff.
  split; intros (op & H1 & H2); exists op.
  - apply String.eqb_eq in H2. auto.
  - split; [assumption|]. subst. apply String.eqb_refl.
Qed.

Lemma applyOperation_distinct (e : CRDTEngine.t) (op : CRDTOperation.t)
    (c : option CRDTChar.t) (h : Host) :
  distinctIds (CRDTEngine.operations e) ->
  distinctIds (CRDTEngine.operations
                 (fst (CRDTEngine.applyOperation e op c h))).
Proof.
  intros Hd.
  destruct (CRDTEngine.applied (CRDTOperation.id op)
              (CRDTEngine.operations e)) eqn:E.
  - now rewrite applyOperation_seen.
  - rewrite applyOperation_logs by assumption.
    unfold distinctIds. rewrite map_app. simpl.
    apply NoDup_Add with (a := CRDTOperation.id op)
                         (l := map CRDTOperation.id (CRDTEngine.operations e)).
    + rewrite <- (app_nil_r (map _ _)) at 1. apply Add_app.
    + split; [assumption|]. rewrite <- applied_In. congruence.
Qed.

Lemma mergeOperations_run (ops : list CRDTOperation.t)
    (m : M CRDTEngine.t) (h : Host) :
  fold_left (fun acc operation =>
               e' <- acc ;; CRDTEngine.applyOperation e' operation None)
    ops m h =
  CRDTEngine.mergeOperations (fst (m h)) ops (snd (m h)).
Proof.
  unfold CRDTEngine.mergeOperations.
  revert m h. induction ops as [|op ops IH]; intros m h; simpl.
  - unfold ret. now destruct (m h).
  - rewrite IH. rewrite (IH (e' <- ret (fst (m h)) ;; _)).
    unfold bind, ret. now destruct (m h).
Qed.

Lemma mergeOperations_cons (e : CRDTEngine.t) (op : CRDTOperation.t)
    (ops : list CRDTOperation.t) (h : Host) :
  CRDTEngine.mergeOperations e (op :: ops) h =
  CRDTEngine.mergeOperations
    (fst (CRDTEngine.applyOperation e op None h)) ops
    (snd (CRDTEngine.applyOperation e op None h)).
Proof.
  unfold CRDTEngine.mergeOperations at 1. simpl. rewrite mergeOperations_run.
  reflexivity.
Qed.

Lemma perform_as_apply (call : EngineCall) (e : CRDTEngine.t) (h : Host) :
  fst (perform call e h) = e
  \/ exists op c h', fst (perform call e h) =
                     fst (CRDTEngine.applyOperation e op c h').
Proof.
  destruct call as [ch i | i | op c]; simpl.
  - right. unfold bind. rewrite insertChar_run. cbv zeta. simpl.
    eexists _, _, _. reflexivity.
  - unfold bind, CRDTEngine.deleteChar.
    destruct ((i <? 0) || _); [now left|].
    destruct (index _ i) as [c|]; [|now left]. right.
    cbv beta iota zeta delta [bind ret generateOperationId now random36].
    match goal with
    | |- context [CRDTEngine.applyOperation ?a ?b ?c ?d] =>
        exists b, c, d; destruct (CRDTEngine.applyOperation a b c d)
    end.
    reflexivity.
  - right. eexists _, _, _. reflexivity.
Qed.

(** X7. The log never holds two operations with the same id: no call of
    [insertChar], [deleteChar], [applyOperation] or [mergeOperations]
    breaks this. *)
Theorem X7_log_ids_distinct (e : CRDTEngine.t) :
  distinctIds (CRDTEngine.operations e) ->
  (forall call h,
      distinctIds (CRDTEngine.operations (fst (perform call e h))))
  /\ (forall ops h,
         distinctIds (CRDTEngine.operations
                        (fst (CRDTEngine.mergeOperations e ops h)))).
Proof.
  intros Hd. split.
  - intros call h. destruct (perform_as_apply call e h) as [-> | (op & c & h' & ->)];
      [assumption | now apply applyOperation_distinct].
  - intros ops. revert e Hd. induction ops as [|op ops IH]; intros e Hd h.
    + exact Hd.
    + rewrite mergeOperations_cons. apply IH.
      now apply applyOperation_distinct.
Qed.

Lemma applyOperation_keeps_applied (e : CRDTEngine.t) (op : CRDTOperation.t)
    (c : option CRDTChar.t) (h : Host) (id : string) :
  CRDTEngine.applied id (CRDTEngine.operations e) = true ->
  CRDTEngine.applied id
    (CRDTEngine.operations (fst (CRDTEngine.applyOperation e op c h))) = true.
Proof.
  intros Hid.
  destruct (CRDTEngine.applied (CRDTOperation.id op)
              (CRDTEngine.operations e)) eqn:E.
  - now rewrite applyOperation_seen.
  - rewrite applyOperation_logs by assumption.
    rewrite applied_app, Hid. reflexivity.
Qed.

Lemma applyOperation_applied (e : CRDTEngine.t) (op : CRDTOperation.t)
    (c : option CRDTChar.t) (h : Host) :
  CRDTEngine.applied (CRDTOperation.id op)
    (CRDTEngine.operations (fst (CRDTEngine.applyOperation e op c h))) = true.
Proof.
  destruct (CRDTEngine.applied (CRDTOperation.id op)
              (CRDTEngine.operations e)) eqn:E.
  - now rewrite applyOperation_seen.
  - rewrite applyOperation_logs by assumption.
    rewrite applied_app, applied_self. apply orb_true_r.
Qed.

Lemma mergeOperations_keeps_applied (ops : list CRDTOperation.t)
    (e : CRDTEngine.t) (h : Host) (id : string) :
  CRDTEngine.applied id (CRDTEngine.operations e) = true ->
  CRDTEngine.applied id
    (CRDTEngine.operations (fst (CRDTEngine.mergeOperations e ops h))) = true.
Proof.
  revert e h. induction ops as [|op ops IH]; intros e h Hid; [exact Hid|].
  rewrite mergeOperations_cons. apply IH.
  now apply applyOperation_keeps_applied.
Qed.

Lemma mergeOperations_applied (ops : list CRDTOperation.t)
    (e : CRDTEngine.t) (h : Host) (op : CRDTOperation.t) :
  In op ops ->
  CRDTEngine.applied (CRDTOperation.id op)
    (CRDTEngine.operations (fst (CRDTEngine.mergeOperations e ops h))) = true.
Proof.
  revert e h. induction ops as [|o ops IH]; intros e h Hin;
    [destruct Hin | destruct Hin as [<- | Hin]].
  - rewrite mergeOperations_cons. apply mergeOperations_keeps_applied.
    apply applyOperation_applied.
  - rewrite mergeOperations_cons. now apply IH.
Qed.

Lemma mergeOperations_seen (ops : list CRDTOperation.t)
    (e : CRDTEngine.t) (h : Host) :
  (forall op, In op ops ->
     CRDTEngine.applied (CRDTOperation.id op) (CRDTEngine.operations e) = true) ->
  CRDTEngine.mergeOperations e ops h = (e, h).
Proof.
  induction ops as [|op ops IH]; intros Hall; [reflexivity|].
  rewrite mergeOperations_cons.
  rewrite applyOperation_seen by (apply Hall; now left).
  apply IH. intros o Ho. apply Hall. now right.
Qed.

(** X8. Merging a list of operations a second time changes neither the
    engine nor the host: every operation of it is found in the log. *)
Theorem X8_mergeOperations_idempotent (e : CRDTEngine.t)
    (ops : list CRDTOperation.t) (h : Host) :
  let r := CRDTEngine.mergeOperations e ops h in
  CRDTEngine.mergeOperations (fst r) ops (snd r) = r.
Proof.
  cbv zeta.
  rewrite mergeOperations_seen.
  - now destruct (CRDTEngine.mergeOperations e ops h).
  - intros op Hin. now apply mergeOperations_applied.
Qed.
End EngineMore.


(** ** The engine: reading characters by index *)

Lemma index_Some {A : Type} (l : list A) (i : Z) (x : A) :
  index l i = Some x <->
  0 <= i /\ nth_error l (Z.to_nat i) = Some x.
Proof.
  unfold index. destruct (Z.ltb_spec i 0).
  - split; [discriminate | lia].
  - tauto.
Qed.

Section Accessors.
Context `{Collation}.

(** X9. [getCharacterAtPosition] answers exactly inside the visible
    range; what it returns is stored in the map and is never a
    tombstone. *)
Theorem X9_getCharacterAtPosition_visible (e : CRDTEngine.t) (i : Z) :
  match CRDTEngine.getCharacterAtPosition e i with
  | Some c =>
      0 <= i < Z.of_nat (List.length (CRDTEngine.getSortedVisibleChars e))
      /\ CRDTChar.deleted c = false
      /\ In c (JSMap.values (CRDTEngine.characters e))
  | None =>
      i < 0 \/ Z.of_nat (List.length (CRDTEngine.getSortedVisibleChars e)) <= i
  end.
Proof.
  unfold CRDTEngine.getCharacterAtPosition.
  destruct (Z.ltb_spec i 0) as [Hneg|Hpos]; simpl; [now left|].
  destruct (Z.leb_spec (Z.of_nat (List.length
                          (CRDTEngine.getSortedVisibleChars e))) i)
    as [Hout|Hin]; [now right|].
  destruct (index _ i) as [c|] eqn:Hi.
  - apply index_Some in Hi. destruct Hi as [_ Hnth].
    apply nth_error_In in Hnth.
    apply (Permutation_in _ (sorted_visible e)) in Hnth.
    unfold visible in Hnth. apply filter_In in Hnth.
    destruct Hnth as [Hin' Hdel]. apply negb_true_iff in Hdel.
    repeat split; try assumption; lia.
  - unfold index in Hi.
    destruct (Z.ltb_spec i 0); [lia|].
    apply nth_error_None in Hi. lia.
Qed.

(** X10. For a range that starts at a non-negative index, the ids
    [getCharIdsInRange] lists are, in order, those of the characters
    [getCharacterAtPosition] returns for the indices of the range. *)
Theorem X10_getCharIdsInRange_agrees (e : CRDTEngine.t) (first finish : Z)
    (k : nat) :
  0 <= first ->
  first + Z.of_nat k < finish ->
  first + Z.of_nat k
    < Z.of_nat (List.length (CRDTEngine.getSortedVisibleChars e)) ->
  nth_error (CRDTEngine.getCharIdsInRange e first finish) k =
  option_map CRDTChar.id
    (CRDTEngine.getCharacterAtPosition e (first + Z.of_nat k)).
Proof.
  intros Hfirst Hfin Hlen.
  unfold CRDTEngine.getCharIdsInRange, CRDTEngine.getCharacterAtPosition,
    CRDTEngine.getVisibleCharacters, slice.
  set (l := CRDTEngine.getSortedVisibleChars e) in *.
  replace (first + Z.of_nat k <? 0) with false by (symmetry; apply Z.ltb_ge; lia).
  replace (Z.of_nat (List.length l) <=? first + Z.of_nat k) with false
    by (symmetry; apply Z.leb_gt; lia).
  simpl orb. cbv iota.
  replace (first <? 0) with false by (symmetry; apply Z.ltb_ge; lia).
  replace (finish <? 0) with false by (symmetry; apply Z.ltb_ge; lia).
  unfold index.
  replace (first + Z.of_nat k <? 0) with false by (symmetry; apply Z.ltb_ge; lia).
  rewrite nth_error_map.
  rewrite nth_error_firstn.
  replace (k <? _)%nat with true by (symmetry; apply Nat.ltb_lt; lia).
  rewrite nth_error_skipn. do 2 f_equal. lia.
Qed.
End Accessors.


(** ** The engine: typing at the end *)

Lemma string_concat_app (l1 l2 : list string) :
  String.concat "" (l1 ++ l2) = String.concat "" l1 ++ String.concat "" l2.
Proof.
  induction l1 as [|a l1 IH]; [reflexivity|].
  destruct l1 as [|b l1].
  - simpl. destruct l2 as [|c l2]; [now rewrite append_nil_r | reflexivity].
  - change (String.concat "" (((a :: b :: l1) ++ l2)%list))
      with (a ++ "" ++ String.concat "" ((b :: l1) ++ l2)%list).
    rewrite IH.
    change (String.concat "" (a :: b :: l1))
      with (a ++ "" ++ String.concat "" (b :: l1)).
    simpl. now rewrite append_assoc.
Qed.

Lemma join_app (l1 l2 : list (option string)) :
  join (l1 ++ l2) = join l1 ++ join l2.
Proof. unfold join. rewrite map_app. apply string_concat_app. Qed.

Lemma numericKey_truthy (n : Z) (p : string) : numericKey n p -> truthy p = true.
Proof. intros [rest ->]. apply truthy_key. Qed.

Lemma of_Z_inj (a b : Z) : of_Z a = of_Z b -> a = b.
Proof. unfold of_Z. intros E. assert (2 * a = 2 * b) by congruence. lia. Qed.

Section Typing.
Context `{Collation}.

Lemma sorted_stepped (e : CRDTEngine.t) (op : CRDTOperation.t)
    (chars : JSMap.t CRDTChar.t) :
  CRDTEngine.getSortedVisibleChars (stepped e op chars) =
  sort (fun a b =>
          comparePositions (CRDTChar.position a) (CRDTChar.position b))
    (visible chars).
Proof. reflexivity. Qed.

Lemma content_sorted (e : CRDTEngine.t) :
  CRDTEngine.getVisibleContent e =
  join (map CRDTChar.char (CRDTEngine.getSortedVisibleChars e)).
Proof. reflexivity. Qed.

(** The key [insertChar] draws at the end of a text whose last key starts
    with [n]. *)
Lemma insertPosition_at_end (e : CRDTEngine.t) (n : Z) (lastChar : CRDTChar.t) :
  let sorted := CRDTEngine.getSortedVisibleChars e in
  let i := Z.of_nat (List.length sorted) in
  index sorted (i - 1) = Some lastChar ->
  numericKey n (CRDTChar.position lastChar) ->
  insertPosition e i = key (n + 1) (CRDTEngine.clientId e).
Proof.
  cbv zeta. intros Hlast Hkey. unfold insertPosition, CRDTEngine.neighbour.
  rewrite Hlast.
  rewrite index_outside by lia.
  assert (Hp : present (Some (CRDTChar.position lastChar))
               = Some (CRDTChar.position lastChar)).
  { unfold present. now rewrite (numericKey_truthy n _ Hkey). }
  unfold generatePosition. rewrite !Hp. cbn [present].
  now rewrite (generateAfter_key n _ _ Hkey).
Qed.

Lemma typed_at_end (e : CRDTEngine.t) (ch : string) (h : Host)
    (n : Z) (lastChar : CRDTChar.t) :
  let sorted := CRDTEngine.getSortedVisibleChars e in
  let i := Z.of_nat (List.length sorted) in
  index sorted (i - 1) = Some lastChar ->
  numericKey n (CRDTChar.position lastChar) ->
  Z.abs n < 2 ^ 52 ->
  (forall c, In c sorted ->
     exists m, numericKey m (CRDTChar.position c)
               /\ Z.abs m < 2 ^ 52 /\ m <= n) ->
  consistent sorted ->
  JSMap.get (Some (drawnCharId (CRDTEngine.clientId e) h))
    (CRDTEngine.characters e) = None ->
  CRDTEngine.applied
    (fst (generateOperationId (CRDTEngine.clientId e) (afterDraw h)))
    (CRDTEngine.operations e) = false ->
  let op := fst (fst (CRDTEngine.insertChar e ch i h)) in
  let e' := snd (fst (CRDTEngine.insertChar e ch i h)) in
  CRDTOperation.position op = key (n + 1) (CRDTEngine.clientId e)
  /\ CRDTEngine.getSortedVisibleChars e' =
     (sorted ++ [insertedChar e ch i h])%list
  /\ CRDTEngine.getVisibleContent e' = CRDTEngine.getVisibleContent e ++ ch.
Proof.
  cbv zeta. intros Hlast Hkey _ Hheads _ Hfresh Hnew.
  pose proof (insertPosition_at_end e n lastChar Hlast Hkey) as Hpos.
  cbv zeta in Hpos.
  set (i := Z.of_nat (List.length (CRDTEngine.getSortedVisibleChars e))) in *.
  rewrite insertChar_run. cbv zeta. cbn [fst snd].
  rewrite applyOperation_local_insert by (try reflexivity; exact Hnew).
  cbn [fst snd].
  split; [exact Hpos|].
  assert (Hsorted :
    CRDTEngine.getSortedVisibleChars
      (stepped e (insertOperation e ch i h)
         (JSMap.set (CRDTChar.id (insertedChar e ch i h))
            (insertedChar e ch i h) (CRDTEngine.characters e))) =
    (CRDTEngine.getSortedVisibleChars e ++ [insertedChar e ch i h])%list).
  { rewrite sorted_stepped.
    change (CRDTChar.id (insertedChar e ch i h))
      with (Some (drawnCharId (CRDTEngine.clientId e) h)).
    rewrite set_absent by exact Hfresh.
    unfold visible. rewrite values_app, filter_app.
    change (filter (fun c => negb (CRDTChar.deleted c))
              (JSMap.values [(Some (drawnCharId (CRDTEngine.clientId e) h),
                              insertedChar e ch i h)]))
      with [insertedChar e ch i h].
    apply sort_last.
    intros x Hx.
    change (CRDTChar.position (insertedChar e ch i h))
      with (insertPosition e i).
    rewrite Hpos.
    assert (Hin : In x (CRDTEngine.getSortedVisibleChars e)).
    { unfold CRDTEngine.getSortedVisibleChars. apply sort_In. exact Hx. }
    destruct (Hheads x Hin) as (m & Hm & _ & Hle).
    rewrite (comparePositions_differ _ _ (2 * m) (2 * (n + 1))).
    - unfold positive. apply Z.ltb_ge. lia.
    - apply numericPart_numericKey. exact Hm.
    - apply numericPart_numericKey. apply key_numeric.
    - lia. }
  split; [exact Hsorted|].
  rewrite !content_sorted, Hsorted, map_app, join_app.
  change (join (map CRDTChar.char [insertedChar e ch i h])) with ch.
  reflexivity.
Qed.

(** X11. Typing at the end of a text whose visible keys start with
    integers (magnitude below 2^52) followed by a dot, none above the
    last one's, and are ranked consistently by the comparator, appends the
    character: the new key is "<n+1>.0.<clientId>", the character becomes
    the last visible one and the content grows by it. *)
Theorem X11_insertChar_at_end (e : CRDTEngine.t) (ch : string) (h : Host)
    (n : Z) (lastChar : CRDTChar.t) :
  let sorted := CRDTEngine.getSortedVisibleChars e in
  let i := Z.of_nat (List.length sorted) in
  index sorted (i - 1) = Some lastChar ->
  numericKey n (CRDTChar.position lastChar) ->
  Z.abs n < 2 ^ 52 ->
  (forall c, In c sorted ->
     exists m, numericKey m (CRDTChar.position c)
               /\ Z.abs m < 2 ^ 52 /\ m <= n) ->
  consistent sorted ->
  JSMap.get (Some (drawnCharId (CRDTEngine.clientId e) h))
    (CRDTEngine.characters e) = None ->
  CRDTEngine.applied
    (fst (generateOperationId (CRDTEngine.clientId e) (afterDraw h)))
    (CRDTEngine.operations e) = false ->
  let op := fst (fst (CRDTEngine.insertChar e ch i h)) in
  let e' := snd (fst (CRDTEngine.insertChar e ch i h)) in
  CRDTOperation.position op = key (n + 1) (CRDTEngine.clientId e)
  /\ CRDTEngine.getSortedVisibleChars e' =
     (sorted ++ [insertedChar e ch i h])%list
  /\ CRDTEngine.getVisibleContent e' = CRDTEngine.getVisibleContent e ++ ch.
Proof. exact (typed_at_end e ch h n lastChar). Qed.

(** X12. A character typed at the end of such a text and deleted again
    leaves the visible text as it was: the delete names the character by
    the id the insert gave it, and the character stays in the map as a
    tombstone. *)
Theorem X12_insertChar_then_deleteChar (e : CRDTEngine.t) (ch : string)
    (h : Host) (n : Z) (lastChar : CRDTChar.t) :
  let sorted := CRDTEngine.getSortedVisibleChars e in
  let i := Z.of_nat (List.length sorted) in
  index sorted (i - 1) = Some lastChar ->
  numericKey n (CRDTChar.position lastChar) ->
  Z.abs n < 2 ^ 52 ->
  (forall c, In c sorted ->
     exists m, numericKey m (CRDTChar.position c)
               /\ Z.abs m < 2 ^ 52 /\ m <= n) ->
  consistent sorted ->
  JSMap.get (Some (drawnCharId (CRDTEngine.clientId e) h))
    (CRDTEngine.characters e) = None ->
  CRDTEngine.applied
    (fst (generateOperationId (CRDTEngine.clientId e) (afterDraw h)))
    (CRDTEngine.operations e) = false ->
  let typed := CRDTEngine.insertChar e ch i h in
  let e1 := snd (fst typed) in
  CRDTEngine.applied
    (fst (generateOperationId (CRDTEngine.clientId e) (snd typed)))
    (CRDTEngine.operations e1) = false ->
  let erased := CRDTEngine.deleteChar e1 i (snd typed) in
  let e2 := snd (fst erased) in
  (exists del,
      fst (fst erased) = Some del
      /\ CRDTOperation.type del = delete
      /\ CRDTOperation.charId del =
         Some (drawnCharId (CRDTEngine.clientId e) h)
      /\ CRDTOperation.position del = key (n + 1) (CRDTEngine.clientId e)
      /\ CRDTOperation.char del = Some ch)
  /\ CRDTEngine.getSortedVisibleChars e2 = sorted
  /\ CRDTEngine.getVisibleContent e2 = CRDTEngine.getVisibleContent e
  /\ JSMap.get (Some (drawnCharId (CRDTEngine.clientId e) h))
       (CRDTEngine.characters e2) =
     Some (CRDTChar.tombstone (insertedChar e ch i h)).
Proof.
  cbv zeta. intros Hlast Hkey Hbound Hheads Hcons Hfresh Hnew.
  destruct (typed_at_end e ch h n lastChar Hlast Hkey Hbound Hheads Hcons
              Hfresh Hnew) as (Hpos & Hsorted & _).
  cbv zeta in Hpos, Hsorted.
  set (i := Z.of_nat (List.length (CRDTEngine.getSortedVisibleChars e))) in *.
  revert Hpos Hsorted.
  rewrite insertChar_run. cbv zeta. cbn [fst snd].
  rewrite applyOperation_local_insert by (try reflexivity; exact Hnew).
  cbn [fst snd].
  change (CRDTChar.id (insertedChar e ch i h))
    with (Some (drawnCharId (CRDTEngine.clientId e) h)).
  rewrite set_absent by exact Hfresh.
  set (c := insertedChar e ch i h).
  set (k := Some (drawnCharId (CRDTEngine.clientId e) h)) in *.
  set (e1 := stepped e (insertOperation e ch i h)
               (CRDTEngine.characters e ++ [(k, c)])%list).
  intros Hpos Hsorted Hnew2.
  assert (Hnth : nth_error (CRDTEngine.getSortedVisibleChars e1) (Z.to_nat i)
                 = Some c).
  { rewrite Hsorted. unfold i. rewrite Nat2Z.id.
    rewrite nth_error_app2 by lia. now rewrite Nat.sub_diag. }
  rewrite (deleteChar_run e1 i (spend 3 2 h) c) by (unfold i; lia || exact Hnth).
  cbv zeta. cbn [fst snd].
  rewrite applyOperation_delete by (try reflexivity; exact Hnew2).
  cbn [fst snd].
  assert (Hdel : CRDTEngine.applyDelete (deleteOperation e1 c (spend 3 2 h))
                   (CRDTEngine.characters e1) =
                 (CRDTEngine.characters e ++ [(k, CRDTChar.tombstone c)])%list).
  { unfold CRDTEngine.applyDelete.
    change (CRDTOperation.charId (deleteOperation e1 c (spend 3 2 h))) with k.
    change (CRDTEngine.characters e1)
      with (CRDTEngine.characters e ++ [(k, c)])%list.
    rewrite get_app_last, Hfresh, same_refl.
    change (CRDTChar.id c) with k.
    rewrite set_mutate_same
      by (now rewrite get_app_last, Hfresh, same_refl).
    rewrite mutate_app_last by exact Hfresh.
    cbn [JSMap.mutate]. now rewrite same_refl. }
  rewrite Hdel.
  assert (Hvis : visible (CRDTEngine.characters e ++ [(k, CRDTChar.tombstone c)])%list
                 = visible (CRDTEngine.characters e)).
  { unfold visible. rewrite values_app, filter_app. simpl.
    apply app_nil_r. }
  split; [|split; [|split]].
  - eexists. split; [reflexivity|]. repeat split. exact Hpos.
  - rewrite sorted_stepped, Hvis. reflexivity.
  - rewrite !content_sorted, sorted_stepped, Hvis. reflexivity.
  - cbn [stepped CRDTEngine.characters].
    now rewrite get_app_last, Hfresh, same_refl.
Qed.
End Typing.


(** ** The engine: deleting at an index *)

Section SortRemoval.
Context {A : Type} (f : A -> A -> number).
Let gt (x y : A) : bool := positive (f x y).
Let ordered : list A -> Prop := Sorted (fun a b => gt a b = false).

Lemma insert_sorted_ordered (x : A) (l : list A) :
  (forall y, In y l -> gt x y = true -> gt y x = false) ->
  ordered l -> ordered (insert_sorted f x l).
Proof.
  intros Hasym Hl. induction l as [|y l IH]; simpl.
  - repeat constructor.
  - fold (gt x y). destruct (gt x y) eqn:E.
    + apply Sorted_inv in Hl. destruct Hl as [Hl Hhd].
      constructor.
      * apply IH; [|exact Hl]. intros z Hz. apply Hasym. now right.
      * destruct l as [|z l]; simpl.
        -- constructor. apply Hasym; [now left | exact E].
        -- fold (gt x z). destruct (gt x z).
           ++ constructor. now inversion Hhd.
           ++ constructor. apply Hasym; [now left | exact E].
    + constructor; [exact Hl|]. constructor. exact E.
Qed.

Lemma sort_ordered (l : list A) :
  (forall a b, In a l -> In b l -> gt a b = true -> gt b a = false) ->
  ordered (sort f l).
Proof.
  induction l as [|x l IH]; intros Hasym.
  - constructor.
  - unfold sort in *. simpl. apply insert_sorted_ordered.
    + intros y Hy. apply Hasym; [now left|].
      right. apply (proj1 (sort_In f y l)). exact Hy.
    + apply IH. intros a b Ha Hb. apply Hasym; now right.
Qed.

Lemma insert_sorted_around (x c : A) (s1 s2 : list A) :
  ordered (s1 ++ c :: s2) ->
  (forall z, In z s2 -> gt x c = false -> gt c z = false -> gt x z = false) ->
  exists t1 t2,
    insert_sorted f x (s1 ++ c :: s2) = (t1 ++ c :: t2)%list
    /\ insert_sorted f x (s1 ++ s2) = (t1 ++ t2)%list.
Proof.
  intros Hord Htrans. induction s1 as [|y s1 IH]; simpl.
  - fold (gt x c). destruct (gt x c) eqn:E.
    + exists [], (insert_sorted f x s2). now split.
    + exists [x], s2. split; [reflexivity|].
      destruct s2 as [|z s2]; [reflexivity|]. simpl. fold (gt x z).
      rewrite (Htrans z); [reflexivity | now left | reflexivity |].
      simpl in Hord. apply Sorted_inv in Hord. destruct Hord as [_ Hhd].
      now inversion Hhd.
  - fold (gt x y). destruct (gt x y).
    + simpl in Hord. apply Sorted_inv in Hord. destruct Hord as [Hord _].
      destruct (IH Hord) as (t1 & t2 & E1 & E2).
      exists (y :: t1), t2. simpl. now rewrite E1, E2.
    + exists (x :: y :: s1), s2. now split.
Qed.

Lemma sort_around (c : A) (l1 l2 : list A) :
  (forall a b, In a (l1 ++ c :: l2) -> In b (l1 ++ c :: l2) ->
     gt a b = true -> gt b a = false) ->
  (forall a b z, In a (l1 ++ c :: l2) -> In b (l1 ++ c :: l2) ->
     In z (l1 ++ c :: l2) ->
     gt a b = false -> gt b z = false -> gt a z = false) ->
  exists s1 s2,
    sort f (l1 ++ c :: l2) = (s1 ++ c :: s2)%list
    /\ sort f (l1 ++ l2) = (s1 ++ s2)%list.
Proof.
  intros Hasym Htrans. induction l1 as [|x l1 IH].
  - simpl. unfold sort. simpl. fold (sort f l2).
    clear. induction (sort f l2) as [|y s IHs]; simpl.
    + exists [], []. now split.
    + destruct (positive (f c y)).
      * destruct IHs as (s1 & s2 & E1 & E2).
        exists (y :: s1), s2. simpl. now rewrite E1, E2.
      * exists [], (y :: s). now split.
  - destruct IH as (s1 & s2 & E1 & E2).
    + intros a b Ha Hb. apply Hasym; now right.
    + intros a b z Ha Hb Hz. apply Htrans; now right.
    + unfold sort in *. simpl. rewrite E1, E2.
      apply insert_sorted_around.
      * rewrite <- E1. apply sort_ordered.
        intros a b Ha Hb. apply Hasym; now right.
      * intros z Hz. apply Htrans.
        -- now left.
        -- right. apply in_or_app. right. now left.
        -- right. apply (Permutation_in z (sort_perm f (l1 ++ c :: l2))).
           fold (sort f (l1 ++ c :: l2)). unfold sort. rewrite E1.
           apply in_or_app. right. now right.
Qed.
End SortRemoval.

Lemma keyed_In_get (m : JSMap.t CRDTChar.t) (k : option string)
    (c : CRDTChar.t) :
  NoDup (JSMap.keys m) -> In (k, c) m -> JSMap.get k m = Some c.
Proof.
  induction m as [|[k' c'] m IH]; simpl; intros Hnd Hin; [contradiction|].
  apply NoDup_cons_iff in Hnd. destruct Hnd as [Hnot Hnd].
  destruct Hin as [E | Hin].
  - injection E as -> ->. now rewrite same_refl.
  - destruct (same k' k) eqn:E.
    + apply same_spec in E. subst k'. exfalso. apply Hnot.
      apply (in_map fst) in Hin. exact Hin.
    + now apply IH.
Qed.

Lemma keyed_values (m : JSMap.t CRDTChar.t) (c : CRDTChar.t) :
  keyed m -> In c (JSMap.values m) -> In (CRDTChar.id c, c) m.
Proof.
  intros [Hid _] Hin. unfold JSMap.values in Hin. apply in_map_iff in Hin.
  destruct Hin as ([k c'] & E & Hin). simpl in E. subst c'.
  rewrite Forall_forall in Hid. specialize (Hid _ Hin). simpl in Hid.
  now rewrite Hid.
Qed.

Lemma keyed_values_NoDup (m : JSMap.t CRDTChar.t) :
  keyed m -> NoDup (JSMap.values m).
Proof.
  intros [Hid Hnd]. induction m as [|[k c] m IH]; simpl; [constructor|].
  apply Forall_cons_iff in Hid. destruct Hid as [Hk Hid]. simpl in Hk.
  apply NoDup_cons_iff in Hnd. destruct Hnd as [Hnot Hnd].
  constructor; [|now apply IH].
  intros Hin. apply Hnot.
  pose proof (keyed_values m c (conj Hid Hnd) Hin) as Hin'.
  rewrite Hk in Hin'. apply (in_map fst) in Hin'. exact Hin'.
Qed.

(** Where a mutation by key lands in a map without repeated keys. *)
Lemma mutate_split {V : Type} (m : JSMap.t V) (k : option string) (v : V)
    (f : V -> V) :
  JSMap.get k m = Some v ->
  exists m1 m2,
    m = (m1 ++ (k, v) :: m2)%list
    /\ JSMap.mutate k f m = (m1 ++ (k, f v) :: m2)%list.
Proof.
  induction m as [|[k' v'] m IH]; simpl; [discriminate|].
  destruct (same k' k) eqn:E.
  - apply same_spec in E. subst k'. intros [= ->].
    exists [], m. now split.
  - intros Hg. destruct (IH Hg) as (m1 & m2 & E1 & E2).
    exists ((k', v') :: m1), m2. simpl. now rewrite <- E1, E2.
Qed.

Lemma nth_error_NoDup_middle {A : Type} (s1 s2 : list A) (c : A) (i : nat) :
  NoDup (s1 ++ c :: s2) -> nth_error (s1 ++ c :: s2) i = Some c ->
  i = List.length s1.
Proof.
  intros Hnd Hnth.
  apply (proj1 (NoDup_nth_error (s1 ++ c :: s2)) Hnd).
  - apply nth_error_Some. congruence.
  - rewrite Hnth. rewrite nth_error_app2 by lia.
    now rewrite Nat.sub_diag.
Qed.

Lemma without_middle {A : Type} (s1 s2 : list A) (c : A) :
  without (List.length s1) (s1 ++ c :: s2) = (s1 ++ s2)%list.
Proof.
  unfold without. induction s1 as [|y s1 IH]; simpl; [reflexivity|].
  f_equal. exact IH.
Qed.

Section Deleting.
Context `{Collation}.

(** X13. [deleteChar] at a valid index removes exactly the character
    shown there, provided the comparator ranks the visible characters
    consistently: the character becomes a tombstone under its key and the
    other visible characters keep their order. *)
Theorem X13_deleteChar_removes (e : CRDTEngine.t) (i : Z) (h : Host)
    (c : CRDTChar.t) :
  let sorted := CRDTEngine.getSortedVisibleChars e in
  keyed (CRDTEngine.characters e) ->
  consistent sorted ->
  0 <= i ->
  nth_error sorted (Z.to_nat i) = Some c ->
  CRDTEngine.applied
    (fst (generateOperationId (CRDTEngine.clientId e) h))
    (CRDTEngine.operations e) = false ->
  let erased := CRDTEngine.deleteChar e i h in
  let e' := snd (fst erased) in
  fst (fst erased) = Some (deleteOperation e c h)
  /\ CRDTEngine.characters e' =
     JSMap.mutate (CRDTChar.id c) CRDTChar.tombstone (CRDTEngine.characters e)
  /\ CRDTEngine.getSortedVisibleChars e' = without (Z.to_nat i) sorted
  /\ CRDTEngine.getVisibleContent e' =
     join (map CRDTChar.char (without (Z.to_nat i) sorted)).
Proof.
  cbv zeta. intros Hkeyed [Hasym Htrans] Hi Hnth Hnew.
  rewrite (deleteChar_run e i h c Hi Hnth). cbv zeta. cbn [fst snd].
  rewrite applyOperation_delete by (try reflexivity; exact Hnew).
  cbn [fst snd].
  assert (Hvis : In c (visible (CRDTEngine.characters e))).
  { apply (Permutation_in _ (sorted_visible e)).
    eapply nth_error_In; eassumption. }
  unfold visible in Hvis. apply filter_In in Hvis.
  destruct Hvis as [Hstored Hlive]. apply negb_true_iff in Hlive.
  pose proof (keyed_values _ _ Hkeyed Hstored) as Hentry.
  pose proof (keyed_In_get _ _ _ (proj2 Hkeyed) Hentry) as Hget.
  assert (Hdel : CRDTEngine.applyDelete (deleteOperation e c h)
                   (CRDTEngine.characters e) =
                 JSMap.mutate (CRDTChar.id c) CRDTChar.tombstone
                   (CRDTEngine.characters e)).
  { unfold CRDTEngine.applyDelete.
    change (CRDTOperation.charId (deleteOperation e c h)) with (CRDTChar.id c).
    rewrite Hget. now apply set_mutate_same. }
  rewrite Hdel.
  split; [reflexivity|]. split; [reflexivity|].
  destruct (mutate_split _ _ _ CRDTChar.tombstone Hget)
    as (m1 & m2 & Hm & Hmut).
  assert (Hsorted :
    CRDTEngine.getSortedVisibleChars
      (stepped e (deleteOperation e c h)
         (JSMap.mutate (CRDTChar.id c) CRDTChar.tombstone
            (CRDTEngine.characters e))) =
    without (Z.to_nat i) (CRDTEngine.getSortedVisibleChars e)).
  { rewrite sorted_stepped, Hmut.
    assert (Hbefore : visible (CRDTEngine.characters e) =
                      (visible m1 ++ c :: visible m2)%list).
    { rewrite Hm. unfold visible. rewrite values_app, filter_app. simpl.
      now rewrite Hlive. }
    assert (Hafter : visible (m1 ++ (CRDTChar.id c, CRDTChar.tombstone c) :: m2)%list
                     = (visible m1 ++ visible m2)%list).
    { unfold visible. rewrite values_app, filter_app. reflexivity. }
    rewrite Hafter.
    assert (Hmem : forall a, In a (visible m1 ++ c :: visible m2)%list ->
                             In a (CRDTEngine.getSortedVisibleChars e)).
    { intros a Ha. rewrite <- Hbefore in Ha.
      apply (Permutation_in a (Permutation_sym (sorted_visible e))).
      exact Ha. }
    destruct (sort_around
                (fun a b => comparePositions (CRDTChar.position a)
                              (CRDTChar.position b))
                c (visible m1) (visible m2)) as (s1 & s2 & E1 & E2).
    - intros a b Ha Hb. apply Hasym; now apply Hmem.
    - intros a b z Ha Hb Hz. apply Htrans; now apply Hmem.
    - rewrite E2.
      assert (Hs : CRDTEngine.getSortedVisibleChars e = (s1 ++ c :: s2)%list).
      { unfold CRDTEngine.getSortedVisibleChars.
        fold (visible (CRDTEngine.characters e)). now rewrite Hbefore. }
      rewrite Hs in Hnth |- *.
      assert (Hnd : NoDup (s1 ++ c :: s2)).
      { rewrite <- Hs.
        apply (Permutation_NoDup (Permutation_sym (sorted_visible e))).
        apply NoDup_filter. now apply keyed_values_NoDup. }
      rewrite (nth_error_NoDup_middle s1 s2 c _ Hnd Hnth).
      symmetry. apply without_middle. }
  split; [exact Hsorted|].
  now rewrite content_sorted, Hsorted.
Qed.
End Deleting.


Section Consistency.
Context `{Collation}.

Lemma behind_self (a b : CRDTChar.t) :
  (forall p, positive (localeCompare p p) = false) ->
  CRDTChar.position a = CRDTChar.position b -> behind a b = false.
Proof.
  intros Hirr E. unfold behind. rewrite E.
  set (p := CRDTChar.position b). unfold comparePositions.
  destruct ((List.length (split_dot p) =? 1)%nat
            && (List.length (split_dot p) =? 1)%nat).
  - destruct (parseFloat p); simpl; [reflexivity|].
    rewrite Z.sub_diag. reflexivity.
  - fold (numericPart p).
    destruct (numericPart p) as [|x]; simpl; [reflexivity|].
    rewrite Z.eqb_refl. simpl.
    destruct (hasSubPosition (split_dot p)); simpl; apply Hirr.
Qed.

(** Characters whose keys start with numbers, equal only for equal keys,
    are ranked consistently by any collation that puts no key behind
    itself. *)
Lemma consistent_by_heads (l : list CRDTChar.t) :
  (forall p, positive (localeCompare p p) = false) ->
  (forall a, In a l ->
     exists m, numericPart (CRDTChar.position a) = of_Z m) ->
  (forall a b, In a l -> In b l ->
     numericPart (CRDTChar.position a) = numericPart (CRDTChar.position b) ->
     CRDTChar.position a = CRDTChar.position b) ->
  consistent l.
Proof.
  intros Hirr Hnum Hsame.
  assert (Hcmp : forall a b x y, In a l -> In b l ->
            numericPart (CRDTChar.position a) = of_Z x ->
            numericPart (CRDTChar.position b) = of_Z y ->
            behind a b = (y <? x)).
  { intros a b x y Ha Hb Hx Hy.
    destruct (Z.eq_dec x y) as [->|Hne].
    - rewrite behind_self; [symmetry; apply Z.ltb_irrefl | exact Hirr |].
      apply Hsame; congruence.
    - unfold behind.
      rewrite (comparePositions_differ _ _ (2 * x) (2 * y));
        [| exact Hx | exact Hy | lia].
      unfold positive.
      destruct (Z.ltb_spec 0 (2 * x - 2 * y)), (Z.ltb_spec y x);
        try reflexivity; lia. }
  split.
  - intros a b Ha Hb.
    destruct (Hnum a Ha) as (x & Hx). destruct (Hnum b Hb) as (y & Hy).
    rewrite (Hcmp a b x y), (Hcmp b a y x) by assumption.
    intros E. apply Z.ltb_lt in E. apply Z.ltb_ge. lia.
  - intros a b c Ha Hb Hc.
    destruct (Hnum a Ha) as (x & Hx). destruct (Hnum b Hb) as (y & Hy).
    destruct (Hnum c Hc) as (z & Hz).
    rewrite (Hcmp a b x y), (Hcmp b c y z), (Hcmp a c x z) by assumption.
    intros E1 E2. apply Z.ltb_ge in E1, E2. apply Z.ltb_ge. lia.
Qed.
End Consistency.


(** ** The undo/redo manager over any sequence of calls *)

Lemma FieldType_eq_dec (a b : FieldType.t) : {a = b} + {a <> b}.
Proof. decide equality. Qed.

Lemma state_with_state_other (m : UndoRedoManager.t) (f g : FieldType.t)
    (s : UndoRedoState) :
  g <> f ->
  UndoRedoManager.state (UndoRedoManager.with_state m f s) g =
  UndoRedoManager.state m g.
Proof. destruct f, g; intros Hne; try reflexivity; contradiction. Qed.

Lemma with_state_twice (m : UndoRedoManager.t) (f : FieldType.t)
    (a b : UndoRedoState) :
  UndoRedoManager.with_state (UndoRedoManager.with_state m f a) f b =
  UndoRedoManager.with_state m f b.
Proof. destruct f; reflexivity. Qed.

Lemma with_state_same (m : UndoRedoManager.t) (f : FieldType.t) :
  UndoRedoManager.with_state m f (UndoRedoManager.state m f) = m.
Proof. destruct m as [[a b c d] cfg u doc], f; reflexivity. Qed.

Lemma rewrites_refl (m : UndoRedoManager.t) (f : FieldType.t) : rewrites m m f.
Proof. unfold rewrites. now rewrite with_state_same. Qed.

Lemma rewrites_with (m : UndoRedoManager.t) (f : FieldType.t)
    (s : UndoRedoState) :
  rewrites m (UndoRedoManager.with_state m f s) f.
Proof. unfold rewrites. now rewrite state_with_state. Qed.

Lemma rewrites_trans (m1 m2 m3 : UndoRedoManager.t) (f : FieldType.t) :
  rewrites m1 m2 f -> rewrites m2 m3 f -> rewrites m1 m3 f.
Proof.
  unfold rewrites. intros H12 H23. rewrite H23 at 1. rewrite H12.
  now rewrite with_state_twice.
Qed.

Lemma rewrites_other (m m' : UndoRedoManager.t) (f g : FieldType.t) :
  rewrites m m' f -> g <> f ->
  UndoRedoManager.state m' g = UndoRedoManager.state m g.
Proof.
  unfold rewrites. intros Hr Hne. rewrite Hr.
  now apply state_with_state_other.
Qed.

Lemma rewrites_ids (m m' : UndoRedoManager.t) (f : FieldType.t) :
  rewrites m m' f ->
  UndoRedoManager.userId m' = UndoRedoManager.userId m
  /\ UndoRedoManager.documentId m' = UndoRedoManager.documentId m
  /\ UndoRedoManager.config m' = UndoRedoManager.config m.
Proof. unfold rewrites. intros ->. now destruct f. Qed.

Ltac draw_ids :=
  cbv beta iota zeta delta [bind ret generateOperationId now random36].

(** ** finalizeBatch *)
Lemma finalizeBatch_rewrites (m : UndoRedoManager.t) (f : FieldType.t)
    (h : Host) :
  rewrites m (fst (UndoRedoManager.finalizeBatch m f h)) f.
Proof.
  unfold UndoRedoManager.finalizeBatch.
  destruct (currentBatch (UndoRedoManager.state m f)) as [[|op batch]|];
    try apply rewrites_refl.
  draw_ids. apply rewrites_with.
Qed.

Lemma Forall_tl {A : Type} (P : A -> Prop) (l : list A) :
  Forall P l -> Forall P (tl l).
Proof. intros Hl. destruct l; [assumption | now inversion Hl]. Qed.

Lemma finalizeBatch_tidy (m : UndoRedoManager.t) (f : FieldType.t)
    (h : Host) :
  let user := UndoRedoManager.userId m in
  let max := cfg_maxUndoSteps (UndoRedoManager.config m) in
  tidy user max f (UndoRedoManager.state m f) ->
  let st' := UndoRedoManager.state
               (fst (UndoRedoManager.finalizeBatch m f h)) f in
  tidy user max f st'
  /\ currentBatch st' = None
  /\ redoStack st' = redoStack (UndoRedoManager.state m f).
Proof.
  cbv zeta. intros (Hundo & Hredo & Hlen & Hbatch).
  unfold UndoRedoManager.finalizeBatch.
  destruct (currentBatch (UndoRedoManager.state m f)) as [[|op batch]|] eqn:E.
  - destruct Hbatch as [Hne _]. contradiction.
  - draw_ids. cbn [fst]. rewrite state_with_state.
    destruct Hbatch as (_ & Hr & Hown & Huni).
    split; [|split; reflexivity].
    set (step := mkUndoStep _ _ _ _ _ _).
    assert (Hstep : wellStep (UndoRedoManager.userId m) f step).
    { unfold wellStep, step. cbn [step_operations step_field step_userId
        step_description].
      split; [discriminate|]. split; [assumption|]. split; [assumption|].
      repeat split. }
    assert (Hpushed : Forall (wellStep (UndoRedoManager.userId m) f)
                        (undoStack (UndoRedoManager.state m f) ++ [step])).
    { apply Forall_app. split; [assumption | now constructor]. }
    assert (Hbound : 0 <= cfg_maxUndoSteps (UndoRedoManager.config m) ->
              Z.of_nat (List.length
                (if cfg_maxUndoSteps (UndoRedoManager.config m)
                    <? Z.of_nat (List.length
                         (undoStack (UndoRedoManager.state m f) ++ [step]))
                 then tl (undoStack (UndoRedoManager.state m f) ++ [step])
                 else (undoStack (UndoRedoManager.state m f) ++ [step])%list))
              <= cfg_maxUndoSteps (UndoRedoManager.config m)).
    { intros Hmax. specialize (Hlen Hmax).
      destruct (Z.ltb_spec (cfg_maxUndoSteps (UndoRedoManager.config m))
                  (Z.of_nat (List.length
                     (undoStack (UndoRedoManager.state m f) ++ [step]))));
        [|assumption].
      destruct (undoStack (UndoRedoManager.state m f)) as [|s0 stack];
        simpl in *; [lia|].
      rewrite length_app in *. simpl in *. lia. }
    unfold tidy. cbn [undoStack redoStack currentBatch].
    split; [|split; [|split]].
    + destruct (_ <? _); [now apply Forall_tl | assumption].
    + assumption.
    + exact Hbound.
    + intros Hmax. rewrite Hr. simpl. rewrite Nat.add_0_r. now apply Hbound.
  - cbn [ret fst]. rewrite E.
    split; [|split; reflexivity].
    unfold tidy. rewrite E. auto.
Qed.

(** ** trackOperation *)
Lemma last_Some {A : Type} (l : list A) (x : A) :
  last (map Some (l ++ [x])) None = Some x.
Proof.
  induction l as [|y l IH]; [reflexivity|].
  simpl. destruct (map Some (l ++ [x])) eqn:E; [|exact IH].
  destruct l; discriminate.
Qed.

Lemma shouldBatchOperation_type (m : UndoRedoManager.t) (f : FieldType.t)
    (op : CRDTOperation.t) (h : Host) (rest : list CRDTOperation.t)
    (x : CRDTOperation.t) :
  currentBatch (UndoRedoManager.state m f) = Some (rest ++ [x])%list ->
  fst (UndoRedoManager.shouldBatchOperation m f op h) = true ->
  CRDTOperation.type op = CRDTOperation.type x.
Proof.
  unfold UndoRedoManager.shouldBatchOperation. intros ->.
  rewrite last_Some. unfold bind.
  match goal with
  | |- context [let (_, _) := ?X in _] => destruct X as [[|] h']
  end; simpl; [discriminate|].
  destruct (CRDTOperation.type op), (CRDTOperation.type x);
    simpl; congruence.
Qed.

Lemma uniform_snoc (batch : list CRDTOperation.t) (op : CRDTOperation.t) :
  uniform batch ->
  (forall rest x, batch = (rest ++ [x])%list ->
                  CRDTOperation.type op = CRDTOperation.type x) ->
  uniform (batch ++ [op]).
Proof.
  intros Huni Hlast.
  assert (Hall : forall a, In a batch ->
                   CRDTOperation.type a = CRDTOperation.type op).
  { destruct batch as [|b0 batch] using rev_ind; [contradiction|].
    intros a Ha. rewrite (Hlast _ _ eq_refl).
    apply Huni; [exact Ha|]. apply in_or_app. right. now left. }
  intros a b Ha Hb. apply in_app_or in Ha, Hb.
  destruct Ha as [Ha|[<-|[]]], Hb as [Hb|[<-|[]]].
  - now apply Huni.
  - now apply Hall.
  - symmetry. now apply Hall.
  - reflexivity.
Qed.

Lemma uniform_one (op : CRDTOperation.t) : uniform [op].
Proof. intros a b [<-|[]] [<-|[]]. reflexivity. Qed.

Lemma own_with_metadata (user : string) (op : CRDTOperation.t)
    (md : CRDTOperation.UndoRedoMetadata) :
  CRDTOperation.clientId op = user ->
  own user (CRDTOperation.field op) [UndoRedoManager.with_metadata op md].
Proof. intros Hc. constructor; [now split | constructor]. Qed.

Lemma createNewBatch_state (m : UndoRedoManager.t) (f : FieldType.t)
    (ops : list CRDTOperation.t) (h : Host) :
  exists start,
    let m1 := fst (closeOpenBatch m f h) in
    fst (UndoRedoManager.createNewBatch m f ops h) =
    UndoRedoManager.with_state m1 f
      (mkUndoRedoState (undoStack (UndoRedoManager.state m1 f))
         (redoStack (UndoRedoManager.state m1 f)) (Some ops) (Some start)
         true).
Proof.
  unfold UndoRedoManager.createNewBatch. fold (closeOpenBatch m f).
  unfold bind at 1. destruct (closeOpenBatch m f h) as [m1 h1].
  exists (clock h1 (ticks h1)). reflexivity.
Qed.

Lemma closeOpenBatch_rewrites (m : UndoRedoManager.t) (f : FieldType.t)
    (h : Host) :
  rewrites m (fst (closeOpenBatch m f h)) f.
Proof.
  unfold closeOpenBatch.
  destruct (currentBatch (UndoRedoManager.state m f));
    [apply finalizeBatch_rewrites | apply rewrites_refl].
Qed.

Lemma closeOpenBatch_tidy (m : UndoRedoManager.t) (f : FieldType.t)
    (h : Host) :
  let user := UndoRedoManager.userId m in
  let max := cfg_maxUndoSteps (UndoRedoManager.config m) in
  tidy user max f (UndoRedoManager.state m f) ->
  let st' := UndoRedoManager.state (fst (closeOpenBatch m f h)) f in
  tidy user max f st'
  /\ currentBatch st' = None
  /\ redoStack st' = redoStack (UndoRedoManager.state m f).
Proof.
  cbv zeta. intros Ht. unfold closeOpenBatch.
  destruct (currentBatch (UndoRedoManager.state m f)) eqn:E.
  - now apply finalizeBatch_tidy.
  - cbn [ret fst]. now rewrite E.
Qed.

Lemma closeOpenBatch_closed (m : UndoRedoManager.t) (f : FieldType.t)
    (h : Host) :
  currentBatch (UndoRedoManager.state m f) = None ->
  closeOpenBatch m f h = (m, h).
Proof. unfold closeOpenBatch. now intros ->. Qed.

(** The state of the operation's field once an own operation is tracked. *)
Lemma trackOperation_state (m : UndoRedoManager.t) (op : CRDTOperation.t)
    (h : Host) :
  CRDTOperation.clientId op = UndoRedoManager.userId m ->
  let f := CRDTOperation.field op in
  let m' := fst (UndoRedoManager.trackOperation m op h) in
  rewrites m m' f
  /\ exists md start,
      let opM := UndoRedoManager.with_metadata op md in
      (exists batch,
          currentBatch (UndoRedoManager.state m f) = Some batch
          /\ (forall rest x, batch = (rest ++ [x])%list ->
                CRDTOperation.type op = CRDTOperation.type x)
          /\ UndoRedoManager.state m' f =
             mkUndoRedoState (undoStack (UndoRedoManager.state m f)) []
               (Some (batch ++ [opM])%list) start true)
      \/ (exists h1,
            let m1 := fst (closeOpenBatch m f h1) in
            UndoRedoManager.state m' f =
            mkUndoRedoState (undoStack (UndoRedoManager.state m1 f)) []
              (Some [opM]) start true).
Proof.
  intros Hown. cbv zeta.
  destruct (UndoRedoManager.trackOperation m op h) as [m' hEnd] eqn:Hrun.
  cbn [fst]. revert Hrun. unfold UndoRedoManager.trackOperation.
  rewrite Hown, String.eqb_refl. cbn [negb].
  unfold bind at 1.
  destruct (UndoRedoManager.getCurrentBatchId m (CRDTOperation.field op) h)
    as [bid h1].
  set (md := CRDTOperation.mkMetadata true None (Some bid)).
  unfold bind at 1.
  destruct ((if cfg_enableBatching (UndoRedoManager.config m)
             then UndoRedoManager.shouldBatchOperation m
                    (CRDTOperation.field op) op
             else ret false) h1) as [joins h2] eqn:Hjoins.
  assert (Hnew : forall h2,
    let m' := UndoRedoManager.clearRedoStack
                (fst (UndoRedoManager.createNewBatch m (CRDTOperation.field op)
                        [UndoRedoManager.with_metadata op md] h2))
                (CRDTOperation.field op) in
    rewrites m m' (CRDTOperation.field op)
    /\ exists start h1,
        UndoRedoManager.state m' (CRDTOperation.field op) =
        mkUndoRedoState
          (undoStack (UndoRedoManager.state
                        (fst (closeOpenBatch m (CRDTOperation.field op) h1))
                        (CRDTOperation.field op)))
          [] (Some [UndoRedoManager.with_metadata op md]) start true).
  { intros h'. cbv zeta.
    destruct (createNewBatch_state m (CRDTOperation.field op)
                [UndoRedoManager.with_metadata op md] h')
      as (start & ->).
    unfold UndoRedoManager.clearRedoStack.
    rewrite with_state_twice, state_with_state. cbn [undoStack redoStack
      currentBatch batchStartTime batchTimeout].
    split.
    - eapply rewrites_trans; [apply closeOpenBatch_rewrites|].
      apply rewrites_with.
    - exists (Some start), h'. now rewrite state_with_state. }
  assert (Hfresh : forall h2 m1 h3,
    UndoRedoManager.createNewBatch m (CRDTOperation.field op)
      [UndoRedoManager.with_metadata op md] h2 = (m1, h3) ->
    forall m', UndoRedoManager.clearRedoStack m1 (CRDTOperation.field op) = m' ->
    rewrites m m' (CRDTOperation.field op)
    /\ exists md0 start,
        (exists batch,
            currentBatch (UndoRedoManager.state m (CRDTOperation.field op))
            = Some batch
            /\ (forall rest x, batch = (rest ++ [x])%list ->
                   CRDTOperation.type op = CRDTOperation.type x)
            /\ UndoRedoManager.state m' (CRDTOperation.field op) =
               mkUndoRedoState
                 (undoStack (UndoRedoManager.state m (CRDTOperation.field op)))
                 [] (Some (batch ++ [UndoRedoManager.with_metadata op md0])%list)
                 start true)
        \/ (exists h1,
              UndoRedoManager.state m' (CRDTOperation.field op) =
              mkUndoRedoState
                (undoStack
                   (UndoRedoManager.state
                      (fst (closeOpenBatch m (CRDTOperation.field op) h1))
                      (CRDTOperation.field op)))
                [] (Some [UndoRedoManager.with_metadata op md0]) start true)).
  { intros h2' m1 h3 Hc m0 <-.
    pose proof (Hnew h2') as Hn. cbv zeta in Hn. rewrite Hc in Hn.
    destruct Hn as (Hr & start & h1' & Hs).
    split; [exact Hr|]. exists md, start. right. exists h1'. exact Hs. }
  destruct joins.
  - unfold UndoRedoManager.addToBatch.
    destruct (currentBatch (UndoRedoManager.state m (CRDTOperation.field op)))
      as [batch|] eqn:E.
    + unfold bind, ret. intros [= <- _].
      unfold UndoRedoManager.clearRedoStack.
      rewrite with_state_twice, state_with_state. cbn [undoStack redoStack
        currentBatch batchStartTime batchTimeout].
      split; [apply rewrites_with|].
      exists md, (batchStartTime
                    (UndoRedoManager.state m (CRDTOperation.field op))).
      left. exists batch. split; [reflexivity|]. split.
      * intros rest x ->.
        destruct (cfg_enableBatching (UndoRedoManager.config m));
          [|discriminate].
        apply (shouldBatchOperation_type m _ op h1 rest x E).
        now rewrite Hjoins.
      * now rewrite state_with_state.
    + unfold bind at 1.
      destruct (UndoRedoManager.createNewBatch m (CRDTOperation.field op)
                  [UndoRedoManager.with_metadata op md] h2) as [m1 h3] eqn:Hc.
      unfold ret. intros [= <- _]. now apply (Hfresh h2 m1 h3).
  - unfold bind at 1.
    destruct (UndoRedoManager.createNewBatch m (CRDTOperation.field op)
                [UndoRedoManager.with_metadata op md] h2) as [m1 h3] eqn:Hc.
    unfold ret. intros [= <- _]. now apply (Hfresh h2 m1 h3).
Qed.

Lemma trackOperation_foreign (m : UndoRedoManager.t) (op : CRDTOperation.t)
    (h : Host) :
  CRDTOperation.clientId op <> UndoRedoManager.userId m ->
  UndoRedoManager.trackOperation m op h = (m, h).
Proof.
  intros Hne. unfold UndoRedoManager.trackOperation.
  destruct (String.eqb_spec (CRDTOperation.clientId op)
              (UndoRedoManager.userId m)); [contradiction | reflexivity].
Qed.

Lemma trackOperation_rewrites (m : UndoRedoManager.t) (op : CRDTOperation.t)
    (h : Host) :
  rewrites m (fst (UndoRedoManager.trackOperation m op h))
    (CRDTOperation.field op).
Proof.
  destruct (String.eqb_spec (CRDTOperation.clientId op)
              (UndoRedoManager.userId m)) as [Hown|Hne].
  - apply (trackOperation_state m op h Hown).
  - rewrite trackOperation_foreign by assumption. apply rewrites_refl.
Qed.

Lemma trackOperation_tidy (m : UndoRedoManager.t) (op : CRDTOperation.t)
    (h : Host) :
  let user := UndoRedoManager.userId m in
  let max := cfg_maxUndoSteps (UndoRedoManager.config m) in
  let f := CRDTOperation.field op in
  tidy user max f (UndoRedoManager.state m f) ->
  tidy user max f
    (UndoRedoManager.state (fst (UndoRedoManager.trackOperation m op h)) f).
Proof.
  cbv zeta. intros Ht.
  destruct (String.eqb_spec (CRDTOperation.clientId op)
              (UndoRedoManager.userId m)) as [Hown|Hne];
    [|now rewrite trackOperation_foreign].
  destruct (trackOperation_state m op h Hown) as (_ & md & start & Hcase).
  cbv zeta in Hcase.
  destruct Hcase as [(batch & E & Hty & ->) | (h1 & ->)].
  - destruct Ht as (Hundo & Hredo & Hlen & Hbatch). rewrite E in Hbatch.
    destruct Hbatch as (Hne & Hr & Hownb & Huni).
    unfold tidy. cbn [undoStack redoStack currentBatch].
    split; [assumption|]. split; [constructor|]. split; [assumption|].
    split; [destruct batch; discriminate|]. split; [reflexivity|]. split.
    + apply Forall_app. split; [assumption|].
      now apply own_with_metadata.
    + apply uniform_snoc; assumption.
  - destruct (closeOpenBatch_tidy m (CRDTOperation.field op) h1 Ht)
      as ((Hundo & Hredo & Hlen & _) & _ & _).
    unfold tidy. cbn [undoStack redoStack currentBatch].
    split; [assumption|]. split; [constructor|]. split; [assumption|].
    split; [discriminate|]. split; [reflexivity|]. split.
    + now apply own_with_metadata.
    + apply uniform_one.
Qed.

(** ** undo and redo *)
Lemma pop_spec {A : Type} (stack : list A) :
  match UndoRedoManager.pop stack with
  | Some (top, below) => stack = (below ++ [top])%list
  | None => stack = []
  end.
Proof.
  destruct stack as [|x stack] using rev_ind; [reflexivity|].
  now rewrite pop_last.
Qed.

Lemma undo_state (m : UndoRedoManager.t) (f : FieldType.t) (h : Host) :
  let m' := snd (fst (UndoRedoManager.undo m f h)) in
  (fst (fst (UndoRedoManager.undo m f h)) = None /\ m' = m
   /\ undoStack (UndoRedoManager.state m f) = [])
  \/ (fst (fst (UndoRedoManager.undo m f h)) = None
      /\ m' = fst (closeOpenBatch m f h)
      /\ undoStack (UndoRedoManager.state m' f) = [])
  \/ (exists ops rest step,
        let st := UndoRedoManager.state (fst (closeOpenBatch m f h)) f in
        fst (fst (UndoRedoManager.undo m f h)) = Some ops
        /\ undoStack (UndoRedoManager.state m f) <> []
        /\ undoStack st = (rest ++ [step])%list
        /\ m' = UndoRedoManager.with_state (fst (closeOpenBatch m f h)) f
                  (mkUndoRedoState rest (redoStack st ++ [step])%list
                     (currentBatch st) (batchStartTime st) (batchTimeout st))).
Proof.
  cbv zeta.
  destruct (UndoRedoManager.undo m f h) as [[res m'] hEnd] eqn:Hrun.
  cbn [fst snd]. revert Hrun. unfold UndoRedoManager.undo.
  destruct (undoStack (UndoRedoManager.state m f)) as [|s0 stack] eqn:E.
  - intros [= <- <- _]. left. auto.
  - right. revert Hrun. fold (closeOpenBatch m f). unfold bind at 1.
    destruct (closeOpenBatch m f h) as [m1 h1]. cbn [fst].
    pose proof (pop_spec (undoStack (UndoRedoManager.state m1 f))) as Hpop.
    destruct (UndoRedoManager.pop (undoStack (UndoRedoManager.state m1 f)))
      as [[step rest]|].
    + right. revert Hrun. unfold bind, ret.
      destruct (UndoRedoManager.generateInverseOperations m1
                  (step_operations step) h1) as [ops h2].
      intros [= <- <- _].
      exists ops, rest, step. cbv zeta.
      split; [reflexivity|]. split; [discriminate|].
      split; [exact Hpop | reflexivity].
    + left. revert Hrun. unfold ret. intros [= <- <- _]. auto.
Qed.

Lemma undo_rewrites (m : UndoRedoManager.t) (f : FieldType.t) (h : Host) :
  rewrites m (snd (fst (UndoRedoManager.undo m f h))) f.
Proof.
  destruct (undo_state m f h)
    as [(_ & -> & _) | [(_ & -> & _) | (ops & rest & step & _ & _ & _ & ->)]].
  - apply rewrites_refl.
  - apply closeOpenBatch_rewrites.
  - eapply rewrites_trans; [apply closeOpenBatch_rewrites|].
    apply rewrites_with.
Qed.

Lemma undo_tidy (m : UndoRedoManager.t) (f : FieldType.t) (h : Host) :
  let user := UndoRedoManager.userId m in
  let max := cfg_maxUndoSteps (UndoRedoManager.config m) in
  tidy user max f (UndoRedoManager.state m f) ->
  tidy user max f
    (UndoRedoManager.state (snd (fst (UndoRedoManager.undo m f h))) f).
Proof.
  cbv zeta. intros Ht.
  destruct (closeOpenBatch_tidy m f h Ht) as (Ht1 & Hb1 & Hr1).
  destruct (undo_state m f h)
    as [(_ & -> & _) | [(_ & -> & _) | (ops & rest & step & _ & _ & E & ->)]];
    try assumption.
  cbv zeta in E. rewrite state_with_state.
  destruct Ht1 as (Hundo & Hredo & Hlen & Hbatch).
  rewrite Hb1 in Hbatch |- *. rewrite E in Hundo, Hlen, Hbatch.
  apply Forall_app in Hundo. destruct Hundo as [Hrest Hstep].
  unfold tidy. cbn [undoStack redoStack currentBatch].
  rewrite length_app in Hlen, Hbatch. simpl in Hlen, Hbatch.
  repeat split.
  - assumption.
  - apply Forall_app. now split.
  - intros Hmax. specialize (Hlen Hmax). lia.
  - intros Hmax. specialize (Hbatch Hmax). rewrite length_app. simpl. lia.
Qed.

Lemma redo_state (m : UndoRedoManager.t) (f : FieldType.t) (h : Host) :
  let st := UndoRedoManager.state m f in
  let m' := snd (fst (UndoRedoManager.redo m f h)) in
  (fst (fst (UndoRedoManager.redo m f h)) = None /\ m' = m
   /\ redoStack st = [])
  \/ (exists ops rest step,
        fst (fst (UndoRedoManager.redo m f h)) = Some ops
        /\ redoStack st = (rest ++ [step])%list
        /\ m' = UndoRedoManager.with_state m f
                  (mkUndoRedoState (undoStack st ++ [step])%list rest
                     (currentBatch st) (batchStartTime st) (batchTimeout st))).
Proof.
  cbv zeta.
  destruct (UndoRedoManager.redo m f h) as [[res m'] hEnd] eqn:Hrun.
  cbn [fst snd]. revert Hrun. unfold UndoRedoManager.redo.
  pose proof (pop_spec (redoStack (UndoRedoManager.state m f))) as Hpop.
  destruct (UndoRedoManager.pop (redoStack (UndoRedoManager.state m f)))
    as [[step rest]|].
  - right. revert Hrun. unfold bind, ret.
    destruct (UndoRedoManager.createRedoOperations m (step_operations step) h)
      as [ops h2].
    intros [= <- <- _].
    exists ops, rest, step.
    split; [reflexivity|]. split; [exact Hpop | reflexivity].
  - left. revert Hrun. unfold ret. intros [= <- <- _]. auto.
Qed.

Lemma redo_rewrites (m : UndoRedoManager.t) (f : FieldType.t) (h : Host) :
  rewrites m (snd (fst (UndoRedoManager.redo m f h))) f.
Proof.
  destruct (redo_state m f h)
    as [(_ & -> & _) | (ops & rest & step & _ & _ & ->)].
  - apply rewrites_refl.
  - apply rewrites_with.
Qed.

Lemma redo_tidy (m : UndoRedoManager.t) (f : FieldType.t) (h : Host) :
  let user := UndoRedoManager.userId m in
  let max := cfg_maxUndoSteps (UndoRedoManager.config m) in
  tidy user max f (UndoRedoManager.state m f) ->
  tidy user max f
    (UndoRedoManager.state (snd (fst (UndoRedoManager.redo m f h))) f).
Proof.
  cbv zeta. intros Ht.
  destruct (redo_state m f h)
    as [(_ & -> & _) | (ops & rest & step & _ & E & ->)];
    try assumption.
  cbv zeta in E. rewrite state_with_state.
  destruct Ht as (Hundo & Hredo & Hlen & Hbatch).
  rewrite E in Hredo, Hbatch.
  apply Forall_app in Hredo. destruct Hredo as [Hrest Hstep].
  destruct (currentBatch (UndoRedoManager.state m f)) as [batch|] eqn:Eb.
  - destruct Hbatch as (_ & Hnil & _). destruct rest; discriminate.
  - unfold tidy. cbn [undoStack redoStack currentBatch].
    rewrite length_app in Hbatch. simpl in Hbatch.
    repeat split.
    + apply Forall_app. now split.
    + assumption.
    + intros Hmax. specialize (Hbatch Hmax). rewrite length_app. simpl. lia.
    + intros Hmax. specialize (Hbatch Hmax). rewrite length_app. simpl. lia.
Qed.

(** ** All calls *)
Lemma allTidy_rewrites (m m' : UndoRedoManager.t) (f : FieldType.t) :
  allTidy m -> rewrites m m' f ->
  tidy (UndoRedoManager.userId m)
    (cfg_maxUndoSteps (UndoRedoManager.config m)) f
    (UndoRedoManager.state m' f) ->
  allTidy m'.
Proof.
  intros Hall Hr Ht g.
  destruct (rewrites_ids m m' f Hr) as (-> & _ & ->).
  destruct (FieldType_eq_dec g f) as [->|Hne]; [exact Ht|].
  rewrite (rewrites_other m m' f g Hr Hne). apply Hall.
Qed.

Lemma finalizeBatch_allTidy (m : UndoRedoManager.t) (f : FieldType.t)
    (h : Host) :
  allTidy m -> allTidy (fst (UndoRedoManager.finalizeBatch m f h)).
Proof.
  intros Hall. eapply allTidy_rewrites; [exact Hall | |].
  - apply finalizeBatch_rewrites.
  - apply finalizeBatch_tidy, Hall.
Qed.

Lemma finalizeAllBatches_run (m : UndoRedoManager.t) (h : Host) :
  UndoRedoManager.finalizeAllBatches m h =
  let (m1, h1) := UndoRedoManager.finalizeBatch m FieldType.content h in
  let (m2, h2) := UndoRedoManager.finalizeBatch m1 FieldType.title h1 in
  let (m3, h3) := UndoRedoManager.finalizeBatch m2 FieldType.description h2 in
  UndoRedoManager.finalizeBatch m3 FieldType.tags h3.
Proof.
  unfold UndoRedoManager.finalizeAllBatches. simpl. unfold bind, ret.
  destruct (UndoRedoManager.finalizeBatch m FieldType.content h) as [m1 h1].
  destruct (UndoRedoManager.finalizeBatch m1 FieldType.title h1) as [m2 h2].
  destruct (UndoRedoManager.finalizeBatch m2 FieldType.description h2)
    as [m3 h3].
  reflexivity.
Qed.

Lemma act_allTidy (call : ManagerCall) (m : UndoRedoManager.t) (h : Host) :
  allTidy m -> allTidy (fst (act call m h)).
Proof.
  intros Hall. destruct call as [op | f | f | f |]; simpl.
  - eapply allTidy_rewrites; [exact Hall | |].
    + apply trackOperation_rewrites.
    + apply trackOperation_tidy, Hall.
  - unfold bind, ret.
    pose proof (undo_rewrites m f h) as Hr.
    pose proof (undo_tidy m f h (Hall f)) as Ht. cbv zeta in Ht.
    destruct (UndoRedoManager.undo m f h) as [[res m'] h'].
    cbn [fst snd] in *. eapply allTidy_rewrites; eassumption.
  - unfold bind, ret.
    pose proof (redo_rewrites m f h) as Hr.
    pose proof (redo_tidy m f h (Hall f)) as Ht. cbv zeta in Ht.
    destruct (UndoRedoManager.redo m f h) as [[res m'] h'].
    cbn [fst snd] in *. eapply allTidy_rewrites; eassumption.
  - now apply finalizeBatch_allTidy.
  - rewrite finalizeAllBatches_run.
    pose proof (finalizeBatch_allTidy m FieldType.content h Hall) as H1.
    destruct (UndoRedoManager.finalizeBatch m FieldType.content h) as [m1 h1].
    pose proof (finalizeBatch_allTidy m1 FieldType.title h1 H1) as H2.
    destruct (UndoRedoManager.finalizeBatch m1 FieldType.title h1) as [m2 h2].
    pose proof (finalizeBatch_allTidy m2 FieldType.description h2 H2) as H3.
    destruct (UndoRedoManager.finalizeBatch m2 FieldType.description h2)
      as [m3 h3].
    now apply finalizeBatch_allTidy.
Qed.

Lemma session_allTidy (calls : list ManagerCall) (m : UndoRedoManager.t)
    (h : Host) :
  allTidy m -> allTidy (fst (session calls m h)).
Proof.
  revert m h. induction calls as [|call calls IH]; intros m h Hall;
    [exact Hall|].
  simpl. unfold bind.
  pose proof (act_allTidy call m h Hall) as H1.
  destruct (act call m h) as [m1 h1]. now apply IH.
Qed.

Lemma new_allTidy (user doc : string) (cfg : UndoRedoConfig) :
  allTidy (UndoRedoManager.new user doc cfg).
Proof.
  intros f. destruct f; unfold tidy; simpl; repeat split; try constructor;
    intros; lia.
Qed.

Lemma act_ids (call : ManagerCall) (m : UndoRedoManager.t) (h : Host) :
  UndoRedoManager.userId (fst (act call m h)) = UndoRedoManager.userId m
  /\ UndoRedoManager.config (fst (act call m h)) = UndoRedoManager.config m.
Proof.
  assert (Hr : forall m m' f, rewrites m m' f ->
            UndoRedoManager.userId m' = UndoRedoManager.userId m
            /\ UndoRedoManager.config m' = UndoRedoManager.config m).
  { intros a b f Hab. destruct (rewrites_ids a b f Hab) as (? & _ & ?).
    now split. }
  destruct call as [op | f | f | f |]; simpl.
  - eapply Hr, trackOperation_rewrites.
  - unfold bind, ret. pose proof (undo_rewrites m f h) as Hu.
    destruct (UndoRedoManager.undo m f h) as [[res m'] h'].
    eapply Hr, Hu.
  - unfold bind, ret. pose proof (redo_rewrites m f h) as Hu.
    destruct (UndoRedoManager.redo m f h) as [[res m'] h'].
    eapply Hr, Hu.
  - eapply Hr, finalizeBatch_rewrites.
  - rewrite finalizeAllBatches_run.
    pose proof (Hr _ _ _ (finalizeBatch_rewrites m FieldType.content h)) as H1.
    destruct (UndoRedoManager.finalizeBatch m FieldType.content h) as [m1 h1].
    pose proof (Hr _ _ _ (finalizeBatch_rewrites m1 FieldType.title h1)) as H2.
    destruct (UndoRedoManager.finalizeBatch m1 FieldType.title h1) as [m2 h2].
    pose proof (Hr _ _ _ (finalizeBatch_rewrites m2 FieldType.description h2))
      as H3.
    destruct (UndoRedoManager.finalizeBatch m2 FieldType.description h2)
      as [m3 h3].
    pose proof (Hr _ _ _ (finalizeBatch_rewrites m3 FieldType.tags h3)) as H4.
    cbn [fst] in *. destruct H1, H2, H3, H4. split; congruence.
Qed.

Lemma session_ids (calls : list ManagerCall) (m : UndoRedoManager.t)
    (h : Host) :
  UndoRedoManager.userId (fst (session calls m h)) = UndoRedoManager.userId m
  /\ UndoRedoManager.config (fst (session calls m h))
     = UndoRedoManager.config m.
Proof.
  revert m h. induction calls as [|call calls IH]; intros m h;
    [now split|].
  simpl. unfold bind. pose proof (act_ids call m h) as H1.
  destruct (act call m h) as [m1 h1]. cbn [fst] in H1.
  destruct (IH m1 h1), H1. split; congruence.
Qed.

(** X14. Whatever is tracked, undone, redone or closed by the timer, the
    undo stack of a field never holds more than [maxUndoSteps] steps. *)
Theorem X14_undoStack_bounded (user doc : string) (cfg : UndoRedoConfig)
    (calls : list ManagerCall) (h : Host) (f : FieldType.t) :
  0 <= cfg_maxUndoSteps cfg ->
  let m := fst (session calls (UndoRedoManager.new user doc cfg) h) in
  Z.of_nat (List.length (undoStack (UndoRedoManager.state m f)))
  <= cfg_maxUndoSteps cfg.
Proof.
  intros Hmax. cbv zeta.
  pose proof (session_allTidy calls _ h (new_allTidy user doc cfg) f) as Ht.
  destruct (session_ids calls (UndoRedoManager.new user doc cfg) h)
    as [Hu Hc].
  rewrite Hc in Ht. destruct Ht as (_ & _ & Hlen & _). now apply Hlen.
Qed.

(** X15. Every step on the undo and redo stacks of a field holds only
    operations of the manager's user, and only operations of that
    field. *)
Theorem X15_steps_hold_own_operations (user doc : string)
    (cfg : UndoRedoConfig) (calls : list ManagerCall) (h : Host)
    (f : FieldType.t) (step : UndoStep) (op : CRDTOperation.t) :
  let m := fst (session calls (UndoRedoManager.new user doc cfg) h) in
  In step (undoStack (UndoRedoManager.state m f)
           ++ redoStack (UndoRedoManager.state m f)) ->
  In op (step_operations step) ->
  CRDTOperation.clientId op = user /\ CRDTOperation.field op = f
  /\ step_field step = f /\ step_userId step = user.
Proof.
  cbv zeta. intros Hstep Hop.
  pose proof (session_allTidy calls _ h (new_allTidy user doc cfg) f) as Ht.
  destruct (session_ids calls (UndoRedoManager.new user doc cfg) h)
    as [Hu Hc].
  rewrite Hu in Ht. cbn [UndoRedoManager.new UndoRedoManager.userId] in Ht.
  destruct Ht as (Hundo & Hredo & _ & _).
  assert (Hw : wellStep user f step).
  { apply in_app_or in Hstep. rewrite Forall_forall in Hundo, Hredo.
    destruct Hstep; auto. }
  destruct Hw as (_ & Hown & _ & Hf & Hus & _).
  unfold own in Hown. rewrite Forall_forall in Hown.
  destruct (Hown op Hop). auto.
Qed.

Lemma description_uniform (first : CRDTOperation.t)
    (rest : list CRDTOperation.t) :
  uniform (first :: rest) ->
  UndoRedoManager.generateBatchDescription (first :: rest) =
  match rest, CRDTOperation.type first with
  | [], insert => "Insert character"
  | [], delete => "Delete character"
  | _ :: _, insert =>
      "Insert " ++ UndoRedoManager.count (S (List.length rest))
        ++ " characters"
  | _ :: _, delete =>
      "Delete " ++ UndoRedoManager.count (S (List.length rest))
        ++ " characters"
  end.
Proof.
  intros Huni. destruct rest as [|second rest]; [reflexivity|].
  unfold UndoRedoManager.generateBatchDescription.
  replace (forallb _ (first :: second :: rest)) with true; [reflexivity|].
  symmetry. apply forallb_forall. intros op Hop.
  rewrite (Huni op first Hop (or_introl eq_refl)).
  now destruct (CRDTOperation.type first).
Qed.

(** X16. The operations of a step are all inserts or all deletes, and
    its description says so: the description for mixed operations is
    never produced. *)
Theorem X16_steps_are_of_one_type (user doc : string) (cfg : UndoRedoConfig)
    (calls : list ManagerCall) (h : Host) (f : FieldType.t)
    (step : UndoStep) :
  let m := fst (session calls (UndoRedoManager.new user doc cfg) h) in
  In step (undoStack (UndoRedoManager.state m f)
           ++ redoStack (UndoRedoManager.state m f)) ->
  exists first rest,
    step_operations step = first :: rest
    /\ (forall op, In op (step_operations step) ->
          CRDTOperation.type op = CRDTOperation.type first)
    /\ step_description step =
       Some match rest, CRDTOperation.type first with
            | [], insert => "Insert character"
            | [], delete => "Delete character"
            | _ :: _, insert =>
                "Insert " ++ UndoRedoManager.count (S (List.length rest))
                  ++ " characters"
            | _ :: _, delete =>
                "Delete " ++ UndoRedoManager.count (S (List.length rest))
                  ++ " characters"
            end.
Proof.
  cbv zeta. intros Hstep.
  pose proof (session_allTidy calls _ h (new_allTidy user doc cfg) f) as Ht.
  destruct Ht as (Hundo & Hredo & _ & _).
  assert (Hw : wellStep
                 (UndoRedoManager.userId
                    (fst (session calls (UndoRedoManager.new user doc cfg) h)))
                 f step).
  { apply in_app_or in Hstep. rewrite Forall_forall in Hundo, Hredo.
    destruct Hstep; auto. }
  destruct Hw as (Hne & _ & Huni & _ & _ & Hd).
  destruct (step_operations step) as [|first rest] eqn:E; [contradiction|].
  exists first, rest. split; [reflexivity|]. split.
  - intros op Hop. apply Huni; [exact Hop | now left].
  - rewrite Hd. f_equal. now apply description_uniform.
Qed.

(** X17. Tracking an operation, undoing, redoing or closing the batch of
    one field leaves the undo/redo state of every other field as it
    was. *)
Theorem X17_calls_touch_one_field (call : ManagerCall) (m : UndoRedoManager.t)
    (h : Host) (f g : FieldType.t) :
  target call = Some f -> g <> f ->
  UndoRedoManager.state (fst (act call m h)) g = UndoRedoManager.state m g.
Proof.
  intros Ht Hne. destruct call as [op | f' | f' | f' |]; simpl in *;
    try discriminate; injection Ht as <-.
  - eapply rewrites_other; [apply trackOperation_rewrites | exact Hne].
  - unfold bind, ret. pose proof (undo_rewrites m f' h) as Hu.
    destruct (UndoRedoManager.undo m f' h) as [[res m'] h'].
    eapply rewrites_other; [exact Hu | exact Hne].
  - unfold bind, ret. pose proof (redo_rewrites m f' h) as Hu.
    destruct (UndoRedoManager.redo m f' h) as [[res m'] h'].
    eapply rewrites_other; [exact Hu | exact Hne].
  - eapply rewrites_other; [apply finalizeBatch_rewrites | exact Hne].
Qed.

(** X18. A new edit of the user discards the redo history of its field:
    after it is tracked [canRedo] is false, [redo] returns nothing and
    changes nothing, and the edit waits in an open batch. *)
Theorem X18_trackOperation_discards_redo (m : UndoRedoManager.t)
    (op : CRDTOperation.t) (h : Host) :
  CRDTOperation.clientId op = UndoRedoManager.userId m ->
  let m' := fst (UndoRedoManager.trackOperation m op h) in
  let f := CRDTOperation.field op in
  redoStack (UndoRedoManager.state m' f) = []
  /\ UndoRedoManager.canRedo m' f = false
  /\ (forall h', UndoRedoManager.redo m' f h' = (None, m', h'))
  /\ (exists batch, currentBatch (UndoRedoManager.state m' f) = Some batch
                    /\ batch <> []).
Proof.
  intros Hown. cbv zeta.
  destruct (trackOperation_state m op h Hown) as (_ & md & start & Hcase).
  cbv zeta in Hcase.
  assert (Hredo : redoStack
            (UndoRedoManager.state
               (fst (UndoRedoManager.trackOperation m op h))
               (CRDTOperation.field op)) = []
          /\ exists batch,
              currentBatch
                (UndoRedoManager.state
                   (fst (UndoRedoManager.trackOperation m op h))
                   (CRDTOperation.field op)) = Some batch /\ batch <> []).
  { destruct Hcase as [(batch & _ & _ & ->) | (h1 & ->)]; simpl.
    - split; [reflexivity|]. eexists. split; [reflexivity|].
      destruct batch; discriminate.
    - split; [reflexivity|]. eexists. split; [reflexivity|]. discriminate. }
  destruct Hredo as [Hredo Hbatch].
  split; [exact Hredo|]. split; [|split; [|exact Hbatch]].
  - unfold UndoRedoManager.canRedo. now rewrite Hredo.
  - intros h'. unfold UndoRedoManager.redo. now rewrite Hredo.
Qed.

Lemma createRedoOperations_replayed (m : UndoRedoManager.t)
    (ops : list CRDTOperation.t) (h : Host) :
  replayed (UndoRedoManager.userId m) h ops
    (fst (UndoRedoManager.createRedoOperations m ops h))
    (snd (UndoRedoManager.createRedoOperations m ops h)).
Proof.
  unfold UndoRedoManager.createRedoOperations.
  match goal with
  | |- context [UndoRedoManager.each ?g ops h] => set (f := g)
  end.
  assert (Hf : forall op h0,
             replays (UndoRedoManager.userId m) h0 op (fst (f op h0))
             /\ snd (f op h0) = spend 2 1 h0).
  { intros op h0. unfold f. draw_ids. cbn [fst snd].
    split; [unfold replays; cbn; repeat split | reflexivity]. }
  clearbody f. revert h. induction ops as [|op ops IH]; intros h.
  - constructor.
  - cbn [UndoRedoManager.each]. unfold bind, ret.
    destruct (Hf op h) as [Hop Hnext].
    destruct (f op h) as [again h1]. cbn [fst snd] in Hop, Hnext. subst h1.
    specialize (IH (spend 2 1 h)).
    destruct (UndoRedoManager.each f ops (spend 2 1 h)) as [agains h2].
    cbn [fst snd] in *. constructor; [exact Hop | exact IH].
Qed.

(** X19. With no batch open, [redo] after [undo] puts the manager back
    exactly as it was and issues the operations of the undone step anew,
    in their order: each is its operation again under an id and a
    timestamp read from the host during the [redo], starting where the
    [undo] left the host. *)
Theorem X19_undo_then_redo (m : UndoRedoManager.t) (f : FieldType.t) (h : Host) :
  currentBatch (UndoRedoManager.state m f) = None ->
  undoStack (UndoRedoManager.state m f) <> [] ->
  let undone := UndoRedoManager.undo m f h in
  let redone := UndoRedoManager.redo (snd (fst undone)) f (snd undone) in
  snd (fst redone) = m
  /\ exists rest step ops,
      undoStack (UndoRedoManager.state m f) = (rest ++ [step])%list
      /\ undoStack (UndoRedoManager.state (snd (fst undone)) f) = rest
      /\ fst (fst redone) = Some ops
      /\ replayed (UndoRedoManager.userId m) (snd undone)
           (step_operations step) ops (snd redone).
Proof.
  intros Hclosed Hne. cbv zeta.
  destruct (undo_state m f h)
    as [(_ & _ & E) | [(_ & Hm & E) | (inv & rest & step & _ & _ & E & Hm)]].
  - contradiction.
  - rewrite Hm, closeOpenBatch_closed in E by assumption. contradiction.
  - cbv zeta in E, Hm. rewrite closeOpenBatch_closed in E, Hm by assumption.
    cbn [fst] in E, Hm.
    destruct (UndoRedoManager.undo m f h) as [[inv' m1] h1].
    cbn [fst snd] in *. subst m1.
    match goal with
    | |- context [UndoRedoManager.redo ?m1 f h1] =>
        pose proof (createRedoOperations_replayed m1 (step_operations step) h1)
          as Hall;
        destruct (redo_state m1 f h1)
          as [(_ & _ & E2) | (ops & rest2 & step2 & Hres & E2 & Hm2)]
    end.
    + rewrite state_with_state in E2. simpl in E2.
      destruct (redoStack (UndoRedoManager.state m f)); discriminate.
    + cbv zeta in E2, Hm2.
      rewrite state_with_state in E2, Hm2. simpl in E2, Hm2.
      apply app_inj_tail in E2. destruct E2 as [<- <-].
      rewrite with_state_twice in Hm2. rewrite <- E in Hm2.
      split.
      * rewrite Hm2.
        transitivity (UndoRedoManager.with_state m f (UndoRedoManager.state m f));
          [|apply with_state_same].
        f_equal. now destruct (UndoRedoManager.state m f).
      * exists rest, step, ops. split; [exact E|]. split.
        -- now rewrite state_with_state.
        -- split; [exact Hres|].
           revert Hres. unfold UndoRedoManager.redo.
           rewrite state_with_state.
           cbn [redoStack]. rewrite pop_last.
           unfold bind, ret.
           match goal with
           | |- context [UndoRedoManager.createRedoOperations ?a ?b ?c] =>
               destruct (UndoRedoManager.createRedoOperations a b c)
                 as [ops' h2]
           end.
           cbn [fst snd] in *. intros [= <-].
           replace (UndoRedoManager.userId (UndoRedoManager.with_state m f _))
             with (UndoRedoManager.userId m) in Hall by (now destruct f).
           exact Hall.
Qed.


Lemma finalizeBatch_idle (m : UndoRedoManager.t) (f : FieldType.t) (h : Host) :
  idle (UndoRedoManager.state m f) ->
  UndoRedoManager.finalizeBatch m f h = (m, h).
Proof.
  unfold UndoRedoManager.finalizeBatch. now intros [-> | ->].
Qed.

(** One run of [finalizeBatch] on a field with waiting operations. *)
Lemma finalizeBatch_effect (m : UndoRedoManager.t) (f : FieldType.t)
    (h : Host) :
  let st := UndoRedoManager.state m f in
  let st' := UndoRedoManager.state
               (fst (UndoRedoManager.finalizeBatch m f h)) f in
  idle st'
  /\ match currentBatch st with
     | Some (first :: rest) =>
         redoStack st' = redoStack st
         /\ (1 <= cfg_maxUndoSteps (UndoRedoManager.config m) ->
             exists below top,
               undoStack st' = (below ++ [top])%list
               /\ step_operations top = first :: rest)
     | _ => st' = st
     end.
Proof.
  cbv zeta. unfold UndoRedoManager.finalizeBatch.
  destruct (currentBatch (UndoRedoManager.state m f)) as [[|op batch]|] eqn:E.
  - cbn [ret fst]. split; [now right | reflexivity].
  - draw_ids. cbn [fst]. rewrite state_with_state.
    cbn [currentBatch redoStack undoStack].
    split; [now left|]. split; [reflexivity|].
    intros Hmax.
    set (step := mkUndoStep _ _ _ _ _ _).
    destruct (Z.ltb_spec (cfg_maxUndoSteps (UndoRedoManager.config m))
                (Z.of_nat (List.length
                   (undoStack (UndoRedoManager.state m f) ++ [step])))).
    + destruct (undoStack (UndoRedoManager.state m f)) as [|s0 stack].
      * simpl in *. lia.
      * simpl. exists stack, step. now split.
    + exists (undoStack (UndoRedoManager.state m f)), step. now split.
  - cbn [ret fst]. split; [now left | reflexivity].
Qed.

(** X20. [finalizeAllBatches] closes the batch of every field: its
    operations become the newest undo step (with room for at least one
    step), nothing is left waiting, fields without waiting operations are
    untouched, and a second call does nothing. *)
Theorem X20_finalizeAllBatches_closes (m : UndoRedoManager.t) (h : Host) :
  let m' := fst (UndoRedoManager.finalizeAllBatches m h) in
  (forall f,
      idle (UndoRedoManager.state m' f)
      /\ match currentBatch (UndoRedoManager.state m f) with
         | Some (first :: rest) =>
             redoStack (UndoRedoManager.state m' f) =
             redoStack (UndoRedoManager.state m f)
             /\ (1 <= cfg_maxUndoSteps (UndoRedoManager.config m) ->
                 UndoRedoManager.canUndo m' f = true
                 /\ exists below top,
                     undoStack (UndoRedoManager.state m' f)
                     = (below ++ [top])%list
                     /\ step_operations top = first :: rest)
         | _ => UndoRedoManager.state m' f = UndoRedoManager.state m f
         end)
  /\ forall h', UndoRedoManager.finalizeAllBatches m' h' = (m', h').
Proof.
  cbv zeta. rewrite finalizeAllBatches_run.
  pose proof (finalizeBatch_effect m FieldType.content h) as E1.
  pose proof (finalizeBatch_rewrites m FieldType.content h) as R1.
  destruct (UndoRedoManager.finalizeBatch m FieldType.content h) as [m1 h1].
  pose proof (finalizeBatch_effect m1 FieldType.title h1) as E2.
  pose proof (finalizeBatch_rewrites m1 FieldType.title h1) as R2.
  destruct (UndoRedoManager.finalizeBatch m1 FieldType.title h1) as [m2 h2].
  pose proof (finalizeBatch_effect m2 FieldType.description h2) as E3.
  pose proof (finalizeBatch_rewrites m2 FieldType.description h2) as R3.
  destruct (UndoRedoManager.finalizeBatch m2 FieldType.description h2)
    as [m3 h3].
  pose proof (finalizeBatch_effect m3 FieldType.tags h3) as E4.
  pose proof (finalizeBatch_rewrites m3 FieldType.tags h3) as R4.
  destruct (UndoRedoManager.finalizeBatch m3 FieldType.tags h3) as [m4 h4].
  cbv zeta in *. cbn [fst] in *.
  destruct (rewrites_ids _ _ _ R1) as (_ & _ & C1).
  destruct (rewrites_ids _ _ _ R2) as (_ & _ & C2).
  destruct (rewrites_ids _ _ _ R3) as (_ & _ & C3).
  rewrite C3, C2, C1 in E4. rewrite C2, C1 in E3. rewrite C1 in E2.
  assert (Hother : forall a b f g, rewrites a b f -> g <> f ->
            UndoRedoManager.state b g = UndoRedoManager.state a g)
    by (intros; eapply rewrites_other; eassumption).
  assert (Hall : forall f,
    idle (UndoRedoManager.state m4 f)
    /\ match currentBatch (UndoRedoManager.state m f) with
       | Some (first :: rest) =>
           redoStack (UndoRedoManager.state m4 f) =
           redoStack (UndoRedoManager.state m f)
           /\ (1 <= cfg_maxUndoSteps (UndoRedoManager.config m) ->
               exists below top,
                 undoStack (UndoRedoManager.state m4 f)
                 = (below ++ [top])%list
                 /\ step_operations top = first :: rest)
       | _ => UndoRedoManager.state m4 f = UndoRedoManager.state m f
       end).
  { intros f. destruct f.
    - rewrite (Hother _ _ _ FieldType.content R4) by discriminate.
      rewrite (Hother _ _ _ FieldType.content R3) by discriminate.
      rewrite (Hother _ _ _ FieldType.content R2) by discriminate.
      exact E1.
    - rewrite (Hother _ _ _ FieldType.title R4) by discriminate.
      rewrite (Hother _ _ _ FieldType.title R3) by discriminate.
      rewrite (Hother _ _ _ FieldType.title R1) in E2 by discriminate.
      exact E2.
    - rewrite (Hother _ _ _ FieldType.description R4) by discriminate.
      rewrite (Hother _ _ _ FieldType.description R2) in E3 by discriminate.
      rewrite (Hother _ _ _ FieldType.description R1) in E3 by discriminate.
      exact E3.
    - rewrite (Hother _ _ _ FieldType.tags R3) in E4 by discriminate.
      rewrite (Hother _ _ _ FieldType.tags R2) in E4 by discriminate.
      rewrite (Hother _ _ _ FieldType.tags R1) in E4 by discriminate.
      exact E4. }
  split.
  - intros f. destruct (Hall f) as [Hidle Hm]. split; [exact Hidle|].
    destruct (currentBatch (UndoRedoManager.state m f)) as [[|first rest]|];
      try exact Hm.
    destruct Hm as [Hr Hu]. split; [exact Hr|]. intros Hmax.
    destruct (Hu Hmax) as (below & top & Hs & Ht).
    split; [|now exists below, top].
    unfold UndoRedoManager.canUndo. rewrite Hs, length_app. simpl.
    now rewrite Nat.add_comm.
  - intros h'. rewrite finalizeAllBatches_run.
    rewrite !finalizeBatch_idle by apply Hall. reflexivity.
Qed.


(** ** The multi-field engine *)

Lemma PerField_get_set (A : Type) (m : PerField.t A) (f : FieldType.t) (a : A) :
  PerField.get (PerField.set m f a) f = a.
Proof. now destruct f. Qed.

Lemma PerField_get_set_other (A : Type) (m : PerField.t A)
    (f g : FieldType.t) (a : A) :
  g <> f -> PerField.get (PerField.set m f a) g = PerField.get m g.
Proof. destruct f, g; intros Hne; try reflexivity; contradiction. Qed.

Lemma PerField_set_set (A : Type) (m : PerField.t A) (f : FieldType.t)
    (a b : A) :
  PerField.set (PerField.set m f a) f b = PerField.set m f b.
Proof. now destruct f. Qed.

Lemma PerField_set_get (A : Type) (m : PerField.t A) (f : FieldType.t) :
  PerField.set m f (PerField.get m f) = m.
Proof. now destruct m, f. Qed.

(** What the engine's [trackOperation] leaves of an engine. *)
Lemma MultiField_trackOperation_frame (mf : MultiFieldCRDTEngine.t)
    (f : FieldType.t) (op : CRDTOperation.t) (h : Host) :
  let mf' := fst (MultiFieldCRDTEngine.trackOperation mf f op h) in
  MultiFieldCRDTEngine.engines mf' = MultiFieldCRDTEngine.engines mf
  /\ (forall g, g <> f ->
        PerField.get (MultiFieldCRDTEngine.fieldStates mf') g =
        PerField.get (MultiFieldCRDTEngine.fieldStates mf) g)
  /\ (MultiFieldCRDTEngine.undoRedoManager mf' =
      MultiFieldCRDTEngine.undoRedoManager mf
      \/ MultiFieldCRDTEngine.undoRedoManager mf' =
         fst (UndoRedoManager.trackOperation
                (MultiFieldCRDTEngine.undoRedoManager mf) op h)).
Proof.
  cbv zeta. unfold MultiFieldCRDTEngine.trackOperation.
  destruct (String.eqb _ _).
  - unfold bind, ret.
    destruct (UndoRedoManager.trackOperation _ op h) as [manager h1].
    cbn [fst MultiFieldCRDTEngine.engines MultiFieldCRDTEngine.fieldStates
         MultiFieldCRDTEngine.undoRedoManager].
    split; [reflexivity|]. split; [|now right].
    intros g Hne. now apply PerField_get_set_other.
  - cbn [ret fst]. split; [reflexivity|]. split; [reflexivity | now left].
Qed.

Section MultiField.
Context `{Collation}.

(** The engine and manager a local edit of field [f] leaves behind. *)
Lemma local_edit_frame (mf : MultiFieldCRDTEngine.t) (f : FieldType.t)
    (mf' : MultiFieldCRDTEngine.t) :
  (exists ch i h,
      mf' = snd (fst (MultiFieldCRDTEngine.insertChar mf f ch i h)))
  \/ (exists i h,
        mf' = snd (fst (MultiFieldCRDTEngine.deleteChar mf f i h))) ->
  (forall g, g <> f ->
     PerField.get (MultiFieldCRDTEngine.engines mf') g =
     PerField.get (MultiFieldCRDTEngine.engines mf) g
     /\ PerField.get (MultiFieldCRDTEngine.fieldStates mf') g =
        PerField.get (MultiFieldCRDTEngine.fieldStates mf) g)
  /\ (MultiFieldCRDTEngine.undoRedoManager mf' =
      MultiFieldCRDTEngine.undoRedoManager mf
      \/ exists op h,
          CRDTOperation.field op = f
          /\ MultiFieldCRDTEngine.undoRedoManager mf' =
             fst (UndoRedoManager.trackOperation
                    (MultiFieldCRDTEngine.undoRedoManager mf) op h)).
Proof.
  intros [(ch & i & h & Heq) | (i & h & Heq)]; revert Heq.
  - unfold MultiFieldCRDTEngine.insertChar. unfold bind at 1.
    destruct (CRDTEngine.insertChar _ ch i h) as [[operation engine] h1].
    unfold bind at 1. unfold now at 1. unfold bind at 1.
    match goal with
    | |- context [MultiFieldCRDTEngine.trackOperation ?a ?b ?c ?d] =>
        pose proof (MultiField_trackOperation_frame a b c d) as Hf;
        destruct (MultiFieldCRDTEngine.trackOperation a b c d) as [mf2 h3]
    end.
    cbv zeta in Hf. cbn [ret fst snd] in *. intros ->.
    cbn [MultiFieldCRDTEngine.engines MultiFieldCRDTEngine.fieldStates
         MultiFieldCRDTEngine.undoRedoManager] in Hf.
    destruct Hf as (He & Hs & Hm). split.
    + intros g Hne. rewrite He. split; [|now apply Hs].
      now apply PerField_get_set_other.
    + destruct Hm as [Hm | Hm]; [now left|]. right.
      eexists _, _. split; [|exact Hm]. reflexivity.
  - unfold MultiFieldCRDTEngine.deleteChar. unfold bind at 1.
    destruct (CRDTEngine.deleteChar _ i h) as [[[operation|] engine] h1].
    + unfold bind at 1. unfold now at 1. unfold bind at 1.
      match goal with
      | |- context [MultiFieldCRDTEngine.trackOperation ?a ?b ?c ?d] =>
          pose proof (MultiField_trackOperation_frame a b c d) as Hf;
          destruct (MultiFieldCRDTEngine.trackOperation a b c d) as [mf2 h3]
      end.
      cbv zeta in Hf. cbn [ret fst snd] in *. intros ->.
      cbn [MultiFieldCRDTEngine.engines MultiFieldCRDTEngine.fieldStates
           MultiFieldCRDTEngine.undoRedoManager] in Hf.
      destruct Hf as (He & Hs & Hm). split.
      * intros g Hne. rewrite He. split; [|now apply Hs].
        now apply PerField_get_set_other.
      * destruct Hm as [Hm | Hm]; [now left|]. right.
        eexists _, _. split; [|exact Hm]. reflexivity.
    + cbn [ret fst snd]. intros ->.
      cbn [MultiFieldCRDTEngine.engines
           MultiFieldCRDTEngine.fieldStates
           MultiFieldCRDTEngine.undoRedoManager].
      split; [|now left].
      intros g Hne. split; [|reflexivity].
      now apply PerField_get_set_other.
Qed.

(** X21. An edit or a received operation of one field changes nothing of
    the others: their engines, their cached states, their undo and redo
    stacks and their content stay as they were. *)
Theorem X21_fields_are_independent (mf : MultiFieldCRDTEngine.t)
    (f g : FieldType.t) (mf' : MultiFieldCRDTEngine.t) :
  g <> f ->
  (exists ch i h,
      mf' = snd (fst (MultiFieldCRDTEngine.insertChar mf f ch i h)))
  \/ (exists i h,
        mf' = snd (fst (MultiFieldCRDTEngine.deleteChar mf f i h)))
  \/ (exists op h,
        CRDTOperation.field op = f
        /\ mf' = fst (MultiFieldCRDTEngine.applyOperation mf op h)) ->
  PerField.get (MultiFieldCRDTEngine.engines mf') g =
  PerField.get (MultiFieldCRDTEngine.engines mf) g
  /\ PerField.get (MultiFieldCRDTEngine.fieldStates mf') g =
     PerField.get (MultiFieldCRDTEngine.fieldStates mf) g
  /\ UndoRedoManager.state (MultiFieldCRDTEngine.undoRedoManager mf') g =
     UndoRedoManager.state (MultiFieldCRDTEngine.undoRedoManager mf) g
  /\ MultiFieldCRDTEngine.getFieldContent mf' g =
     MultiFieldCRDTEngine.getFieldContent mf g.
Proof.
  intros Hne Hcall.
  assert (Hgoal :
    PerField.get (MultiFieldCRDTEngine.engines mf') g =
    PerField.get (MultiFieldCRDTEngine.engines mf) g
    /\ PerField.get (MultiFieldCRDTEngine.fieldStates mf') g =
       PerField.get (MultiFieldCRDTEngine.fieldStates mf) g
    /\ UndoRedoManager.state (MultiFieldCRDTEngine.undoRedoManager mf') g =
       UndoRedoManager.state (MultiFieldCRDTEngine.undoRedoManager mf) g).
  { destruct Hcall as [Hins | [Hdel | (op & h & Hf & Heq)]];
      [| |revert Heq].
    - destruct (local_edit_frame mf f mf' (or_introl Hins)) as [Hfr Hm].
      destruct (Hfr g Hne) as [He Hs]. split; [exact He|]. split; [exact Hs|].
      destruct Hm as [-> | (op & h & Hf & ->)]; [reflexivity|].
      eapply rewrites_other; [apply trackOperation_rewrites|].
      now rewrite Hf.
    - destruct (local_edit_frame mf f mf' (or_intror Hdel)) as [Hfr Hm].
      destruct (Hfr g Hne) as [He Hs]. split; [exact He|]. split; [exact Hs|].
      destruct Hm as [-> | (op & h & Hf & ->)]; [reflexivity|].
      eapply rewrites_other; [apply trackOperation_rewrites|].
      now rewrite Hf.
    - unfold MultiFieldCRDTEngine.applyOperation. unfold bind, ret.
      rewrite Hf.
      destruct (CRDTEngine.applyOperation _ op None h) as [engine h1].
      cbn [fst]. unfold MultiFieldCRDTEngine.updateFieldState.
      cbn [MultiFieldCRDTEngine.engines MultiFieldCRDTEngine.fieldStates
           MultiFieldCRDTEngine.undoRedoManager].
      intros ->.
      cbn [MultiFieldCRDTEngine.engines MultiFieldCRDTEngine.fieldStates
           MultiFieldCRDTEngine.undoRedoManager].
      rewrite !PerField_get_set_other by exact Hne. auto. }
  destruct Hgoal as (He & Hs & Hm). repeat split; try assumption.
  unfold MultiFieldCRDTEngine.getFieldContent. now rewrite He.
Qed.

(** X22. An edit made while nothing of its field can be undone and no
    batch is open cannot be undone yet: [canUndo] is false and [undo]
    returns nothing and changes nothing, until the timer or
    [finalizeAllBatches] closes the batch. *)
Theorem X22_edit_waits_in_batch (mf : MultiFieldCRDTEngine.t) (f : FieldType.t)
    (mf' : MultiFieldCRDTEngine.t) :
  undoStack (UndoRedoManager.state
               (MultiFieldCRDTEngine.undoRedoManager mf) f) = [] ->
  currentBatch (UndoRedoManager.state
                  (MultiFieldCRDTEngine.undoRedoManager mf) f) = None ->
  (exists ch i h,
      mf' = snd (fst (MultiFieldCRDTEngine.insertChar mf f ch i h)))
  \/ (exists i h,
        mf' = snd (fst (MultiFieldCRDTEngine.deleteChar mf f i h))) ->
  MultiFieldCRDTEngine.canUndo mf' f = false
  /\ forall h', MultiFieldCRDTEngine.undo mf' f h' = (None, mf', h').
Proof.
  intros Hstack Hclosed Hcall.
  destruct (local_edit_frame mf f mf' Hcall) as [_ Hm].
  assert (Hempty : undoStack (UndoRedoManager.state
                     (MultiFieldCRDTEngine.undoRedoManager mf') f) = []).
  { destruct Hm as [-> | (op & h & Hf & ->)]; [exact Hstack|].
    destruct (String.eqb_spec (CRDTOperation.clientId op)
                (UndoRedoManager.userId
                   (MultiFieldCRDTEngine.undoRedoManager mf))) as [Hown|Hne].
    - destruct (trackOperation_state _ op h Hown) as (_ & md & start & Hcase).
      cbv zeta in Hcase. rewrite Hf in Hcase.
      destruct Hcase as [(batch & E & _) | (h1 & ->)]; [congruence|].
      rewrite closeOpenBatch_closed by exact Hclosed. exact Hstack.
    - rewrite trackOperation_foreign by exact Hne. exact Hstack. }
  split.
  - unfold MultiFieldCRDTEngine.canUndo, UndoRedoManager.canUndo.
    now rewrite Hempty.
  - intros h'. unfold MultiFieldCRDTEngine.undo, UndoRedoManager.undo.
    rewrite Hempty. unfold bind, ret. now destruct mf'.
Qed.

(** X23. A character typed into a field of any replica shows in the
    same field, and in no other, of a fresh replica that receives the
    operation [insertChar] returned. *)
Theorem X23_typed_character_arrives (mf : MultiFieldCRDTEngine.t)
    (f : FieldType.t) (ch : string) (i : Z) (h : Host) :
  exists op,
    fst (fst (MultiFieldCRDTEngine.insertChar mf f ch i h)) = Some op
    /\ CRDTOperation.type op = insert
    /\ CRDTOperation.field op = f
    /\ CRDTOperation.char op = Some ch
    /\ forall doc user h',
        let replica :=
          fst (MultiFieldCRDTEngine.applyOperation
                 (MultiFieldCRDTEngine.new doc user) op h') in
        MultiFieldCRDTEngine.getFieldContent replica f = ch
        /\ forall g, g <> f ->
             MultiFieldCRDTEngine.getFieldContent replica g = "".
Proof.
  unfold MultiFieldCRDTEngine.insertChar. unfold bind at 1.
  rewrite insertChar_run. cbv zeta.
  match goal with
  | |- context [CRDTEngine.applyOperation ?a ?b ?c ?d] =>
      destruct (CRDTEngine.applyOperation a b c d) as [engine h1]
  end.
  cbn [fst snd]. unfold bind at 1. unfold now at 1. unfold bind at 1.
  match goal with
  | |- context [MultiFieldCRDTEngine.trackOperation ?a ?b ?c ?d] =>
      destruct (MultiFieldCRDTEngine.trackOperation a b c d) as [mf2 h3]
  end.
  cbn [ret fst snd]. eexists. split; [reflexivity|].
  split; [reflexivity|]. split; [reflexivity|]. split; [reflexivity|].
  intros doc user h'. cbv zeta. split.
  - destruct f; reflexivity.
  - intros g Hne. destruct f, g; try contradiction; reflexivity.
Qed.

Lemma MultiField_applyOperation_run (mf : MultiFieldCRDTEngine.t)
    (op : CRDTOperation.t) (h : Host) :
  MultiFieldCRDTEngine.applyOperation mf op h =
  let r := CRDTEngine.applyOperation
             (PerField.get (MultiFieldCRDTEngine.engines mf)
                (CRDTOperation.field op)) op None h in
  (MultiFieldCRDTEngine.updateFieldState
     (MultiFieldCRDTEngine.mk
        (PerField.set (MultiFieldCRDTEngine.engines mf)
           (CRDTOperation.field op) (fst r))
        (MultiFieldCRDTEngine.fieldStates mf)
        (MultiFieldCRDTEngine.undoRedoManager mf)
        (MultiFieldCRDTEngine.documentId mf)
        (MultiFieldCRDTEngine.clientId mf))
     (CRDTOperation.field op),
   snd r).
Proof.
  unfold MultiFieldCRDTEngine.applyOperation, bind, ret. cbv zeta.
  now destruct (CRDTEngine.applyOperation _ op None h).
Qed.

Lemma engines_updateFieldState (mf : MultiFieldCRDTEngine.t)
    (f : FieldType.t) :
  MultiFieldCRDTEngine.engines (MultiFieldCRDTEngine.updateFieldState mf f)
  = MultiFieldCRDTEngine.engines mf.
Proof. reflexivity. Qed.

(** X24. Receiving an operation a second time changes nothing of the
    multi-field engine: engines, cached field states and host stay as the
    first delivery left them. *)
Theorem X24_applyOperation_twice (mf : MultiFieldCRDTEngine.t)
    (op : CRDTOperation.t) (h : Host) :
  let first := MultiFieldCRDTEngine.applyOperation mf op h in
  MultiFieldCRDTEngine.applyOperation (fst first) op (snd first) = first.
Proof.
  cbv zeta. rewrite (MultiField_applyOperation_run mf). cbv zeta.
  pose proof (applyOperation_applied
                (PerField.get (MultiFieldCRDTEngine.engines mf)
                   (CRDTOperation.field op)) op None h) as Hseen.
  destruct (CRDTEngine.applyOperation _ op None h) as [engine h1].
  cbn [fst snd] in *.
  rewrite MultiField_applyOperation_run. cbv zeta.
  rewrite !engines_updateFieldState.
  cbn [MultiFieldCRDTEngine.engines].
  rewrite PerField_get_set.
  rewrite applyOperation_seen by exact Hseen. cbn [fst snd].
  f_equal.
  unfold MultiFieldCRDTEngine.updateFieldState.
  cbn [MultiFieldCRDTEngine.engines MultiFieldCRDTEngine.fieldStates
       MultiFieldCRDTEngine.undoRedoManager MultiFieldCRDTEngine.documentId
       MultiFieldCRDTEngine.clientId].
  rewrite !PerField_get_set, !PerField_set_set.
  cbn [MultiFieldCRDTEngine.fs_operations]. reflexivity.
Qed.
End MultiField.


(** ** Text differences *)

Lemma take_drop (n : nat) (s : string) : take n s ++ drop n s = s.
Proof.
  revert s. induction n as [|n IH]; intros [|c s]; simpl; try reflexivity.
  now rewrite IH.
Qed.

Lemma length_append (a b : string) :
  String.length (a ++ b) = (String.length a + String.length b)%nat.
Proof. induction a as [|c a IH]; simpl; [reflexivity | now rewrite IH]. Qed.

Lemma length_take (n : nat) (s : string) :
  (n <= String.length s)%nat -> String.length (take n s) = n.
Proof.
  revert s. induction n as [|n IH]; intros [|c s] Hn; simpl in *;
    try reflexivity; try lia.
  rewrite IH; lia.
Qed.

Lemma take_app (a b : string) : take (String.length a) (a ++ b) = a.
Proof. induction a as [|c a IH]; simpl; [now destruct b | now rewrite IH]. Qed.

Lemma drop_app (a b : string) : drop (String.length a) (a ++ b) = b.
Proof. induction a as [|c a IH]; simpl; [reflexivity | exact IH]. Qed.

Lemma drop_drop (n m : nat) (s : string) : drop n (drop m s) = drop (m + n) s.
Proof.
  revert s. induction m as [|m IH]; intros s; simpl; [reflexivity|].
  destruct s as [|c s]; [now destruct n | apply IH].
Qed.

Lemma substring_take (n m : nat) (s : string) :
  String.substring n m s = take m (drop n s).
Proof.
  revert m s. induction n as [|n IH]; intros m s.
  - simpl. revert s. induction m as [|m IHm]; intros [|c s]; simpl;
      try reflexivity. now rewrite IHm.
  - destruct s as [|c s]; simpl.
    + now destruct m.
    + apply IH.
Qed.

Lemma take_all (n : nat) (s : string) :
  (String.length s <= n)%nat -> take n s = s.
Proof.
  revert s. induction n as [|n IH]; intros [|c s] Hn; simpl in *;
    try reflexivity; try lia.
  rewrite IH; [reflexivity | lia].
Qed.

Lemma length_drop (n : nat) (s : string) :
  String.length (drop n s) = (String.length s - n)%nat.
Proof.
  revert s. induction n as [|n IH]; intros [|c s]; simpl; try reflexivity.
  apply IH.
Qed.

(** [substring] between ordered indices. *)
Lemma substring_between (s : string) (i j : nat) :
  (i <= j)%nat -> substring s i j = take (j - i) (drop i s).
Proof.
  intros Hij. unfold substring.
  rewrite Nat.min_l, Nat.max_r by lia. apply substring_take.
Qed.

Lemma substring_front (s : string) (p : nat) : substring s 0 p = take p s.
Proof. rewrite substring_between by lia. now rewrite Nat.sub_0_r. Qed.

Lemma substring_back (s : string) (p : nat) :
  (p <= String.length s)%nat -> substring s p (String.length s) = drop p s.
Proof.
  intros Hp. rewrite substring_between by lia.
  apply take_all. rewrite length_drop. lia.
Qed.

Lemma charAt_cons (c : ascii) (s : string) (i : nat) :
  charAt (String c s) (S i) = charAt s i.
Proof. reflexivity. Qed.

Lemma scanEqual_shift (k bound pos : nat) (c c' : ascii) (a b : string) :
  scanEqual k (S bound) (String c a) (String c' b) (S pos) =
  S (scanEqual k bound a b pos).
Proof.
  revert pos. induction k as [|k IH]; intros pos; simpl; [reflexivity|].
  change (charAt (String c a) (S pos)) with (charAt a pos).
  change (charAt (String c' b) (S pos)) with (charAt b pos).
  change (S pos <? S bound)%nat with (pos <? bound)%nat.
  destruct ((pos <? bound)%nat && same (charAt a pos) (charAt b pos));
    [apply IH | reflexivity].
Qed.

Lemma same_head (c c' : ascii) (a b : string) :
  same (charAt (String c a) 0) (charAt (String c' b) 0) = Ascii.eqb c c'.
Proof.
  unfold charAt. simpl. now destruct (Ascii.eqb c c').
Qed.

(** Within both strings the loop stops at the first index where they
    differ, or at the bound. *)
Lemma scanEqual_commonPrefix (k n : nat) (a b : string) :
  (n <= k)%nat -> (n <= String.length a)%nat -> (n <= String.length b)%nat ->
  scanEqual k n a b 0 = Nat.min n (commonPrefix a b).
Proof.
  revert n a b. induction k as [|k IH]; intros n a b Hk Ha Hb.
  - assert (n = 0)%nat by lia. subst. reflexivity.
  - destruct n as [|n]; [reflexivity|].
    destruct a as [|c a]; [simpl in Ha; lia|].
    destruct b as [|c' b]; [simpl in Hb; lia|].
    cbn [scanEqual]. change (0 <? S n)%nat with true. rewrite andb_true_l.
    rewrite same_head. cbn [commonPrefix].
    destruct (Ascii.eqb c c').
    + rewrite scanEqual_shift. rewrite IH; simpl in *; lia.
    + reflexivity.
Qed.

Lemma commonPrefix_app (a x y : string) :
  commonPrefix (a ++ x) (a ++ y) = (String.length a + commonPrefix x y)%nat.
Proof.
  induction a as [|c a IH]; simpl; [reflexivity|].
  now rewrite Ascii.eqb_refl, IH.
Qed.

Lemma commonPrefix_take (a b : string) (n : nat) :
  (n <= commonPrefix a b)%nat -> take n a = take n b.
Proof.
  revert a b. induction n as [|n IH]; intros a b Hn.
  - now destruct a, b.
  - destruct a as [|x a], b as [|y b]; simpl in Hn; try lia.
    destruct (Ascii.eqb x y) eqn:E; [|lia].
    apply Ascii.eqb_eq in E. subst. simpl. f_equal. apply IH. lia.
Qed.

Lemma commonPrefix_length_l (a b : string) :
  (commonPrefix a b <= String.length a)%nat.
Proof.
  revert b. induction a as [|x a IH]; intros [|y b]; simpl; try lia.
  destruct (Ascii.eqb x y); [specialize (IH b)|]; lia.
Qed.

Lemma commonPrefix_same (a b : string) :
  String.length a = String.length b ->
  commonPrefix a b = String.length a -> a = b.
Proof.
  revert b. induction a as [|x a IH]; intros [|y b] Hl Hc; simpl in *;
    try reflexivity; try lia.
  destruct (Ascii.eqb x y) eqn:E; [|lia].
  apply Ascii.eqb_eq in E. subst. f_equal. apply IH; lia.
Qed.

Lemma commonPrefix_differs (a b : string) :
  (commonPrefix a b < String.length a)%nat ->
  (commonPrefix a b < String.length b)%nat ->
  exists x y, charAt a (commonPrefix a b) = Some (String x "")
           /\ charAt b (commonPrefix a b) = Some (String y "")
           /\ x <> y.
Proof.
  revert b. induction a as [|x a IH]; intros [|y b] Ha Hb; simpl in *;
    try lia.
  destruct (Ascii.eqb x y) eqn:E.
  - destruct (IH b) as (x' & y' & H1 & H2 & H3); try lia.
    exists x', y'. now rewrite !charAt_cons.
  - exists x, y. repeat split. now apply Ascii.eqb_neq.
Qed.

(** Where the scan of an edit with a common frame [a ... b] stops. *)
Lemma splice_frame (a s b : string) (p : nat) :
  (String.length a <= p)%nat ->
  (p <= String.length (a ++ b))%nat ->
  take p (a ++ b) = take p (a ++ s ++ b) ->
  exists text,
    String.length text = String.length s
    /\ a ++ s ++ b = take p (a ++ b) ++ text ++ drop p (a ++ b).
Proof.
  intros Hlo Hhi Hagree.
  exists (take (String.length s) (drop p (a ++ s ++ b))).
  assert (Hlen : String.length (a ++ s ++ b) =
                 (String.length a + String.length s + String.length b)%nat).
  { rewrite !length_append. lia. }
  rewrite length_append in Hhi.
  split.
  - apply length_take. rewrite length_drop. lia.
  - assert (Htail : drop (String.length s) (drop p (a ++ s ++ b))
                    = drop p (a ++ b)).
    { replace p with (String.length a + (p - String.length a))%nat by lia.
      rewrite <- !(drop_drop _ (String.length a)).
      rewrite !drop_app. rewrite drop_drop.
      replace (p - String.length a + String.length s)%nat
        with (String.length s + (p - String.length a))%nat by lia.
      rewrite <- drop_drop. now rewrite drop_app. }
    rewrite <- Htail, take_drop, Hagree, take_drop. reflexivity.
Qed.

(** X25. When the new text is the old one with a non-empty run inserted
    somewhere, [findTextDifference] reports an insert that reproduces it:
    splicing the reported text into the old text at the reported position
    gives the new text.  The position is not left of the edit. *)
Theorem X25_findTextDifference_insertion (a s b : string) :
  s <> "" ->
  exists pos text,
    findTextDifference (a ++ b) (a ++ s ++ b) =
      Some (TextDifference.mk insertText (Some text) pos None None None)
    /\ (String.length a <= pos <= String.length (a ++ b))%nat
    /\ String.length text = String.length s
    /\ substring (a ++ b) 0 pos ++ text
         ++ substring (a ++ b) pos (String.length (a ++ b))
       = a ++ s ++ b.
Proof.
  intros Hs.
  assert (Hlen : String.length (a ++ s ++ b) =
                 (String.length (a ++ b) + String.length s)%nat).
  { rewrite !length_append. lia. }
  assert (Hpos : (0 < String.length s)%nat).
  { destruct s; [congruence | simpl; lia]. }
  unfold findTextDifference.
  destruct (Nat.ltb_spec (String.length (a ++ b))
              (String.length (a ++ s ++ b))) as [_|]; [|lia].
  rewrite Nat.min_l by lia.
  rewrite scanEqual_commonPrefix by lia.
  set (p := Nat.min (String.length (a ++ b))
                    (commonPrefix (a ++ b) (a ++ s ++ b))).
  assert (Hlo : (String.length a <= p)%nat).
  { unfold p. rewrite commonPrefix_app, length_append. lia. }
  assert (Hhi : (p <= String.length (a ++ b))%nat) by (unfold p; lia).
  assert (Hagree : take p (a ++ b) = take p (a ++ s ++ b)).
  { apply commonPrefix_take. unfold p. lia. }
  destruct (splice_frame a s b p Hlo Hhi Hagree) as (text & Htl & Hsplice).
  exists p, (substring (a ++ s ++ b) p
               (p + (String.length (a ++ s ++ b) - String.length (a ++ b)))).
  assert (Htext : substring (a ++ s ++ b) p
               (p + (String.length (a ++ s ++ b) - String.length (a ++ b)))
               = text).
  { rewrite substring_between by lia.
    replace (p + (String.length (a ++ s ++ b) - String.length (a ++ b)) - p)%nat
      with (String.length text) by lia.
    rewrite Hsplice at 1.
    replace p with (String.length (take p (a ++ b))) at 1
      by (apply length_take; lia).
    rewrite drop_app. apply take_app. }
  split; [reflexivity|]. split; [lia|]. rewrite Htext. split; [exact Htl|].
  rewrite substring_front, substring_back by lia. now rewrite Hsplice.
Qed.

Lemma drop_frame (a s b : string) (p : nat) :
  (String.length a <= p)%nat ->
  drop (p + String.length s) (a ++ s ++ b) = drop p (a ++ b).
Proof.
  intros Hlo.
  replace (p + String.length s)%nat
    with (String.length a + (String.length s + (p - String.length a)))%nat
    by lia.
  replace p with (String.length a + (p - String.length a))%nat at 2 by lia.
  rewrite <- !(drop_drop _ (String.length a)), !drop_app.
  rewrite <- drop_drop. now rewrite drop_app.
Qed.

(** X26. When the new text is the old one with a non-empty run removed,
    [findTextDifference] reports a delete of that length that reproduces
    it: removing as many code units at the reported position from the old
    text gives the new text. *)
Theorem X26_findTextDifference_deletion (a s b : string) :
  s <> "" ->
  exists pos,
    findTextDifference (a ++ s ++ b) (a ++ b) =
      Some (TextDifference.mk deleteText None pos (Some (String.length s))
              None None)
    /\ (String.length a <= pos <= String.length (a ++ b))%nat
    /\ substring (a ++ s ++ b) 0 pos
         ++ substring (a ++ s ++ b) (pos + String.length s)
              (String.length (a ++ s ++ b))
       = a ++ b.
Proof.
  intros Hs.
  assert (Hlen : String.length (a ++ s ++ b) =
                 (String.length (a ++ b) + String.length s)%nat).
  { rewrite !length_append. lia. }
  assert (Hpos : (0 < String.length s)%nat).
  { destruct s; [congruence | simpl; lia]. }
  unfold findTextDifference.
  destruct (Nat.ltb_spec (String.length (a ++ s ++ b))
              (String.length (a ++ b))) as [|_]; [lia|].
  destruct (Nat.ltb_spec (String.length (a ++ b))
              (String.length (a ++ s ++ b))) as [_|]; [|lia].
  rewrite Nat.min_r by lia.
  rewrite scanEqual_commonPrefix by lia.
  set (p := Nat.min (String.length (a ++ b))
                    (commonPrefix (a ++ s ++ b) (a ++ b))).
  assert (Hlo : (String.length a <= p)%nat).
  { unfold p. rewrite commonPrefix_app, length_append. lia. }
  assert (Hhi : (p <= String.length (a ++ b))%nat) by (unfold p; lia).
  assert (Hagree : take p (a ++ s ++ b) = take p (a ++ b)).
  { apply commonPrefix_take. unfold p. lia. }
  exists p. split.
  - replace (String.length (a ++ s ++ b) - String.length (a ++ b))%nat
      with (String.length s) by lia.
    reflexivity.
  - split; [lia|].
    rewrite substring_front, substring_back by lia.
    rewrite drop_frame by exact Hlo. rewrite Hagree. apply take_drop.
Qed.

Lemma commonPrefix_agree (a b : string) (i : nat) :
  (i < commonPrefix a b)%nat -> charAt a i = charAt b i.
Proof.
  revert a b. induction i as [|i IH]; intros [|x a] [|y b] Hi; simpl in Hi;
    try lia; destruct (Ascii.eqb x y) eqn:E; try lia;
    apply Ascii.eqb_eq in E; subst.
  - reflexivity.
  - rewrite !charAt_cons. apply IH. lia.
Qed.

(** X27. For two different texts of the same length
    [findTextDifference] reports a replace at the first index where they
    differ: the texts agree at every index before it, and [oldChar] and
    [newChar] are the code units the two texts have at it, which are
    different.  What follows that index is not looked at. *)
Theorem X27_findTextDifference_replacement (oldText newText : string) :
  String.length oldText = String.length newText ->
  oldText <> newText ->
  exists pos x y,
    findTextDifference oldText newText =
      Some (TextDifference.mk replaceText None pos None
              (Some (String x "")) (Some (String y "")))
    /\ charAt oldText pos = Some (String x "")
    /\ charAt newText pos = Some (String y "")
    /\ x <> y
    /\ (pos < String.length oldText)%nat
    /\ (forall i, (i < pos)%nat -> charAt oldText i = charAt newText i)
    /\ substring oldText 0 pos = substring newText 0 pos.
Proof.
  intros Hlen Hne.
  unfold findTextDifference.
  rewrite <- Hlen, Nat.ltb_irrefl.
  destruct (String.eqb_spec oldText newText) as [|_]; [contradiction|].
  rewrite scanEqual_commonPrefix by lia.
  assert (Hcp : (commonPrefix oldText newText < String.length oldText)%nat).
  { pose proof (commonPrefix_length_l oldText newText).
    pose proof (commonPrefix_same oldText newText Hlen).
    destruct (Nat.eq_dec (commonPrefix oldText newText)
                (String.length oldText)) as [E|E]; [tauto | lia]. }
  rewrite Nat.min_r by lia.
  destruct (commonPrefix_differs oldText newText) as (x & y & Hx & Hy & Hxy);
    [lia | lia |].
  exists (commonPrefix oldText newText), x, y.
  rewrite Hx, Hy.
  split; [reflexivity|]. split; [reflexivity|]. split; [reflexivity|].
  split; [exact Hxy|]. split; [exact Hcp|]. split.
  - intros i Hi. now apply commonPrefix_agree.
  - rewrite !substring_front. now apply commonPrefix_take.
Qed.

(** X28. [findTextDifference] returns null exactly when the two texts
    are equal. *)
Theorem X28_findTextDifference_none (oldText newText : string) :
  findTextDifference oldText newText = None <-> oldText = newText.
Proof.
  unfold findTextDifference. split.
  - destruct (String.length oldText <? String.length newText)%nat;
      [discriminate|].
    destruct (String.length newText <? String.length oldText)%nat;
      [discriminate|].
    destruct (String.eqb_spec oldText newText); [auto | discriminate].
  - intros ->. rewrite Nat.ltb_irrefl, String.eqb_refl. reflexivity.
Qed.


(** ** The reducer and the history groups *)

Section ReducerFacts.
Context {User UserPresence Bulk : Type}.
Let State : Type := Reducer.CRDTState User UserPresence Bulk.
Let Action : Type := Reducer.CRDTAction User UserPresence.

Lemma crdtReducer_distinct (state : State) (action : Action) :
  distinctIds (Reducer.operations state) ->
  distinctIds (Reducer.operations (Reducer.crdtReducer state action)).
Proof.
  intros Hd. destruct action; simpl; try assumption.
  - fold (CRDTEngine.applied (CRDTOperation.id operation)
            (Reducer.operations state)).
    destruct (CRDTEngine.applied (CRDTOperation.id operation)
                (Reducer.operations state)) eqn:E; [assumption|].
    simpl. unfold distinctIds. rewrite map_app. simpl.
    apply NoDup_Add with (a := CRDTOperation.id operation)
                         (l := map CRDTOperation.id (Reducer.operations state)).
    + rewrite <- (app_nil_r (map _ _)) at 1. apply Add_app.
    + split; [assumption|]. rewrite <- applied_In. congruence.
  - constructor.
Qed.

(** X29. The operation list of the reducer never holds an id twice,
    whatever is dispatched, and dispatching an operation a second time
    changes nothing. *)
Theorem X29_crdtReducer_log (actions : list Action) (operation : CRDTOperation.t)
    (state : State) :
  distinctIds
    (Reducer.operations (dispatched actions (Reducer.initialState : State)))
  /\ (let once := Reducer.crdtReducer state
                    (Reducer.APPLY_OPERATION operation) in
      Reducer.crdtReducer once (Reducer.APPLY_OPERATION operation) = once).
Proof.
  split.
  - unfold dispatched.
    assert (Hgen : forall s : State,
               distinctIds (Reducer.operations s) ->
               distinctIds (Reducer.operations (fold_left Reducer.crdtReducer
                                                  actions s))).
    { induction actions as [|a l IH]; intros s Hs; [exact Hs|].
      simpl. apply IH. now apply crdtReducer_distinct. }
    apply Hgen. constructor.
  - cbv zeta. simpl.
    fold (CRDTEngine.applied (CRDTOperation.id operation)
            (Reducer.operations state)).
    destruct (CRDTEngine.applied (CRDTOperation.id operation)
                (Reducer.operations state)) eqn:E; simpl.
    + fold (CRDTEngine.applied (CRDTOperation.id operation)
              (Reducer.operations state)). now rewrite E.
    + fold (CRDTEngine.applied (CRDTOperation.id operation)
              (Reducer.operations state ++ [operation])).
      now rewrite applied_app, applied_self, orb_true_r.
Qed.
End ReducerFacts.

Lemma last_snoc {A : Type} (l : list A) (x d : A) : last (l ++ [x]) d = x.
Proof.
  induction l as [|y l IH]; [reflexivity|].
  simpl. destruct (l ++ [x])%list eqn:E; [destruct l; discriminate|].
  exact IH.
Qed.

Lemma wellGroup_start (op : CRDTOperation.t) :
  wellGroup (HistoryPopover.startGroup op).
Proof.
  unfold wellGroup, HistoryPopover.startGroup. simpl. split; [|split].
  - exists op, []. auto.
  - constructor; [now split | constructor].
  - intros before a b others E.
    destruct before as [|x [|y before]]; discriminate.
Qed.

Lemma wellGroup_extend (g : HistoryPopover.OperationGroup)
    (op : CRDTOperation.t) :
  wellGroup g ->
  CRDTOperation.clientId op = HistoryPopover.userId g ->
  CRDTOperation.field op = HistoryPopover.field g ->
  HistoryPopover.stampOf op - HistoryPopover.endTime g
  <= HistoryPopover.TIME_WINDOW ->
  wellGroup (HistoryPopover.mkGroup (HistoryPopover.userId g)
               (HistoryPopover.operations g ++ [op])
               (HistoryPopover.startTime g) (HistoryPopover.stampOf op)
               (HistoryPopover.field g)).
Proof.
  intros ((first & rest & Hops & Hstart & Hend) & Hsame & Hgap) Hu Hf Hw.
  unfold wellGroup. simpl. split; [|split].
  - exists first, (rest ++ [op])%list. rewrite Hops. split; [reflexivity|].
    split; [exact Hstart|]. now rewrite last_snoc.
  - apply Forall_app. split; [exact Hsame|]. constructor; [now split|].
    constructor.
  - intros before a b others E.
    destruct others as [|z others] using rev_ind.
    + change (before ++ [a; b])%list with (before ++ [a] ++ [b])%list in E.
      rewrite app_assoc in E. apply app_inj_tail in E.
      destruct E as [E <-]. rewrite Hend in Hw.
      replace (last rest first) with a in Hw; [exact Hw|].
      rewrite Hops in E.
      destruct before as [|x before].
      * simpl in E. injection E as E1 E2. subst. reflexivity.
      * simpl in E. injection E as E1 E2. subst.
        change (x :: before ++ [a])%list with ((x :: before) ++ [a])%list in *.
        simpl. destruct (before ++ [a])%list eqn:Eb;
          [destruct before; discriminate|].
        rewrite <- Eb. symmetry. apply last_snoc.
    + clear IHothers.
      replace (before ++ a :: b :: others ++ [z])%list
        with ((before ++ a :: b :: others) ++ [z])%list in E
        by (now rewrite <- app_assoc).
      apply app_inj_tail in E. destruct E as [E _].
      now apply (Hgap before a b others).
Qed.

Lemma collect_spec (sortedOps : list CRDTOperation.t)
    (cur : option HistoryPopover.OperationGroup)
    (groups : list HistoryPopover.OperationGroup) :
  Forall wellGroup groups ->
  match cur with Some g => wellGroup g | None => True end ->
  let result := HistoryPopover.collect sortedOps cur groups in
  Forall wellGroup result
  /\ List.concat (map HistoryPopover.operations result) =
     (List.concat (map HistoryPopover.operations groups)
      ++ match cur with
         | Some g => HistoryPopover.operations g
         | None => []
         end ++ sortedOps)%list.
Proof.
  cbv zeta. revert cur groups.
  induction sortedOps as [|op rest IH]; intros cur groups Hgroups Hcur; simpl.
  - destruct cur as [g|].
    + split.
      * apply Forall_app. split; [assumption | now constructor].
      * rewrite map_app, concat_app. simpl. now rewrite !app_nil_r.
    + split; [assumption | now rewrite app_nil_r].
  - destruct cur as [g|].
    + destruct (String.eqb_spec (CRDTOperation.clientId op)
                  (HistoryPopover.userId g)) as [Hu|Hu]; cbn [andb].
      * destruct (FieldType.eqb (CRDTOperation.field op)
                    (HistoryPopover.field g)) eqn:Hf; cbn [andb].
        -- destruct (Z.leb_spec (HistoryPopover.stampOf op
                                 - HistoryPopover.endTime g)
                       HistoryPopover.TIME_WINDOW) as [Hw|Hw].
           ++ destruct (IH (Some (HistoryPopover.mkGroup
                                    (HistoryPopover.userId g)
                                    (HistoryPopover.operations g ++ [op])
                                    (HistoryPopover.startTime g)
                                    (HistoryPopover.stampOf op)
                                    (HistoryPopover.field g))) groups)
                as [H1 H2]; [assumption| |].
              ** apply wellGroup_extend; try assumption.
                 destruct (CRDTOperation.field op), (HistoryPopover.field g);
                   try discriminate; reflexivity.
              ** split; [exact H1|]. rewrite H2. simpl.
                 now rewrite <- !app_assoc.
           ++ destruct (IH (Some (HistoryPopover.startGroup op))
                          (groups ++ [g])%list) as [H1 H2].
              ** apply Forall_app. split; [assumption | now constructor].
              ** apply wellGroup_start.
              ** split; [exact H1|]. rewrite H2, map_app, concat_app. simpl.
                 now rewrite app_nil_r, <- !app_assoc.
        -- destruct (IH (Some (HistoryPopover.startGroup op))
                       (groups ++ [g])%list) as [H1 H2].
           ++ apply Forall_app. split; [assumption | now constructor].
           ++ apply wellGroup_start.
           ++ split; [exact H1|]. rewrite H2, map_app, concat_app. simpl.
              now rewrite app_nil_r, <- !app_assoc.
      * destruct (IH (Some (HistoryPopover.startGroup op))
                     (groups ++ [g])%list) as [H1 H2].
        -- apply Forall_app. split; [assumption | now constructor].
        -- apply wellGroup_start.
        -- split; [exact H1|]. rewrite H2, map_app, concat_app. simpl.
           now rewrite app_nil_r, <- !app_assoc.
    + destruct (IH (Some (HistoryPopover.startGroup op)) groups)
        as [H1 H2]; [assumption | apply wellGroup_start |].
      split; [exact H1|]. rewrite H2. reflexivity.
Qed.

(** X30. Grouping the history loses and repeats nothing: the groups,
    read in order, are the operations sorted by time; and every group is
    of one user and one field, each operation within the time window of
    the one before. *)
Theorem X30_groupOperations_partitions (ops : list CRDTOperation.t) :
  let groups := HistoryPopover.groupOperations ops in
  List.concat (map HistoryPopover.operations groups) =
    sort (fun a b => of_Z (HistoryPopover.stampOf a
                           - HistoryPopover.stampOf b)) ops
  /\ Permutation (List.concat (map HistoryPopover.operations groups)) ops
  /\ Forall wellGroup groups.
Proof.
  cbv zeta. unfold HistoryPopover.groupOperations.
  destruct ops as [|op ops]; [repeat split; constructor|].
  set (sorted := sort _ (op :: ops)).
  destruct (collect_spec sorted None []) as [H1 H2]; [constructor | exact I |].
  simpl in H2. split; [exact H2|]. split; [|exact H1].
  rewrite H2. apply sort_perm.
Qed.


(** ** The properties at concrete inputs *)

(** From here on the collation is code-unit order. *)
#[global] Existing Instance codeUnitCollation.

Lemma Scene_sorted :
  CRDTEngine.getSortedVisibleChars Scene.engine = [Scene.first; Scene.second].
Proof. reflexivity. Qed.

Lemma Scene_keyed : keyed (CRDTEngine.characters Scene.engine).
Proof.
  split.
  - repeat constructor.
  - repeat constructor; simpl; intuition discriminate.
Qed.

(** C5, as stated, fails on the first key a field receives: with only
    [next] absent the new key "2.0.c" does not sort before "1.0.a", and with
    only [prev] absent the new key "0.0.c" does not sort after it. *)
Lemma C5_counterexample :
  generatePosition (Some "1.0.a") None "c" = "2.0.c"
  /\ ~ orders_before (generatePosition (Some "1.0.a") None "c") "1.0.a"
  /\ generatePosition None (Some "1.0.a") "c" = "0.0.c"
  /\ ~ orders_before "1.0.a" (generatePosition None (Some "1.0.a") "c").
Proof.
  repeat split; try reflexivity; unfold orders_before; vm_compute;
    discriminate.
Qed.

Lemma C5_generate_at_the_ends_witness :
  numericKey 1 "1.0.a" /\ Z.abs 1 < 2 ^ 53
  /\ generatePosition (Some "1.0.a") None "c" = "2.0.c"
  /\ orders_before "1.0.a" "2.0.c".
Proof.
  assert (Hk : numericKey 1 "1.0.a") by (exists "0.a"; reflexivity).
  assert (Hb : Z.abs 1 < 2 ^ 53) by (vm_compute; reflexivity).
  pose proof (C5_generate_at_the_ends 1 "1.0.a" "c" Hk Hb) as Hc.
  cbv zeta in Hc. destruct Hc as (E & Hord & _).
  split; [exact Hk|]. split; [exact Hb|].
  split; [exact E|]. rewrite E in Hord. exact Hord.
Defined.

(** C6 at the first keys of a field: between "1.0.a" and "1.5.c", the
    key made between "1.0.a" and "2.0.b" and sorting after "1.0.a", the
    new key is "1.z"; its numeric part is 1 and it sorts before
    "1.0.a". *)
Lemma C6_midpoint_drops_fraction_witness :
  generatePosition (Some "1.0.a") (Some "2.0.b") "c" = "1.5.c"
  /\ generatePosition (Some "1.0.a") (Some "1.5.c") "z" = "1.z"
  /\ negative (comparePositions "1.0.a" "1.5.c") = true
  /\ numericPart "1.z" = of_Z 1
  /\ negative (comparePositions "1.z" "1.0.a") = true.
Proof.
  assert (Hn : 0 <= 1 < 2 ^ 52) by (split; [lia | reflexivity]).
  pose proof (C6_midpoint_drops_fraction 1 "a" "b" "c" "z" Hn eq_refl) as Hc.
  cbv zeta in Hc. destruct Hc as (E1 & _ & E2 & _ & _ & N & C & _).
  split; [exact E1|]. split; [exact E2|]. split; [reflexivity|].
  split; [exact N|].
  change (comparePositions "1.z" "1.0.a")
    with (comparePositions
            (generatePosition (Some (key 1 "a"))
               (Some (generatePosition (Some (key 1 "a"))
                        (Some (key (1 + 1) "b")) "c")) "z")
            (key 1 "a")).
  now rewrite C.
Defined.

(** The same at the engine: with "a" and "b" typed, "x" typed at index 1
    shows "axb"; "y" typed at index 1 then receives the key "1.u" and the
    engine shows "yaxb", not "ayxb". *)
Example insertChar_between_twice :
  let typing :=
    '(_, e1) <- CRDTEngine.insertChar (CRDTEngine.new "doc" "u") "a" 0 ;;
    '(_, e2) <- CRDTEngine.insertChar e1 "b" 1 ;;
    '(_, e3) <- CRDTEngine.insertChar e2 "x" 1 ;;
    '(typed, e4) <- CRDTEngine.insertChar e3 "y" 1 ;;
    ret (CRDTEngine.getVisibleContent e3, CRDTOperation.position typed,
         CRDTEngine.getVisibleContent e4) in
  fst (typing sampleHost) = ("axb", "1.u", "yaxb").
Proof. vm_compute. reflexivity. Qed.

(** Where the midpoint works: between "1.0.a" and "3.0.a". *)
Example generateBetween_apart_at_1_3 :
  generatePosition (Some "1.0.a") (Some "3.0.a") "c" = "2.c"
  /\ orders_before "1.0.a" "2.c" /\ orders_before "2.c" "3.0.a".
Proof.
  assert (H1 : numericKey 1 "1.0.a") by (exists "0.a"; reflexivity).
  assert (H3 : numericKey 3 "3.0.a") by (exists "0.a"; reflexivity).
  assert (Hlt : 1 < 3) by lia.
  assert (Hb1 : Z.abs 1 < 2 ^ 52) by (vm_compute; reflexivity).
  assert (Hb3 : Z.abs 3 < 2 ^ 52) by (vm_compute; reflexivity).
  pose proof (generateBetween_apart 1 3 "1.0.a" "3.0.a" "c" H1 H3 Hlt Hb1 Hb3)
    as Hc.
  cbv zeta in Hc. destruct Hc as (E & _ & _ & Hord).
  assert (Hgap : 1 + 2 <= 3) by lia.
  destruct (Hord Hgap) as [Ha Hb]. rewrite E in Ha, Hb.
  repeat split; assumption.
Qed.

Lemma codeUnitCompare_refl (p : string) : codeUnitCompare p p = of_Z 0.
Proof.
  induction p as [|c p IH]; simpl; [reflexivity|].
  now rewrite Nat.compare_refl.
Qed.

Lemma C3_hello_after_an_earlier_edit_witness :
  let h0 :=
    mkHost (fun _ => 1700000000000) (fun k => digits (N.of_nat k)) 0 0 in
  fst ((mf <- emptied FieldType.content "doc" "u" ;;
        helloSession FieldType.content mf) h0)
  = ("hello", "h", "hhello").
Proof.
  refine (proj2 (C3_hello_after_an_earlier_edit "doc" "u"
                   (fun _ => 1700000000000) (fun k => digits (N.of_nat k))
                   codeUnitCompare_refl _ _ _)).
  - intros i j E. apply digits_inj in E. lia.
  - intros i. reflexivity.
  - intros i j _ _. lia.
Defined.

(** The same on each of the four fields, on a host whose clock advances:
    on a new engine the round trip gives "hello"; on a field emptied by
    typing and deleting "h" it gives "hhello". *)
Example hello_on_every_field (f : FieldType.t) :
  fst (helloSession f (MultiFieldCRDTEngine.new "doc" "u") sampleHost)
  = ("hello", "", "hello")
  /\ MultiFieldCRDTEngine.getFieldContent
       (fst (emptied f "doc" "u" sampleHost)) f = ""
  /\ fst ((mf <- emptied f "doc" "u" ;; helloSession f mf) sampleHost)
     = ("hello", "h", "hhello").
Proof. destruct f; vm_compute; auto. Qed.

Lemma C2_applyOperation_idempotent_witness :
  CRDTEngine.applyOperation Sample.logged Delivery.ins None sampleHost
  = (Sample.logged, sampleHost).
Proof.
  apply (proj2 (C2_applyOperation_idempotent Sample.logged Delivery.ins
                  None None sampleHost)).
  reflexivity.
Defined.

Lemma C7_insertChar_out_of_range_witness :
  let r := CRDTEngine.insertChar (CRDTEngine.new "doc" "u") "x" 5 sampleHost in
  CRDTOperation.position (fst (fst r)) = "1.0.u"
  /\ CRDTEngine.operations (snd (fst r)) = [fst (fst r)].
Proof.
  assert (Hout : 5 < 0
                 \/ Z.of_nat (List.length
                                (CRDTEngine.getSortedVisibleChars
                                   (CRDTEngine.new "doc" "u"))) < 5)
    by (right; simpl; lia).
  pose proof (C7_insertChar_out_of_range (CRDTEngine.new "doc" "u") "x" 5
                sampleHost Hout) as Hc.
  cbv zeta in Hc. destruct Hc as (_ & _ & Hpos & Hlog).
  cbv zeta. split; [exact Hpos|].
  exact (proj1 (Hlog eq_refl)).
Defined.


(** What follows from it: "a" typed into a new engine, undone, redone and
    undone again is still shown.  The second undo returns a delete that
    carries "undo_" and the id of the insert; applied, it finds by
    position and value the tombstone the first undo left, not the
    character the redo stored. *)
Example undo_misses_the_character (f : FieldType.t) :
  exists del : CRDTOperation.t,
    fst (undoRedoUndo f "doc" "u" sampleHost)
    = ("a", "", "a", "a", Some [del])
    /\ CRDTOperation.type del = delete
    /\ CRDTOperation.position del = "1.0.u"
    /\ CRDTOperation.char del = Some "a"
    /\ CRDTOperation.charId del = Some "undo_u_1700000000001_r1".
Proof. destruct f; eexists; vm_compute; repeat split. Qed.

(** C9, as stated, fails for [applyOperation] with a character object
    whose id is already stored: on the engine that shows "b" after "ab"
    was typed and "a" deleted, an insert that comes with a character
    under the id of the deleted "a" replaces the tombstone, and
    [deletedCharacters] falls from 1 to 0. *)
Lemma C9_counterexample :
  let e := fst (perform (CallDeleteChar 0) Scene.engine sampleHost) in
  let again :=
    CRDTChar.mk (CRDTChar.id Scene.first) (Some "a") "1.0.u" "u" false in
  let op :=
    CRDTOperation.mk "v_1700000000900_z9" insert FieldType.content "1.0.u"
      (Some "a") None "v" "doc" 1700000000900 None in
  let e' := fst (perform (CallApplyOperation op (Some again)) e sampleHost) in
  keyed (CRDTEngine.characters e)
  /\ JSMap.get (CRDTChar.id Scene.first) (CRDTEngine.characters e)
     = Some (CRDTChar.tombstone Scene.first)
  /\ JSMap.get (CRDTChar.id Scene.first) (CRDTEngine.characters e')
     = Some again
  /\ CRDTEngine.deletedCharacters (CRDTEngine.getStats e) = 1%nat
  /\ CRDTEngine.deletedCharacters (CRDTEngine.getStats e') = 0%nat
  /\ ~ (CRDTEngine.deletedCharacters (CRDTEngine.getStats e)
        <= CRDTEngine.deletedCharacters (CRDTEngine.getStats e'))%nat.
Proof.
  cbv zeta. split.
  - split.
    + repeat constructor.
    + repeat constructor; simpl; intuition discriminate.
  - repeat split; try reflexivity. vm_compute. lia.
Qed.

(** C9 on the same engine, which holds the tombstone of "a": deleting
    "b" keeps both characters, "b" as a tombstone under its id, and
    [deletedCharacters] rises from 1 to 2. *)
Lemma C9_characters_only_grow_witness :
  let first := perform (CallDeleteChar 0) Scene.engine sampleHost in
  let e := fst first in
  let e' := fst (perform (CallDeleteChar 0) e (snd first)) in
  CRDTEngine.deletedCharacters (CRDTEngine.getStats e) = 1%nat
  /\ CRDTEngine.deletedCharacters (CRDTEngine.getStats e') = 2%nat
  /\ (CRDTEngine.totalCharacters (CRDTEngine.getStats e)
      <= CRDTEngine.totalCharacters (CRDTEngine.getStats e'))%nat
  /\ (CRDTEngine.deletedCharacters (CRDTEngine.getStats e)
      <= CRDTEngine.deletedCharacters (CRDTEngine.getStats e'))%nat
  /\ (JSMap.get (CRDTChar.id Scene.second) (CRDTEngine.characters e')
      = Some Scene.second
      \/ JSMap.get (CRDTChar.id Scene.second) (CRDTEngine.characters e')
         = Some (CRDTChar.tombstone Scene.second)).
Proof.
  cbv zeta.
  assert (Hfree : freshChar (CallDeleteChar 0) Scene.engine sampleHost)
    by exact I.
  destruct (C9_characters_only_grow (CallDeleteChar 0) Scene.engine sampleHost
              Scene_keyed Hfree) as (_ & _ & _ & Hk).
  cbv zeta in Hk.
  set (first := perform (CallDeleteChar 0) Scene.engine sampleHost) in *.
  assert (Hfree' : freshChar (CallDeleteChar 0) (fst first) (snd first))
    by exact I.
  destruct (C9_characters_only_grow (CallDeleteChar 0) (fst first) (snd first)
              Hk Hfree') as (Hsize & Hkept & Hdel & _).
  cbv zeta in Hsize, Hkept, Hdel.
  split; [reflexivity|]. split; [reflexivity|].
  split; [exact Hsize|]. split; [exact Hdel|].
  apply Hkept. reflexivity.
Defined.

(** C10, as stated, fails when two hosts draw alike: the engines of
    "bob" and "carol", reading the same clock value and the same random
    string, store the character of one insert under the same id; and a
    delete that carries this id finds the character by id, although its
    position and value match nothing. *)
Lemma C10_counterexample :
  let bob :=
    fst (CRDTEngine.applyOperation (CRDTEngine.new "doc" "bob") Delivery.ins
           None sampleHost) in
  let carol :=
    fst (CRDTEngine.applyOperation (CRDTEngine.new "doc" "carol")
           Delivery.ins None sampleHost) in
  let del :=
    CRDTOperation.mk "alice_1700000000700_q1w2e3r4t" delete FieldType.content
      "9.0.alice" (Some "z") (Some "char_alice_1700000000000_r0") "alice"
      "doc" 1700000000701 None in
  JSMap.keys (CRDTEngine.characters bob) = [Some "char_alice_1700000000000_r0"]
  /\ JSMap.keys (CRDTEngine.characters carol)
     = JSMap.keys (CRDTEngine.characters bob)
  /\ CRDTEngine.characters
       (fst (CRDTEngine.applyOperation bob del None sampleHost))
     = [(Some "char_alice_1700000000000_r0",
         CRDTChar.tombstone (remoteChar Delivery.ins sampleHost))].
Proof. cbv zeta. repeat split. Qed.

(** C10 on the engine that shows "ab": the insert of "alice" is stored
    under an id drawn there, the delete of "alice" carries the id drawn
    at her host, which is no key, and finds the character by position and
    value. *)
Lemma C10_remote_char_id_witness :
  let a1 :=
    fst (CRDTEngine.applyOperation Scene.engine Delivery.ins None sampleHost) in
  let stored := remoteChar Delivery.ins sampleHost in
  CRDTChar.id stored = Some "char_alice_1700000000000_r0"
  /\ JSMap.get (CRDTChar.id stored) (CRDTEngine.characters a1) = Some stored
  /\ JSMap.get (Some "char_alice_1700000000000_b2n4m6v8c")
       (CRDTEngine.characters a1) = None
  /\ JSMap.get (CRDTChar.id stored)
       (CRDTEngine.characters
          (fst (CRDTEngine.applyOperation a1 Delivery.del None sampleHost)))
     = Some (CRDTChar.tombstone stored).
Proof.
  assert (Hnew : CRDTEngine.applied (CRDTOperation.id Delivery.ins)
                   (CRDTEngine.operations Scene.engine) = false)
    by reflexivity.
  assert (Hnew2 : CRDTEngine.applied (CRDTOperation.id Delivery.ins)
                    (CRDTEngine.operations (CRDTEngine.new "doc" "carol"))
                  = false) by reflexivity.
  assert (Hfresh : JSMap.get
                     (Some (drawnCharId (CRDTOperation.clientId Delivery.ins)
                              sampleHost))
                     (CRDTEngine.characters Scene.engine) = None)
    by reflexivity.
  assert (Hid : CRDTOperation.id Delivery.del <> CRDTOperation.id Delivery.ins)
    by (simpl; discriminate).
  assert (Hnewd : CRDTEngine.applied (CRDTOperation.id Delivery.del)
                    (CRDTEngine.operations Scene.engine) = false)
    by reflexivity.
  pose proof (C10_remote_char_id Scene.engine (CRDTEngine.new "doc" "carol")
                Delivery.ins Delivery.del
                "char_alice_1700000000000_b2n4m6v8c"
                sampleHost sampleHost sampleHost
                eq_refl Hnew Hnew2 Scene_keyed Hfresh eq_refl Hid Hnewd
                eq_refl) as Hc.
  cbv zeta in Hc. destruct Hc as (Hstored & _ & _ & _ & _ & Hfallback).
  assert (Hmiss : JSMap.get (Some "char_alice_1700000000000_b2n4m6v8c")
                    (CRDTEngine.characters
                       (fst (CRDTEngine.applyOperation Scene.engine
                               Delivery.ins None sampleHost))) = None)
    by reflexivity.
  cbv zeta. split; [reflexivity|]. split; [exact Hstored|].
  split; [exact Hmiss|].
  apply (proj1 (Hfallback Hmiss)); [reflexivity | reflexivity |].
  intros c [<- | [<- | []]]; left; discriminate.
Defined.

(** ** The further properties at concrete inputs *)

Lemma codeUnitCompare_self (p : string) :
  positive (codeUnitCompare p p) = false.
Proof.
  induction p as [|c p IH]; simpl; [reflexivity|].
  now rewrite Nat.compare_refl.
Qed.

Lemma Scene_heads (c : CRDTChar.t) :
  In c (CRDTEngine.getSortedVisibleChars Scene.engine) ->
  exists m, numericKey m (CRDTChar.position c)
            /\ Z.abs m < 2 ^ 52 /\ m <= 2.
Proof.
  rewrite Scene_sorted. intros [<- | [<- | []]].
  - exists 1. split; [exists "0.u"; reflexivity|]. split; [reflexivity | lia].
  - exists 2. split; [exists "0.u"; reflexivity|]. split; [reflexivity | lia].
Qed.

Lemma Scene_consistent :
  consistent (CRDTEngine.getSortedVisibleChars Scene.engine).
Proof.
  apply consistent_by_heads.
  - exact codeUnitCompare_self.
  - intros a Ha. destruct (Scene_heads a Ha) as (m & Hm & _).
    exists m. now apply numericPart_numericKey.
  - rewrite Scene_sorted.
    intros a b [<- | [<- | []]] [<- | [<- | []]] E; try reflexivity;
      vm_compute in E; discriminate.
Qed.

Lemma X1_comparePositions_by_heads_witness :
  comparePositions "1.0.a" "3.0.b" = of_Z (1 - 3)
  /\ negative (comparePositions "1.0.a" "3.0.b") = true.
Proof.
  assert (Ha : numericKey 1 "1.0.a") by (exists "0.a"; reflexivity).
  assert (Hb : numericKey 3 "3.0.b") by (exists "0.b"; reflexivity).
  assert (Hne : 1 <> 3) by lia.
  assert (B1 : Z.abs 1 < 2 ^ 52) by (vm_compute; reflexivity).
  assert (B3 : Z.abs 3 < 2 ^ 52) by (vm_compute; reflexivity).
  destruct (X1_comparePositions_by_heads "1.0.a" "3.0.b" 1 3 Ha Hb Hne B1 B3)
    as (E & _ & Hneg & _).
  split; [exact E | exact Hneg].
Defined.

Lemma X2_comparePositions_NaN_witness :
  comparePositions "draft.0.u" "1.0.u" = NaN
  /\ comparePositions "1.0.u" "draft.0.u" = NaN.
Proof.
  apply (X2_comparePositions_NaN "draft.0.u" "1.0.u"). right. reflexivity.
Defined.

Lemma X3_generatePosition_NaN_witness :
  generatePosition (Some "draft.0.u") None "v" = "NaN.0.v"
  /\ generatePosition (Some "1.0.u") (Some "draft.0.u") "v" = "NaN.v".
Proof.
  assert (Hne : "draft.0.u" <> "") by discriminate.
  assert (Hh : headless "draft.0.u") by (right; reflexivity).
  pose proof (X3_generatePosition_NaN "draft.0.u" "v" None Hne Hh) as Hend.
  pose proof (X3_generatePosition_NaN "draft.0.u" "v" (Some "1.0.u") Hne Hh)
    as Hmid.
  cbv zeta in Hend, Hmid.
  destruct Hend as ([E | E] & _); [|discriminate E].
  destruct Hmid as (_ & [E' | E'] & _); [discriminate E'|].
  split; [exact E | exact E'].
Defined.

Lemma X4_generatePosition_client_witness : "c" = "c".
Proof.
  apply (X4_generatePosition_client (Some "1.0.a") (Some "3.0.a") "c" "c").
  reflexivity.
Defined.

Lemma X5_generate_there_and_back_witness :
  generateBefore (generateAfter "1.0.a" "b") "c" = key 1 "c"
  /\ generateAfter (generateBefore "1.0.a" "b") "c" = key 1 "c".
Proof.
  apply (X5_generate_there_and_back 1 "1.0.a" "b" "c").
  - exists "0.a". reflexivity.
  - vm_compute. reflexivity.
Defined.

Lemma X7_log_ids_distinct_witness :
  distinctIds
    (CRDTEngine.operations
       (fst (perform (CallDeleteChar 0) Scene.engine sampleHost))).
Proof.
  assert (Hd : distinctIds (CRDTEngine.operations Scene.engine))
    by (repeat constructor; simpl; intuition discriminate).
  exact (proj1 (X7_log_ids_distinct Scene.engine Hd) (CallDeleteChar 0)
           sampleHost).
Defined.

Lemma X10_getCharIdsInRange_agrees_witness :
  nth_error (CRDTEngine.getCharIdsInRange Scene.engine 0 2) 1 =
  option_map CRDTChar.id (CRDTEngine.getCharacterAtPosition Scene.engine 1).
Proof.
  apply (X10_getCharIdsInRange_agrees Scene.engine 0 2 1).
  - lia.
  - simpl. lia.
  - rewrite Scene_sorted. simpl. lia.
Defined.

Lemma X11_insertChar_at_end_witness :
  CRDTEngine.getVisibleContent
    (snd (fst (CRDTEngine.insertChar Scene.engine "c" 2 sampleHost)))
  = CRDTEngine.getVisibleContent Scene.engine ++ "c".
Proof.
  assert (Hlast : index (CRDTEngine.getSortedVisibleChars Scene.engine)
                    (Z.of_nat (List.length
                       (CRDTEngine.getSortedVisibleChars Scene.engine)) - 1)
                  = Some Scene.second) by reflexivity.
  assert (Hkey : numericKey 2 (CRDTChar.position Scene.second))
    by (exists "0.u"; reflexivity).
  assert (Hb : Z.abs 2 < 2 ^ 52) by (vm_compute; reflexivity).
  assert (Hfresh : JSMap.get
                     (Some (drawnCharId (CRDTEngine.clientId Scene.engine)
                              sampleHost))
                     (CRDTEngine.characters Scene.engine) = None)
    by (vm_compute; reflexivity).
  assert (Hnew : CRDTEngine.applied
                   (fst (generateOperationId (CRDTEngine.clientId Scene.engine)
                           (afterDraw sampleHost)))
                   (CRDTEngine.operations Scene.engine) = false)
    by (vm_compute; reflexivity).
  exact (proj2 (proj2 (X11_insertChar_at_end Scene.engine "c" sampleHost 2
                         Scene.second Hlast Hkey Hb Scene_heads
                         Scene_consistent Hfresh Hnew))).
Defined.

Lemma X12_insertChar_then_deleteChar_witness :
  let typed := CRDTEngine.insertChar Scene.engine "c" 2 sampleHost in
  let erased := CRDTEngine.deleteChar (snd (fst typed)) 2 (snd typed) in
  CRDTEngine.getVisibleContent (snd (fst erased))
  = CRDTEngine.getVisibleContent Scene.engine.
Proof.
  assert (Hlast : index (CRDTEngine.getSortedVisibleChars Scene.engine)
                    (Z.of_nat (List.length
                       (CRDTEngine.getSortedVisibleChars Scene.engine)) - 1)
                  = Some Scene.second) by reflexivity.
  assert (Hkey : numericKey 2 (CRDTChar.position Scene.second))
    by (exists "0.u"; reflexivity).
  assert (Hb : Z.abs 2 < 2 ^ 52) by (vm_compute; reflexivity).
  assert (Hfresh : JSMap.get
                     (Some (drawnCharId (CRDTEngine.clientId Scene.engine)
                              sampleHost))
                     (CRDTEngine.characters Scene.engine) = None)
    by (vm_compute; reflexivity).
  assert (Hnew : CRDTEngine.applied
                   (fst (generateOperationId (CRDTEngine.clientId Scene.engine)
                           (afterDraw sampleHost)))
                   (CRDTEngine.operations Scene.engine) = false)
    by (vm_compute; reflexivity).
  assert (Hnew2 :
    CRDTEngine.applied
      (fst (generateOperationId (CRDTEngine.clientId Scene.engine)
              (snd (CRDTEngine.insertChar Scene.engine "c"
                      (Z.of_nat (List.length
                         (CRDTEngine.getSortedVisibleChars Scene.engine)))
                      sampleHost))))
      (CRDTEngine.operations
         (snd (fst (CRDTEngine.insertChar Scene.engine "c"
                      (Z.of_nat (List.length
                         (CRDTEngine.getSortedVisibleChars Scene.engine)))
                      sampleHost)))) = false)
    by (vm_compute; reflexivity).
  pose proof (X12_insertChar_then_deleteChar Scene.engine "c" sampleHost 2
                Scene.second Hlast Hkey Hb Scene_heads Scene_consistent
                Hfresh Hnew Hnew2)
    as Hc.
  cbv zeta in Hc. destruct Hc as (_ & _ & Hcontent & _).
  exact Hcontent.
Defined.

Lemma X13_deleteChar_removes_witness :
  let erased := CRDTEngine.deleteChar Scene.engine 0 sampleHost in
  CRDTEngine.getSortedVisibleChars (snd (fst erased)) = [Scene.second]
  /\ CRDTEngine.getVisibleContent (snd (fst erased)) = "b".
Proof.
  assert (Hi : 0 <= 0) by lia.
  assert (Hnth : nth_error (CRDTEngine.getSortedVisibleChars Scene.engine)
                   (Z.to_nat 0) = Some Scene.first) by reflexivity.
  assert (Hnew : CRDTEngine.applied
                   (fst (generateOperationId (CRDTEngine.clientId Scene.engine)
                           sampleHost))
                   (CRDTEngine.operations Scene.engine) = false)
    by (vm_compute; reflexivity).
  pose proof (X13_deleteChar_removes Scene.engine 0 sampleHost Scene.first
                Scene_keyed Scene_consistent Hi Hnth Hnew) as Hc.
  cbv zeta in Hc. destruct Hc as (_ & _ & Hsorted & Hcontent).
  cbv zeta. split.
  - rewrite Hsorted, Scene_sorted. reflexivity.
  - rewrite Hcontent, Scene_sorted. reflexivity.
Defined.

Lemma X14_undoStack_bounded_witness :
  Z.of_nat (List.length (undoStack (UndoRedoManager.state Scene.manager
                                      FieldType.title))) <= 50.
Proof.
  apply (X14_undoStack_bounded "u" "doc" (mkConfig 1000 50 true)
           Scene.tracked sampleHost FieldType.title).
  simpl. lia.
Defined.

Lemma X15_steps_hold_own_operations_witness :
  let step := hd Sample.step (undoStack (UndoRedoManager.state Scene.manager
                                           FieldType.title)) in
  let op := hd Delivery.ins (step_operations step) in
  CRDTOperation.clientId op = "u" /\ CRDTOperation.field op = FieldType.title.
Proof.
  cbv zeta.
  set (step := hd Sample.step (undoStack (UndoRedoManager.state Scene.manager
                                            FieldType.title))).
  set (op := hd Delivery.ins (step_operations step)).
  assert (Hstep : In step
            (undoStack (UndoRedoManager.state Scene.manager FieldType.title)
             ++ redoStack (UndoRedoManager.state Scene.manager
                             FieldType.title))%list)
    by (vm_compute; left; reflexivity).
  assert (Hop : In op (step_operations step))
    by (vm_compute; left; reflexivity).
  destruct (X15_steps_hold_own_operations "u" "doc" (mkConfig 1000 50 true)
              Scene.tracked sampleHost FieldType.title step op Hstep Hop)
    as (Hu & Hf & _).
  split; assumption.
Defined.

Lemma X16_steps_are_of_one_type_witness :
  let step := hd Sample.step (undoStack (UndoRedoManager.state Scene.manager
                                           FieldType.title)) in
  step_description step = Some "Insert 2 characters".
Proof.
  cbv zeta.
  set (step := hd Sample.step (undoStack (UndoRedoManager.state Scene.manager
                                            FieldType.title))).
  assert (Hstep : In step
            (undoStack (UndoRedoManager.state Scene.manager FieldType.title)
             ++ redoStack (UndoRedoManager.state Scene.manager
                             FieldType.title))%list)
    by (vm_compute; left; reflexivity).
  destruct (X16_steps_are_of_one_type "u" "doc" (mkConfig 1000 50 true)
              Scene.tracked sampleHost FieldType.title step Hstep)
    as (first & rest & _ & _ & _).
  reflexivity.
Defined.

Lemma X17_calls_touch_one_field_witness :
  UndoRedoManager.state
    (fst (act (CallUndo FieldType.content) Sample.manager sampleHost))
    FieldType.title
  = UndoRedoManager.state Sample.manager FieldType.title.
Proof.
  apply (X17_calls_touch_one_field (CallUndo FieldType.content) Sample.manager
           sampleHost FieldType.content FieldType.title).
  - reflexivity.
  - discriminate.
Defined.

Lemma X18_trackOperation_discards_redo_witness :
  UndoRedoManager.canRedo
    (fst (UndoRedoManager.trackOperation Sample.manager Scene.typedFirst
            sampleHost))
    FieldType.content = false.
Proof.
  assert (Hown : CRDTOperation.clientId Scene.typedFirst
                 = UndoRedoManager.userId Sample.manager) by reflexivity.
  exact (proj1 (proj2 (X18_trackOperation_discards_redo Sample.manager
                         Scene.typedFirst sampleHost Hown))).
Defined.

Lemma X19_undo_then_redo_witness :
  let undone :=
    UndoRedoManager.undo Scene.manager FieldType.title sampleHost in
  let redone :=
    UndoRedoManager.redo (snd (fst undone)) FieldType.title (snd undone) in
  snd (fst redone) = Scene.manager
  /\ option_map (map CRDTOperation.id) (fst (fst redone))
     = Some ["u_1700000000004_r2"; "u_1700000000006_r3"]
  /\ option_map (map CRDTOperation.position) (fst (fst redone))
     = Some ["1.0.u"; "2.0.u"].
Proof.
  assert (Hclosed : currentBatch (UndoRedoManager.state Scene.manager
                                    FieldType.title) = None) by reflexivity.
  assert (Hne : undoStack (UndoRedoManager.state Scene.manager
                             FieldType.title) <> [])
    by (vm_compute; discriminate).
  split; [|split; reflexivity].
  exact (proj1 (X19_undo_then_redo Scene.manager FieldType.title sampleHost
                  Hclosed Hne)).
Defined.

Lemma X21_fields_are_independent_witness :
  let mf := MultiFieldCRDTEngine.new "doc" "u" in
  let mf' := snd (fst (MultiFieldCRDTEngine.insertChar mf FieldType.content
                         "a" 0 sampleHost)) in
  MultiFieldCRDTEngine.getFieldContent mf' FieldType.title
  = MultiFieldCRDTEngine.getFieldContent mf FieldType.title.
Proof.
  cbv zeta.
  assert (Hne : FieldType.title <> FieldType.content) by discriminate.
  refine (proj2 (proj2 (proj2
            (X21_fields_are_independent (MultiFieldCRDTEngine.new "doc" "u")
               FieldType.content FieldType.title _ Hne _)))).
  left. exists "a", 0, sampleHost. reflexivity.
Defined.

Lemma X22_edit_waits_in_batch_witness :
  let mf := MultiFieldCRDTEngine.new "doc" "u" in
  let mf' := snd (fst (MultiFieldCRDTEngine.insertChar mf FieldType.content
                         "a" 0 sampleHost)) in
  MultiFieldCRDTEngine.canUndo mf' FieldType.content = false.
Proof.
  cbv zeta.
  refine (proj1 (X22_edit_waits_in_batch (MultiFieldCRDTEngine.new "doc" "u")
                   FieldType.content _ eq_refl eq_refl _)).
  left. exists "a", 0, sampleHost. reflexivity.
Defined.

Lemma X25_findTextDifference_insertion_witness :
  exists pos text,
    findTextDifference "helo" "hello" =
      Some (TextDifference.mk insertText (Some text) pos None None None)
    /\ substring "helo" 0 pos ++ text ++ substring "helo" pos 4 = "hello".
Proof.
  assert (Hs : "l" <> "") by discriminate.
  destruct (X25_findTextDifference_insertion "he" "l" "lo" Hs)
    as (pos & text & Hd & _ & _ & Hsplice).
  exists pos, text. split; [exact Hd | exact Hsplice].
Defined.

Lemma X26_findTextDifference_deletion_witness :
  exists pos,
    findTextDifference "hello" "helo" =
      Some (TextDifference.mk deleteText None pos (Some 1%nat) None None)
    /\ substring "hello" 0 pos ++ substring "hello" (pos + 1) 5 = "helo".
Proof.
  assert (Hs : "l" <> "") by discriminate.
  destruct (X26_findTextDifference_deletion "he" "l" "lo" Hs)
    as (pos & Hd & _ & Hsplice).
  exists pos. split; [exact Hd | exact Hsplice].
Defined.

Lemma X27_findTextDifference_replacement_witness :
  exists pos x y,
    findTextDifference "cat" "cot" =
      Some (TextDifference.mk replaceText None pos None
              (Some (String x "")) (Some (String y "")))
    /\ charAt "cat" pos = Some (String x "")
    /\ charAt "cot" pos = Some (String y "")
    /\ x <> y.
Proof.
  assert (Hl : String.length "cat" = String.length "cot") by reflexivity.
  assert (Hne : "cat" <> "cot") by discriminate.
  destruct (X27_findTextDifference_replacement "cat" "cot" Hl Hne)
    as (pos & x & y & Hd & Hx & Hy & Hxy & _).
  exists pos, x, y. repeat split; assumption.
Defined.
